(** * trace-web: the sequence-planning and vision endpoints

    A shallow embedding of [api/sequence.ts] and of the vision endpoint
    (the second serverless function of the repository), and the properties
    of the parse / validate / fallback pipeline.

    Conventions of the embedding.
    - JavaScript values are the inductive [value]; objects are association
      lists read by their first binding of a key.
    - A string is a sequence of code units; the code units are the 8-bit
      characters of [string].
    - Code that can throw lives in the [result] monad; [try_catch] is the
      [try { } catch (error) { }] statement.
    - [JSON.parse] and the two calls to the model provider are the host's:
      the development is parametric in them. *)

From stdpp Require Import base strings list gmap pretty.
From Stdlib Require Import ZArith Ascii Uint63 PrimFloat.
From Stdlib Require Floats.

(** ** JavaScript values *)

Module JS.

(** The values that JSON text and the handlers' own literals produce.
    [VNum z] is the number [z] for an integer [z] that a double holds and
    prints exactly, digit for digit (up to [2^53] in magnitude: counts,
    indices and ids).  Every other number, with a fraction or larger, is
    never computed with by the sources, only carried and printed: [VFrac]
    holds it by its canonical text (what [String] gives for it), as in
    [VFrac "0.5"], [VFrac "3.8"] and [VFrac "1e+21"]. *)
#[warnings="-register-all"] Inductive value : Type :=
| VUndefined
| VNull
| VBool (b : bool)
| VNum (z : Z)
| VFrac (repr : string)
| VStr (s : string)
| VArr (elems : list value)
| VObj (fields : list (string * value)).

(** An [Error] object as far as the handlers read it. *)
Record js_error : Type := JsError { err_name : string; err_message : string }.

Inductive result (A : Type) : Type :=
| Ok (a : A)
| Throw (e : js_error).
Arguments Ok {A} a.
Arguments Throw {A} e.

#[export] Instance result_ret : MRet result := @Ok.
#[export] Instance result_bind : MBind result :=
  λ A B f m, match m with Ok a => f a | Throw e => Throw e end.

(** [try { body } catch (error) { handler }] *)
Definition try_catch {A} (body : result A) (handler : js_error → result A)
  : result A :=
  match body with
  | Ok a => Ok a
  | Throw e => handler e
  end.

Definition is_ok {A} (r : result A) : bool :=
  match r with Ok _ => true | Throw _ => false end.

(** [x == null]: the values for which [??] and [?.] take the other branch. *)
Definition nullish (v : value) : bool :=
  match v with
  | VUndefined | VNull => true
  | _ => false
  end.

(** ToBoolean. *)
Definition truthy (v : value) : bool :=
  match v with
  | VUndefined | VNull => false
  | VBool b => b
  | VNum z => negb (z =? 0)%Z
  | VFrac _ => true
  | VStr s => negb (String.eqb s "")
  | VArr _ | VObj _ => true
  end.

(** [a ?? b] and [a || b] on already evaluated operands; the sources'
    right operands are property reads and literals, which have no effect,
    so evaluating them early changes nothing. *)
Definition coalesce (a b : value) : value := if nullish a then b else a.
Definition or_else (a b : value) : value := if truthy a then a else b.

(** [Array.isArray]. *)
Definition isArray (v : value) : bool :=
  match v with VArr _ => true | _ => false end.

(** The first binding of [k]. *)
Fixpoint lookup_field (k : string) (fields : list (string * value))
  : option value :=
  match fields with
  | [] => None
  | (k', v) :: rest => if String.eqb k k' then Some v else lookup_field k rest
  end.

Definition type_error (msg : string) : js_error := JsError "TypeError" msg.

(** [Array.prototype.join] with its default separator, over the
    conversion [elem] of the elements: they are converted in turn, the
    nullish ones to the empty string. *)
Definition join (elem : value → result string)
  : list value → result string :=
  fix go (l : list value) : result string :=
    match l with
    | [] => Ok ""
    | x :: rest =>
        s ← (if nullish x then Ok "" else elem x);
        match rest with
        | [] => Ok s
        | _ => t ← go rest; Ok (s +:+ "," +:+ t)
        end
    end.

(** [String(v)].  A number [VNum z] prints as the decimal digits of [z],
    as JavaScript prints the integers that [VNum] stands for; the text of
    any other number is the one [VFrac] holds (exponent form from [1e21]
    on).  A parsed object prints as [[object Object]], through
    [Object.prototype.toString], unless it has a property [toString] of
    its own: no parsed value can be called, so neither that property nor
    [valueOf] yields a primitive and the conversion throws a TypeError
    (message in V8's wording).  An array prints through [join], so it
    throws where an element does. *)
Fixpoint toString (v : value) : result string :=
  match v with
  | VUndefined => Ok "undefined"
  | VNull => Ok "null"
  | VBool true => Ok "true"
  | VBool false => Ok "false"
  | VNum z => Ok (pretty z)
  | VFrac repr => Ok repr
  | VStr s => Ok s
  | VArr elems => join toString elems
  | VObj fields =>
      match lookup_field "toString" fields with
      | Some _ =>
          Throw (type_error "Cannot convert object to primitive value")
      | None => Ok "[object Object]"
      end
  end.

(** The conversion to a primitive that [Number(v)] starts with.
    [valueOf] of a parsed object or array gives the object itself, not a
    primitive, so [toString] decides as it does for [String(v)]; turning
    the primitive into a number cannot throw. *)
Definition toPrimitive (v : value) : result value :=
  match v with
  | VArr _ | VObj _ => s ← toString v; Ok (VStr s)
  | _ => Ok v
  end.

(** The text of a value whose conversion returns (the empty text stands
    in where it throws): used to state properties, not by the code. *)
Definition string_form (v : value) : string :=
  match toString v with Ok s => s | Throw _ => "" end.

(** [String(v)] returns. *)
Definition printable (v : value) : bool := is_ok (toString v).

(** [v.k] for the property names the sources read ([id], [filename],
    [orderedIds], [ordered_ids], [beats], [theme], [emotion_arc], [role],
    [reason], [visual_energy], [visualWeight], [analysisResults],
    [promptText]): none of them is a built-in of strings, numbers,
    booleans or arrays, so only an object can hold them, and reading them
    off [null] or [undefined] throws a TypeError (message in V8's
    wording). *)
Definition get (v : value) (k : string) : result value :=
  match v with
  | VUndefined =>
      Throw (type_error
        ("Cannot read properties of undefined (reading '" +:+ k +:+ "')"))
  | VNull =>
      Throw (type_error
        ("Cannot read properties of null (reading '" +:+ k +:+ "')"))
  | VObj fields => Ok (default VUndefined (lookup_field k fields))
  | _ => Ok VUndefined
  end.

(** [v.k] for a [v] that is neither [null] nor [undefined]. *)
Definition prop (v : value) (k : string) : value :=
  match v with
  | VObj fields => default VUndefined (lookup_field k fields)
  | _ => VUndefined
  end.

End JS.
Export JS.

(** ** String primitives used by the parsers *)

Module Text.

Definition is_tick (c : ascii) : bool := Ascii.eqb c "`".
Definition is_newline (c : ascii) : bool := Ascii.eqb c "010".

(** [s.replace(/```json\n?/g, '')]: scanning from the left, every
    occurrence of three backticks followed by [json], together with one
    newline right after it if there is one, is removed; the scan resumes
    after the removed text. *)
Fixpoint strip_json_fences (s : string) : string :=
  match s with
  | EmptyString => EmptyString
  | String a tl =>
      match tl with
      | String b (String c (String j (String s' (String o (String n rest))))) =>
          if is_tick a && is_tick b && is_tick c
             && Ascii.eqb j "j" && Ascii.eqb s' "s"
             && Ascii.eqb o "o" && Ascii.eqb n "n"
          then match rest with
               | String d rest' =>
                   if is_newline d then strip_json_fences rest'
                   else strip_json_fences rest
               | EmptyString => EmptyString
               end
          else String a (strip_json_fences tl)
      | _ => String a (strip_json_fences tl)
      end
  end.

(** [s.replace(/```\n?/g, '')]. *)
Fixpoint strip_fences (s : string) : string :=
  match s with
  | EmptyString => EmptyString
  | String a tl =>
      match tl with
      | String b (String c rest) =>
          if is_tick a && is_tick b && is_tick c
          then match rest with
               | String d rest' =>
                   if is_newline d then strip_fences rest'
                   else strip_fences rest
               | EmptyString => EmptyString
               end
          else String a (strip_fences tl)
      | _ => String a (strip_fences tl)
      end
  end.

(** White space and line terminators among the 8-bit code units: TAB, LF,
    VT, FF, CR, SP and NBSP. *)
Definition is_space (c : ascii) : bool :=
  let n := nat_of_ascii c in
  ((9 <=? n)%nat && (n <=? 13)%nat) || (n =? 32)%nat || (n =? 160)%nat.

Fixpoint trimStart (s : string) : string :=
  match s with
  | EmptyString => EmptyString
  | String c rest => if is_space c then trimStart rest else s
  end.

Fixpoint trimEnd (s : string) : string :=
  match s with
  | EmptyString => EmptyString
  | String c rest =>
      match trimEnd rest with
      | EmptyString => if is_space c then EmptyString else String c EmptyString
      | kept => String c kept
      end
  end.

(** [s.trim()] *)
Definition trim (s : string) : string := trimEnd (trimStart s).

(** The text handed to [JSON.parse]. *)
Definition clean (jsonString : string) : string :=
  trim (strip_fences (strip_json_fences jsonString)).

(** [needle] occurs in [s] ([s.includes(needle)]). *)
Fixpoint starts_with (p s : string) : bool :=
  match p, s with
  | EmptyString, _ => true
  | String a p', String b s' => Ascii.eqb a b && starts_with p' s'
  | String _ _, EmptyString => false
  end.

Fixpoint includes (needle s : string) : bool :=
  starts_with needle s ||
  match s with
  | EmptyString => false
  | String _ rest => includes needle rest
  end.

(** Notions used to state the properties of [clean]. *)

Definition fence : string := "```".
Definition json_fence : string := "```json".
Definition newline : string := String "010" "".

Definition has_fence (s : string) : bool := includes fence s.

(** What is left of the text after a fence marker: one newline right
    after the marker goes with it. *)
Definition after_newline (s : string) : string :=
  match s with
  | String c rest => if is_newline c then rest else s
  | EmptyString => EmptyString
  end.

Definition first_tick (s : string) : bool :=
  match s with String c _ => is_tick c | EmptyString => false end.

(** A document inside a leading fence, with or without a language tag,
    and a trailing fence. *)
Definition fenced (tag doc : string) : string :=
  fence +:+ tag +:+ newline +:+ doc +:+ newline +:+ fence.

(** [s] between double quotes. *)
Definition quoted (s : string) : string :=
  String "034" (s +:+ String "034" "").

End Text.
Export Text.

(** ** The fixed-window rate limiter (the same code in both endpoints) *)

Module RateLimit.

Local Open Scope Z_scope.

Record record := Record_ { count : Z; resetAt : Z }.

Definition RATE_LIMIT_WINDOW_MS : Z := 10 * 60 * 1000.
Definition RATE_LIMIT_MAX_REQUESTS : Z := 30.

Record decision := Decision_ { allowed : bool; remaining : Z }.

Definition getRateLimitKey (ip : option string) : string :=
  match ip with
  | Some a => if String.eqb a "" then "unknown" else a
  | None => "unknown"
  end.

(** [rateLimitMap] is threaded through; [now] is [Date.now()]. *)
Definition checkRateLimit (ip : option string) (now : Z)
    (rateLimitMap : gmap string record) : decision * gmap string record :=
  let key := getRateLimitKey ip in
  let fresh :=
    (Decision_ true (RATE_LIMIT_MAX_REQUESTS - 1),
     <[key := Record_ 1 (now + RATE_LIMIT_WINDOW_MS)]> rateLimitMap) in
  match rateLimitMap !! key with
  | None => fresh
  | Some r =>
      if resetAt r <? now then fresh
      else if RATE_LIMIT_MAX_REQUESTS <=? count r
      then (Decision_ false 0, rateLimitMap)
      else (Decision_ true (RATE_LIMIT_MAX_REQUESTS - (count r + 1)),
            <[key := Record_ (count r + 1) (resetAt r)]> rateLimitMap)
  end.

(** The text before the first comma: [s.split(',')[0]]. *)
Fixpoint first_segment (s : string) : string :=
  match s with
  | EmptyString => EmptyString
  | String c rest =>
      if Ascii.eqb c "," then EmptyString else String c (first_segment rest)
  end.

(** [s || null] *)
Definition nonempty (s : option string) : option string :=
  match s with
  | Some a => if String.eqb a "" then None else Some a
  | None => None
  end.

(** [headers.get('x-forwarded-for')?.split(',')[0]?.trim()
     || headers.get('x-real-ip') || null] *)
Definition clientIp (x_forwarded_for x_real_ip : option string)
  : option string :=
  match nonempty (trim ∘ first_segment <$> x_forwarded_for) with
  | Some a => Some a
  | None => nonempty x_real_ip
  end.

End RateLimit.

(** ** [JSON.parse] and the Response Parser *)

(** [safeParseJSON] is the same function in both endpoints, up to the tag
    of its log line.  [JSON_parse] is the host's [JSON.parse]: the parsed
    value, or the SyntaxError it throws. *)
Definition safeParseJSON (JSON_parse : string → result value)
    (jsonString : string) (fallback : value) : result value :=
  try_catch
    (let cleaned := clean jsonString in JSON_parse cleaned)
    (λ error, Ok fallback).

(** A host parser known at one text, for the examples: it reads [text] as
    [v] and throws on every other text. *)
Definition reads (text : string) (v : value) : string → result value :=
  λ s, if String.eqb s text then Ok v
       else Throw (JsError "SyntaxError" "Unexpected token").

(** ** The sequence endpoint: [api/sequence.ts] *)

Module Sequence.

(** An element of [images], by the two properties the functions read. *)
Record image : Type := Image { img_id : value; img_filename : value }.

(** [arr.map((x, idx) => f(idx, x))] for a callback that can throw. *)
Fixpoint map_from {A B} (f : nat → A → result B) (idx : nat) (l : list A)
  : result (list B) :=
  match l with
  | [] => Ok []
  | x :: rest =>
      y ← f idx x;
      ys ← map_from f (S idx) rest;
      Ok (y :: ys)
  end.

(** [arr.every(f)] for a callback that can throw: it stops at the first
    element for which [f] is false. *)
Fixpoint every {A} (f : A → result bool) (l : list A) : result bool :=
  match l with
  | [] => Ok true
  | x :: rest =>
      match f x with
      | Ok true => every f rest
      | Ok false => Ok false
      | Throw e => Throw e
      end
  end.

(** [arr.findIndex(f)] for a callback that can throw; [None] is [-1]. *)
Fixpoint findIndex {A} (f : A → result bool) (idx : nat) (l : list A)
  : result (option nat) :=
  match l with
  | [] => Ok None
  | x :: rest =>
      match f x with
      | Ok true => Ok (Some idx)
      | Ok false => findIndex f (S idx) rest
      | Throw e => Throw e
      end
  end.

(** [String(img.id ?? img.filename ?? idx)] *)
Definition item_key (img : image) (idx : nat) : result string :=
  toString
    (coalesce (coalesce (img_id img) (img_filename img)) (VNum (Z.of_nat idx))).

(** [images.map(img => String(img.id ?? img.filename ?? images.indexOf(img)))].
    The elements of [images] are distinct objects (each is made by its own
    run of the callback of [map]), so [images.indexOf(img)] is the position
    of [img]. *)
Definition image_ids (images : list image) : result (list string) :=
  map_from (λ idx img, item_key img idx) 0%nat images.

Definition isValidSelection (orderedIds : value) (images : list image)
    (targetCount : nat) : result bool :=
  match orderedIds with
  | VArr ids =>
      if negb (length ids =? targetCount)%nat then Ok false
      else
        ids_of_images ← image_ids images;
        let imageIdSet : gset string := list_to_set ids_of_images in
        every (λ id, s ← toString id; Ok (bool_decide (s ∈ imageIdSet))) ids
  | _ => Ok false
  end.

Definition deterministicFallback (images : list image) (targetCount : nat)
  : result (list string) :=
  map_from (λ idx img, item_key img idx) 0%nat (take targetCount images).

Record shot : Type := Shot {
  shot_id : value;
  shot_role : value;
  shot_reason : value
}.

(** [beats.find(b => String(b.id) === String(id))]; [undefined] when no
    entry matches. *)
Fixpoint find_beat (id : value) (beats : list value) : result value :=
  match beats with
  | [] => Ok VUndefined
  | b :: rest =>
      b_id ← get b "id";
      s ← toString b_id;
      t ← toString id;
      if String.eqb s t then Ok b else find_beat id rest
  end.

(** [beat?.k] *)
Definition get_opt (v : value) (k : string) : result value :=
  if nullish v then Ok VUndefined else get v k.

(** An array index or length as a number: a double, exact below [2^53]. *)
Definition number_of_nat (n : nat) : float :=
  PrimFloat.of_uint63 (Uint63.of_Z (Z.of_nat n)).

(** [idx < n * 0.2 ? 'opening' : idx < n * 0.6 ? 'build'
      : idx < n * 0.9 ? 'turn' : 'resolution'], in double precision as the
    source computes it: the three constants are the doubles nearest to
    0.2, 0.6 and 0.9, and each product is rounded. *)
#[warnings="-inexact-float"] Definition position_role (idx n : nat) : string :=
  if (number_of_nat idx <? number_of_nat n * 0.2)%float then "opening"
  else if (number_of_nat idx <? number_of_nat n * 0.6)%float then "build"
  else if (number_of_nat idx <? number_of_nat n * 0.9)%float then "turn"
  else "resolution".

Definition buildShots (orderedIds : list value) (beats : list value)
  : result (list shot) :=
  map_from
    (λ idx id,
       beat ← find_beat id beats;
       role ← get_opt beat "role";
       reason ← get_opt beat "reason";
       Ok {| shot_id := id;
             shot_role :=
               or_else role (VStr (position_role idx (length orderedIds)));
             shot_reason := or_else reason (VStr "") |})
    0%nat orderedIds.

(** The Final Plan. [plan_error] is the optional [error] property. *)
Record plan : Type := Plan {
  theme : value;
  emotion_arc : list value;
  ordered_ids : list string;
  shots : list shot;
  selected : list nat;
  order : list nat;
  durations : list value;
  transitions : list string;
  usedPlanner : string;
  plan_error : option string
}.

Inductive body : Type :=
| ErrorBody (error : string) (message : option string)
    (** [{ error, message? }] *)
| PlanBody (p : plan)
    (** [{ ok: true, plan }] *)
| FailureBody (error : string).
    (** [{ ok: false, error }] *)

Record response : Type := Response {
  status : nat;
  headers : list (string * string);
  resp_body : body
}.

Definition json_header : string * string :=
  ("Content-Type", "application/json").

Record request : Type := Request {
  req_method : string;
  x_forwarded_for : option string;
  x_real_ip : option string;
  (** what [await req.json()] gives *)
  req_json : result value
}.

(** What [openai.chat.completions.create] does when awaited: it resolves
    to a completion, of which the handler reads the [message.content]
    ([string | null]) of each choice, or it rejects with an error; when
    the timer aborts the call after 30 s, the client rejects too, with
    an error of its own making. *)
Inductive upstream : Type :=
| Completion (choices : list (option string))
| Rejected (e : js_error).

(** [response.choices[0].message.content?.trim() || ''] *)
Definition first_content (choices : list (option string)) : result string :=
  match choices with
  | [] =>
      Throw (type_error
        "Cannot read properties of undefined (reading 'message')")
  | Some content :: _ => Ok (trim content)
  | None :: _ => Ok ""
  end.

(** The elements of an array value. *)
Definition elements (v : value) : list value :=
  match v with VArr l => l | _ => [] end.

(** [Array.from({ length: n }, f)] for a constant [f], and [Math.max(0, n - 1)]. *)
Definition transitions_count (n : nat) : nat :=
  Z.to_nat (Z.max 0 (Z.of_nat n - 1)).

Definition SHOT_DURATION : value := VFrac "3.8".

(** [images.findIndex(img => String(img.id) === String(id))],
    [-1] replaced by [0]; [id] is one of the strings of [orderedIdsStr]. *)
Definition selected_index (images : list image) (id : string) : result nat :=
  idx ← findIndex (λ img, s ← toString (img_id img); Ok (String.eqb s id))
          0%nat images;
  Ok (default 0%nat idx).

(** [body.analysisResults.map((a, idx) => ({ id: ..., filename: ..., analysis: ... }))].
    Of the [analysis] bag, which is read only to build the prompt, the
    one expression that can throw once [a.id] has been read is kept:
    [Number(a.visual_energy ?? a.visualWeight ?? 5)]. *)
Definition normalize (analysisResults : list value) : result (list image) :=
  map_from
    (λ idx a,
       a_id ← get a "id";
       a_filename ← get a "filename";
       id ← toString
              (coalesce (coalesce a_id a_filename) (VNum (Z.of_nat idx)));
       a_visual_energy ← get a "visual_energy";
       a_visualWeight ← get a "visualWeight";
       _ ← toPrimitive
             (coalesce (coalesce a_visual_energy a_visualWeight) (VNum 5));
       Ok {| img_id := VStr id;
             img_filename :=
               or_else a_filename (VStr ("image_" +:+ pretty idx)) |})
    0%nat analysisResults.

(** The inner [try] from the parsed output on: select, validate, build. *)
Definition assemble (images : list image) (targetCount : nat) (raw : value)
  : result plan :=
  raw_orderedIds ← get raw "orderedIds";
  raw_ordered_ids ← get raw "ordered_ids";
  let selectedOrderedIds :=
    or_else (or_else raw_orderedIds raw_ordered_ids) (VArr []) in
  raw_beats ← get raw "beats";
  let beats := if isArray raw_beats then elements raw_beats else [] in
  raw_theme ← get raw "theme";
  let theme := or_else raw_theme (VStr "") in
  raw_emotion_arc ← get raw "emotion_arc";
  let emotion_arc :=
    if isArray raw_emotion_arc then elements raw_emotion_arc else [] in
  valid ← isValidSelection selectedOrderedIds images targetCount;
  finalIds ←
    (if valid : bool then Ok (elements selectedOrderedIds)
     else fallbackIds ← deterministicFallback images targetCount;
          Ok (VStr <$> (fallbackIds : list string)));
  shots ← buildShots finalIds beats;
  orderedIdsStr ← map_from (λ (_ : nat) (id : value), toString id) 0%nat finalIds;
  selectedIndices ←
    map_from (λ (_ : nat) (id : string), selected_index images id) 0%nat
      orderedIdsStr;
  Ok {| theme := theme;
        emotion_arc := emotion_arc;
        ordered_ids := orderedIdsStr;
        shots := shots;
        selected := selectedIndices;
        order := seq 0 (length orderedIdsStr);
        durations := replicate (length orderedIdsStr) SHOT_DURATION;
        transitions :=
          replicate (transitions_count (length orderedIdsStr)) "crossfade";
        usedPlanner := "ai";
        plan_error := None |}.

(** The fallback shape handed to the Response Parser. *)
Definition fallbackPlan (images : list image) (targetCount : nat)
  : result value :=
  fallbackIds ← deterministicFallback images targetCount;
  Ok (VObj [("orderedIds", VArr (VStr <$> (fallbackIds : list string)));
            ("theme", VStr "");
            ("emotion_arc", VArr []);
            ("beats", VArr [])]).

Section Handler.

Context (JSON_parse : string → result value).

(** The body of the inner [try], up to the plan. *)
Definition plan_from_model (images : list image) (targetCount : nat)
    (up : upstream) : result plan :=
  choices ← match up with
            | Completion choices => Ok choices
            | Rejected e => Throw e
            end;
  content ← first_content choices;
  fallback ← fallbackPlan images targetCount;
  raw ← safeParseJSON JSON_parse content fallback;
  assemble images targetCount raw.

(** The plan of the two [catch] routes. *)
Definition fallback_plan (images : list image) (targetCount : nat)
    (error : option string) : result plan :=
  fallbackIds ← deterministicFallback images targetCount;
  fallbackShots ← buildShots (VStr <$> (fallbackIds : list string)) [];
  Ok {| theme := VStr "";
        emotion_arc := [];
        ordered_ids := fallbackIds;
        shots := fallbackShots;
        selected := seq 0 (length fallbackIds);
        order := seq 0 (length fallbackIds);
        durations := replicate (length fallbackIds) SHOT_DURATION;
        transitions :=
          replicate (transitions_count (length fallbackIds)) "crossfade";
        usedPlanner := "fallback";
        plan_error := error |}.

(** The inner [try { } catch (error) { }]. *)
Definition plan_response (images : list image) (targetCount : nat)
    (up : upstream) (remaining : Z) : result response :=
  try_catch
    (p ← plan_from_model images targetCount up;
     Ok (Response 200
           [json_header; ("X-RateLimit-Remaining", pretty remaining)]
           (PlanBody p)))
    (λ error,
       if String.eqb (err_name error) "AbortError"
       then
         p ← fallback_plan images targetCount None;
         Ok (Response 200 [json_header] (PlanBody p))
       else
         p ← fallback_plan images targetCount (Some (err_message error));
         Ok (Response 200 [json_header] (PlanBody p))).

Definition MAX_IMAGES : nat := 200.

(** The outer [try], from [await req.json()] on.  [api_key] is
    [process.env.OPENAI_API_KEY]. *)
Definition handle_body (req : request) (api_key : option string)
    (up : upstream) (remaining : Z) : result response :=
  body ← req_json req;
  analysisResults ← get body "analysisResults";
  if negb (truthy analysisResults) || negb (isArray analysisResults) then
    Ok (Response 400 [json_header]
          (ErrorBody "analysisResults array required" None))
  else if (length (elements analysisResults) =? 0)%nat then
    Ok (Response 400 [json_header]
          (ErrorBody "analysisResults array cannot be empty" None))
  else if (MAX_IMAGES <? length (elements analysisResults))%nat then
    Ok (Response 400 [json_header]
          (ErrorBody ("Too many images (max " +:+ pretty MAX_IMAGES +:+ ")")
             None))
  else
    _ ← get body "promptText";
    if negb (truthy (from_option VStr VUndefined api_key)) then
      Ok (Response 500 [json_header]
            (ErrorBody "Server configuration error" None))
    else
      images ← normalize (elements analysisResults);
      let targetCount := length images in
      plan_response images targetCount up remaining.

(** [handler(req)], with the rate-limit map and the clock made explicit. *)
Definition handler (req : request) (api_key : option string) (now : Z)
    (rateLimitMap : gmap string RateLimit.record) (up : upstream)
  : response * gmap string RateLimit.record :=
  if negb (String.eqb (req_method req) "POST") then
    (Response 405 [json_header] (ErrorBody "Method not allowed" None),
     rateLimitMap)
  else
    let clientIp :=
      RateLimit.clientIp (x_forwarded_for req) (x_real_ip req) in
    let '(rateLimit, rateLimitMap') :=
      RateLimit.checkRateLimit clientIp now rateLimitMap in
    if negb (RateLimit.allowed rateLimit) then
      (Response 429
         [json_header; ("X-RateLimit-Remaining", "0"); ("Retry-After", "600")]
         (ErrorBody "Rate limit exceeded"
            (Some "Too many requests. Please try again later.")),
       rateLimitMap')
    else
      (match handle_body req api_key up (RateLimit.remaining rateLimit) with
       | Ok r => r
       | Throw error =>
           Response 500 [json_header]
             (FailureBody
                (if String.eqb (err_message error) "" then "Unknown error"
                 else err_message error))
       end,
       rateLimitMap').

End Handler.

(** *** Notions used to state the properties of the endpoint *)

(** An item as [normalize] makes it: its [id] is a string. *)
Definition normalized (img : image) : Prop := ∃ s, img_id img = VStr s.

(** The ids of items that are [normalized], in order. *)
Definition id_texts (images : list image) : list string :=
  (string_form ∘ img_id) <$> images.

(** Beats whose entries can all be read: none is [null] or [undefined]. *)
Definition readable (beats : list value) : Prop :=
  Forall (λ b, nullish b = false) beats.

(** Beats that can be searched: none is [null] or [undefined], and the
    [id] of each can be converted to a string. *)
Definition legible (beats : list value) : Prop :=
  Forall (λ b, nullish b = false ∧ printable (prop b "id") = true) beats.

(** The first beat entry whose id matches, among readable beats. *)
Definition matching_beat (id : value) (beats : list value) : option value :=
  snd <$> list_find
            (λ b, string_form (prop b "id") = string_form id) beats.

(** [beat?.k] for the entry found, if any. *)
Definition beat_prop (beat : option value) (k : string) : value :=
  from_option (λ b, prop b k) VUndefined beat.

(** The shot at position [idx] of an ordering of length [n]. *)
Definition shot_at (beats : list value) (n idx : nat) (id : value) : shot :=
  let beat := matching_beat id beats in
  {| shot_id := id;
     shot_role := or_else (beat_prop beat "role") (VStr (position_role idx n));
     shot_reason := or_else (beat_prop beat "reason") (VStr "") |}.

(** Shots without beats: the role of the position, and no reason. *)
Definition positional_shots (ids : list string) : list shot :=
  imap (λ idx id, {| shot_id := VStr id;
                     shot_role := VStr (position_role idx (length ids));
                     shot_reason := VStr "" |}) ids.

(** The role of position [idx] among [n] by the quantiles of the
    specification, in exact arithmetic: the first fifth of the positions
    open, those up to three fifths build, those up to nine tenths turn and
    the rest resolve. *)
Definition quantile_role (idx n : nat) : string :=
  if decide (5 * idx < n) then "opening"
  else if decide (5 * idx < 3 * n) then "build"
  else if decide (10 * idx < 9 * n) then "turn"
  else "resolution".

Definition roles_agree (n : nat) : bool :=
  forallb (λ idx, String.eqb (position_role idx n) (quantile_role idx n))
    (seq 0 n).

(** [M / 2^k] rounded to the nearest integer, ties to even: the mantissa
    of a double product. *)
Definition rounded (M k : Z) : Z :=
  (let q := M / 2 ^ k in
   let rem := M mod 2 ^ k in
   if 2 * rem <? 2 ^ k then q
   else if 2 ^ k <? 2 * rem then q + 1
   else if Z.even q then q else q + 1)%Z.

Definition quantile_shots (ids : list string) : list shot :=
  imap (λ idx id, {| shot_id := VStr id;
                     shot_role := VStr (quantile_role idx (length ids));
                     shot_reason := VStr "" |}) ids.

(** [a.id ?? a.filename ?? idx] for an entry that can be read, and the
    text [String] gives for it. *)
Definition entry_key (idx : nat) (a : value) : value :=
  coalesce (coalesce (prop a "id") (prop a "filename")) (VNum (Z.of_nat idx)).

Definition entry_id (idx : nat) (a : value) : string :=
  string_form (entry_key idx a).

Definition item_of (idx : nat) (a : value) : image :=
  {| img_id := VStr (entry_id idx a);
     img_filename :=
       or_else (prop a "filename") (VStr ("image_" +:+ pretty idx)) |}.

Definition items_of (entries : list value) : list image := imap item_of entries.

(** An entry that provides neither [id] nor [filename]. *)
Definition keyless (a : value) : Prop :=
  nullish (prop a "id") = true ∧ nullish (prop a "filename") = true.

(** An entry that input normalization takes: it is neither [null] nor
    [undefined], and what it gives for its id and for its visual energy
    can be converted, by [String] and by [Number]. *)
Definition usable (a : value) : Prop :=
  nullish a = false
  ∧ printable (coalesce (prop a "id") (prop a "filename")) = true
  ∧ printable (coalesce (prop a "visual_energy") (prop a "visualWeight"))
    = true.

Definition rate_decision (req : request) (now : Z)
    (rateLimitMap : gmap string RateLimit.record) : RateLimit.decision :=
  (RateLimit.checkRateLimit
     (RateLimit.clientIp (x_forwarded_for req) (x_real_ip req))
     now rateLimitMap).1.

(** A well-formed request that gets past the gates of the handler and
    through input normalization: a POST within the rate limit whose body
    holds between 1 and 200 analysis results, all of them [usable], with
    the API key configured. *)
Definition accepted (req : request) (api_key : option string) (now : Z)
    (rateLimitMap : gmap string RateLimit.record) (entries : list value)
  : Prop :=
  req_method req = "POST"
  ∧ RateLimit.allowed (rate_decision req now rateLimitMap) = true
  ∧ (∃ body, req_json req = Ok body
             ∧ get body "analysisResults" = Ok (VArr entries))
  ∧ (0 < length entries ≤ MAX_IMAGES)%nat
  ∧ (∃ key, api_key = Some key ∧ key ≠ "")
  ∧ Forall usable entries.

(** [raw.orderedIds || raw.ordered_ids || []] for a [raw] that can be read. *)
Definition selected_ordering (raw : value) : value :=
  or_else (or_else (prop raw "orderedIds") (prop raw "ordered_ids")) (VArr []).

(** The ordering that the [try] body goes on with, over [normalized]
    items, when the validator returns: the selected one if it is valid,
    and the ids of the items otherwise. *)
Definition final_ids (images : list image) (targetCount : nat) (raw : value)
  : list value :=
  match isValidSelection (selected_ordering raw) images targetCount with
  | Ok true => elements (selected_ordering raw)
  | _ => VStr <$> id_texts (take targetCount images)
  end.

(** What the OpenAI client rejects with when the signal it was given is
    aborted, as the 30 s timer of the handler does: its
    [APIUserAbortError], an [Error] that keeps the inherited name. *)
Definition client_abort : js_error := JsError "Error" "Request was aborted.".

(** *** Sample inputs *)

Definition entry (id : string) : value := VObj [("id", VStr id)].

(** An object whose conversion to a string throws: [{"toString":0}]. *)
Definition unprintable : value := VObj [("toString", VNum 0)].

Definition post (entries : list value) : request :=
  {| req_method := "POST"; x_forwarded_for := None; x_real_ip := None;
     req_json := Ok (VObj [("analysisResults", VArr entries)]) |}.

Definition two_items : list image :=
  [Image (VStr "a") (VStr "a.jpg"); Image (VStr "b") (VStr "b.jpg")].

(** The model answer [{"orderedIds":["a","a"]}], and its parse. *)
Definition repeated_text : string :=
  "{" +:+ quoted "orderedIds" +:+ ":[" +:+ quoted "a" +:+ ","
  +:+ quoted "a" +:+ "]}".
Definition repeated_raw : value :=
  VObj [("orderedIds", VArr [VStr "a"; VStr "a"])].

(** The model answer [{"orderedIds":["a","b","x"]}], and its parse. *)
Definition foreign_text : string :=
  "{" +:+ quoted "orderedIds" +:+ ":[" +:+ quoted "a" +:+ ","
  +:+ quoted "b" +:+ "," +:+ quoted "x" +:+ "]}".
Definition foreign_raw : value :=
  VObj [("orderedIds", VArr [VStr "a"; VStr "b"; VStr "x"])].

End Sequence.

(** ** The vision endpoint *)

Module Vision.

Definition createFallbackAnalysis (filename : string) : value :=
  VObj
    [("filename", VStr filename);
     ("subject", VStr "unknown");
     ("composition",
       VObj [("framing", VStr "medium"); ("symmetry", VStr "medium");
             ("leading_lines", VBool false);
             ("negative_space", VStr "medium")]);
     ("light",
       VObj [("key", VStr "mid-key"); ("contrast", VStr "medium");
             ("directionality", VStr "ambient")]);
     ("mood", VArr []);
     ("visual_energy", VNum 5);
     ("emotion_vector",
       VObj [("calm", VFrac "0.5"); ("tension", VFrac "0.5");
             ("mystery", VFrac "0.5"); ("intimacy", VFrac "0.5");
             ("awe", VFrac "0.5")]);
     ("motion_safe_zones",
       VObj [("center", VBool true); ("left", VBool true);
             ("right", VBool true); ("top", VBool true);
             ("bottom", VBool true)]);
     ("recommended_move_types", VArr [VStr "hold"]);
     ("do_not", VArr []);
     ("best_role", VArr [])].

(** An element of [body.photos], as the endpoint documents it:
    [{filename: string, data: string (base64), mimeType?: string}]. *)
Record photo : Type := Photo {
  filename : string;
  data : string;
  mimeType : option string
}.

(** One call of [openai.responses.create]: the model and the image sent.
    (The prompt text is the same in every call.) *)
Record call : Type := Call { call_model : string; call_image_url : string }.

(** What the call does when awaited: it resolves to a response, of which
    [output_text] and [output] are read, or it rejects. *)
Inductive upstream : Type :=
| Responded (output_text output : value)
| Rejected (e : js_error).

(** [s.length] *)
Fixpoint strlen (s : string) : N :=
  match s with
  | EmptyString => 0%N
  | String _ rest => N.succ (strlen rest)
  end.

(** [s.split(sep).pop()]: the text after the last [sep]. *)
Fixpoint last_segment (sep : ascii) (s : string) : string :=
  match s with
  | EmptyString => EmptyString
  | String c rest =>
      if includes (String sep EmptyString) s then last_segment sep rest
      else s
  end.

(** [s.split(',')[1]] when [s] has a comma: the text between the first
    comma and the next one. *)
Fixpoint second_segment (s : string) : string :=
  match s with
  | EmptyString => EmptyString
  | String c rest =>
      if Ascii.eqb c "," then RateLimit.first_segment rest
      else second_segment rest
  end.

(** [toLowerCase] on the 8-bit code units: A-Z, and the capital letters of
    Latin-1 (U+00C0-U+00DE but the multiplication sign). *)
Definition lower_char (c : ascii) : ascii :=
  let n := nat_of_ascii c in
  if ((65 <=? n) && (n <=? 90)
      || (192 <=? n) && (n <=? 222) && negb (n =? 215))%nat
  then ascii_of_nat (n + 32) else c.

Fixpoint toLowerCase (s : string) : string :=
  match s with
  | EmptyString => EmptyString
  | String c rest => String (lower_char c) (toLowerCase rest)
  end.

Definition nonempty_or (s dflt : string) : string :=
  if String.eqb s "" then dflt else s.

(** [photo.mimeType || (ext === 'png' ? ... )] *)
Definition mime_of (p : photo) : string :=
  let ext := nonempty_or (toLowerCase (last_segment "." (filename p))) "jpg" in
  match mimeType p with
  | Some m => if negb (String.eqb m "") then m else
      if String.eqb ext "png" then "image/png"
      else if String.eqb ext "webp" then "image/webp" else "image/jpeg"
  | None =>
      if String.eqb ext "png" then "image/png"
      else if String.eqb ext "webp" then "image/webp" else "image/jpeg"
  end.

(** [photo.data.includes(',') ? photo.data.split(',')[1] : photo.data] *)
Definition base64_of (p : photo) : string :=
  if includes "," (data p) then second_segment (data p) else data p.

Definition MAX_BASE64_LENGTH : N := 13300000.

Definition too_large (p : photo) : bool :=
  (MAX_BASE64_LENGTH <? strlen (base64_of p))%N.

(** Object literals with a spread.  [set_field] is an assignment to a
    property; [own_entries] are the own enumerable properties that a
    spread copies. *)
Fixpoint set_field (k : string) (v : value) (fields : list (string * value))
  : list (string * value) :=
  match fields with
  | [] => [(k, v)]
  | (k', v') :: rest =>
      if String.eqb k k' then (k, v) :: rest
      else (k', v') :: set_field k v rest
  end.

Fixpoint chars_from (idx : nat) (s : string) : list (string * value) :=
  match s with
  | EmptyString => []
  | String c rest =>
      (pretty idx, VStr (String c EmptyString)) :: chars_from (S idx) rest
  end.

Definition own_entries (v : value) : list (string * value) :=
  match v with
  | VObj fields => fields
  | VArr elems => imap (λ idx x, (pretty idx, x)) elems
  | VStr s => chars_from 0 s
  | _ => []
  end.

(** [{ ...target, ...source }]; of two bindings of one key in [source]
    the first is the one the object holds, so it is assigned last. *)
Definition spread_into (target : list (string * value)) (source : value)
  : list (string * value) :=
  foldr (λ kv acc, set_field kv.1 kv.2 acc) target (own_entries source).

(** [(v).trim()]: only a string has [trim]. *)
Definition trim_of (v : value) : result string :=
  match v with
  | VStr s => Ok (trim s)
  | _ => Throw (type_error "(intermediate value).trim is not a function")
  end.

Section Handler.

Context (JSON_parse : string → result value).
Context (responses_create : call → upstream).

(** [analyzeImage]: the value it resolves to, and the calls it made. *)
Definition analyzeImage (imageBase64 filename mimeType modelName : string)
  : result value * list call :=
  let request :=
    Call modelName ("data:" +:+ mimeType +:+ ";base64," +:+ imageBase64) in
  (try_catch
     (response ← match responses_create request with
                 | Responded output_text output => Ok (output_text, output)
                 | Rejected e => Throw e
                 end;
      content ← trim_of (or_else (or_else response.1 response.2) (VStr ""));
      analysis ← safeParseJSON JSON_parse content
                   (createFallbackAnalysis filename);
      Ok (VObj (spread_into [("filename", VStr filename)] analysis)))
     (λ error,
        if String.eqb (err_name error) "AbortError"
        then Ok (createFallbackAnalysis filename)
        else Ok (createFallbackAnalysis filename)),
   [request]).

(** One turn of the [for] loop: the entry pushed on [analysisResults] and
    the calls made. *)
Definition analyze_photo (modelName : string) (p : photo)
  : value * list call :=
  let mimeType := mime_of p in
  let base64Data := base64_of p in
  if too_large p then (createFallbackAnalysis (filename p), [])
  else
    let '(analysis, calls) :=
      analyzeImage base64Data (filename p) mimeType modelName in
    (match analysis with
     | Ok a => a
     | Throw error => createFallbackAnalysis (filename p)
     end, calls).

(** The [for] loop over [body.photos]. *)
Fixpoint analyze_loop (modelName : string) (photos : list photo)
    (analysisResults : list value) (calls : list call)
  : list value * list call :=
  match photos with
  | [] => (analysisResults, calls)
  | p :: rest =>
      let '(entry, made) := analyze_photo modelName p in
      analyze_loop modelName rest (analysisResults ++ [entry]) (calls ++ made)
  end.

Inductive photos_field : Type :=
| NotAnArray   (** [photos] missing, falsy or not an array *)
| PhotoArray (photos : list photo).

Record request : Type := Request {
  req_method : string;
  x_forwarded_for : option string;
  x_real_ip : option string;
  (** [await req.json()], read at [photos] *)
  req_photos : result photos_field
}.

Inductive body : Type :=
| ErrorBody (error : string) (message : option string)
| ResultsBody (results : list value) (count : nat)
    (** [{ ok: true, results, count }] *)
| FailureBody (error : string).

Record response : Type := Response {
  status : nat;
  headers : list (string * string);
  resp_body : body
}.

Definition json_header : string * string :=
  ("Content-Type", "application/json").

Definition MAX_PHOTOS : nat := 36.

Definition handle_body (req : request) (api_key : option string)
    (modelName : string) (remaining : Z) : result response * list call :=
  match req_photos req with
  | Throw e => (Throw e, [])
  | Ok NotAnArray =>
      (Ok (Response 400 [json_header] (ErrorBody "photos array required" None)),
       [])
  | Ok (PhotoArray photos) =>
      if (length photos =? 0)%nat then
        (Ok (Response 400 [json_header]
               (ErrorBody "photos array cannot be empty" None)), [])
      else if (MAX_PHOTOS <? length photos)%nat then
        (Ok (Response 400 [json_header]
               (ErrorBody ("Too many photos (max " +:+ pretty MAX_PHOTOS +:+ ")")
                  None)), [])
      else if negb (truthy (from_option VStr VUndefined api_key)) then
        (Ok (Response 500 [json_header]
               (ErrorBody "Server configuration error" None)), [])
      else
        let '(analysisResults, calls) := analyze_loop modelName photos [] [] in
        if negb (length analysisResults =? length photos)%nat then
          (Ok (Response 500 [json_header]
                 (ErrorBody
                    ("Analysis incomplete: " +:+ pretty (length analysisResults)
                     +:+ "/" +:+ pretty (length photos) +:+ " images analyzed")
                    None)), calls)
        else
          (Ok (Response 200
                 [json_header; ("X-RateLimit-Remaining", pretty remaining)]
                 (ResultsBody analysisResults (length analysisResults))),
           calls)
  end.

(** [handler(req)]: the response, the calls made to the provider, and the
    rate-limit map afterwards. *)
Definition handler (req : request) (api_key : option string)
    (modelName : string) (now : Z)
    (rateLimitMap : gmap string RateLimit.record)
  : response * list call * gmap string RateLimit.record :=
  if negb (String.eqb (req_method req) "POST") then
    (Response 405 [json_header] (ErrorBody "Method not allowed" None), [],
     rateLimitMap)
  else
    let clientIp :=
      RateLimit.clientIp (x_forwarded_for req) (x_real_ip req) in
    let '(rateLimit, rateLimitMap') :=
      RateLimit.checkRateLimit clientIp now rateLimitMap in
    if negb (RateLimit.allowed rateLimit) then
      (Response 429
         [json_header; ("X-RateLimit-Remaining", "0"); ("Retry-After", "600")]
         (ErrorBody "Rate limit exceeded"
            (Some "Too many requests. Please try again later.")),
       [], rateLimitMap')
    else
      let '(outcome, calls) :=
        handle_body req api_key modelName (RateLimit.remaining rateLimit) in
      (match outcome with
       | Ok r => r
       | Throw error =>
           Response 500 [json_header]
             (FailureBody
                (if String.eqb (err_message error) "" then "Unknown error"
                 else err_message error))
       end, calls, rateLimitMap').

End Handler.

(** *** Notions used to state the properties of the endpoint *)

(** The call that sends photo [p]. *)
Definition request_of (modelName : string) (p : photo) : call :=
  Call modelName ("data:" +:+ mime_of p +:+ ";base64," +:+ base64_of p).

Definition rate_decision (req : request) (now : Z)
    (rateLimitMap : gmap string RateLimit.record) : RateLimit.decision :=
  (RateLimit.checkRateLimit
     (RateLimit.clientIp (x_forwarded_for req) (x_real_ip req))
     now rateLimitMap).1.

(** A request that gets past the gates of the handler: a POST within the
    rate limit whose body holds between 1 and 36 photos, with the API key
    configured. *)
Definition accepted (req : request) (api_key : option string) (now : Z)
    (rateLimitMap : gmap string RateLimit.record) (photos : list photo)
  : Prop :=
  req_method req = "POST"
  ∧ RateLimit.allowed (rate_decision req now rateLimitMap) = true
  ∧ req_photos req = Ok (PhotoArray photos)
  ∧ (0 < length photos ≤ MAX_PHOTOS)%nat
  ∧ (∃ key, api_key = Some key ∧ key ≠ "").

(** *** Sample inputs *)

(** A text of [n] letters A. *)
Definition letters (n : N) : string := N.iter n (String "A") "".

Definition post (photos : list photo) : request :=
  {| req_method := "POST"; x_forwarded_for := None; x_real_ip := None;
     req_photos := Ok (PhotoArray photos) |}.

(** A provider that answers every call with the text [{}], and a host
    parser known at that text. *)
Definition answers_empty_object : call → upstream :=
  λ _, Responded (VStr "{}") VUndefined.
Definition reads_empty_object : string → result value :=
  reads "{}" (VObj []).

Definition small_photo : photo :=
  Photo "sea.png" "data:image/png;base64,AAAA" None.
Definition large_photo : photo := Photo "sky.jpg" (letters 13300001) None.

End Vision.

(** ** Runs of requests, and notions used to state further properties *)

Module Runs.

(** The successive calls of [checkRateLimit] for one caller, at the given
    times, on the one [rateLimitMap] of the process. *)
Fixpoint serve_limiter (ip : option string) (times : list Z)
    (rateLimitMap : gmap string RateLimit.record)
  : list RateLimit.decision * gmap string RateLimit.record :=
  match times with
  | [] => ([], rateLimitMap)
  | now :: rest =>
      let '(d, rateLimitMap') := RateLimit.checkRateLimit ip now rateLimitMap in
      let '(ds, rateLimitMap'') := serve_limiter ip rest rateLimitMap' in
      (d :: ds, rateLimitMap'')
  end.

(** The successive runs of the sequence handler: each arrival is a
    request, the time it arrives at and what the provider does for it. *)
Fixpoint serve_sequence (JSON_parse : string → result value)
    (api_key : option string)
    (arrivals : list (Sequence.request * Z * Sequence.upstream))
    (rateLimitMap : gmap string RateLimit.record)
  : list Sequence.response * gmap string RateLimit.record :=
  match arrivals with
  | [] => ([], rateLimitMap)
  | (req, now, up) :: rest =>
      let '(r, rateLimitMap') :=
        Sequence.handler JSON_parse req api_key now rateLimitMap up in
      let '(rs, rateLimitMap'') :=
        serve_sequence JSON_parse api_key rest rateLimitMap' in
      (r :: rs, rateLimitMap'')
  end.

(** The decision for request number [i] (from 0) of a window. *)
Definition window_decision (i : nat) : RateLimit.decision :=
  if decide (i < 30)
  then RateLimit.Decision_ true (29 - Z.of_nat i)
  else RateLimit.Decision_ false 0.

(** No window is open for [key] at [now]: no record, or an expired one. *)
Definition no_window (key : string) (now : Z)
    (rateLimitMap : gmap string RateLimit.record) : Prop :=
  match rateLimitMap !! key with
  | None => True
  | Some r => (RateLimit.resetAt r < now)%Z
  end.

(** Every record counts between 1 and the maximum. *)
Definition counts_bounded (rateLimitMap : gmap string RateLimit.record)
  : Prop :=
  ∀ key r, rateLimitMap !! key = Some r →
    (1 ≤ RateLimit.count r ≤ RateLimit.RATE_LIMIT_MAX_REQUESTS)%Z.

(** Leading and trailing white space. *)
Definition starts_space (s : string) : bool :=
  match s with String c _ => is_space c | EmptyString => false end.

Fixpoint ends_space (s : string) : bool :=
  match s with
  | EmptyString => false
  | String c EmptyString => is_space c
  | String _ rest => ends_space rest
  end.

Fixpoint all_space (s : string) : bool :=
  match s with
  | EmptyString => true
  | String c rest => is_space c && all_space rest
  end.

(** [Array.isArray(raw.beats) ? raw.beats : []] for a [raw] that can be
    read. *)
Definition beats_of (raw : value) : list value :=
  if isArray (prop raw "beats") then Sequence.elements (prop raw "beats")
  else [].

(** [Array.isArray(raw.emotion_arc) ? raw.emotion_arc : []] for a [raw]
    that can be read. *)
Definition emotion_arc_of (raw : value) : list value :=
  if isArray (prop raw "emotion_arc")
  then Sequence.elements (prop raw "emotion_arc") else [].

(** The plan that the [try] body of the sequence handler assembles from
    the text of the ordering it goes on with, the shots built for it and
    the indices found for it. *)
Definition assembled_plan (raw : value) (ids : list string)
    (shots : list Sequence.shot) (selected : list nat) : Sequence.plan :=
  {| Sequence.theme := or_else (prop raw "theme") (VStr "");
     Sequence.emotion_arc := emotion_arc_of raw;
     Sequence.ordered_ids := ids;
     Sequence.shots := shots;
     Sequence.selected := selected;
     Sequence.order := seq 0 (length ids);
     Sequence.durations := replicate (length ids) Sequence.SHOT_DURATION;
     Sequence.transitions :=
       replicate (Sequence.transitions_count (length ids)) "crossfade";
     Sequence.usedPlanner := "ai";
     Sequence.plan_error := None |}.

(** The plan of the two [catch] routes of the sequence handler. *)
Definition degraded_plan (ids : list string) (error : option string)
  : Sequence.plan :=
  {| Sequence.theme := VStr ""; Sequence.emotion_arc := [];
     Sequence.ordered_ids := ids;
     Sequence.shots := Sequence.positional_shots ids;
     Sequence.selected := seq 0 (length ids);
     Sequence.order := seq 0 (length ids);
     Sequence.durations := replicate (length ids) Sequence.SHOT_DURATION;
     Sequence.transitions :=
       replicate (Sequence.transitions_count (length ids)) "crossfade";
     Sequence.usedPlanner := "fallback";
     Sequence.plan_error := error |}.

(** A request that reaches input normalization in the sequence handler:
    [Sequence.accepted] but for the entries, which may be [null]. *)
Definition reaches_normalization (req : Sequence.request)
    (api_key : option string) (now : Z)
    (rateLimitMap : gmap string RateLimit.record) (entries : list value)
  : Prop :=
  Sequence.req_method req = "POST"
  ∧ RateLimit.allowed (Sequence.rate_decision req now rateLimitMap) = true
  ∧ (∃ body, Sequence.req_json req = Ok body
             ∧ get body "analysisResults" = Ok (VArr entries))
  ∧ (0 < length entries ≤ Sequence.MAX_IMAGES)%nat
  ∧ (∃ key, api_key = Some key ∧ key ≠ "").

(** An [analysisResults] that validation turns down: anything but an
    array of 1 to [MAX_IMAGES] elements. *)
Definition unusable (analysisResults : value) : Prop :=
  ∀ entries, analysisResults = VArr entries →
    length entries = 0%nat ∨ (Sequence.MAX_IMAGES < length entries)%nat.

(** The answer of the outer [catch] of the sequence handler. *)
Definition sequence_failure (error : js_error) : Sequence.response :=
  Sequence.Response 500 [Sequence.json_header]
    (Sequence.FailureBody
       (if String.eqb (err_message error) "" then "Unknown error"
        else err_message error)).

(** The answer of the outer [catch] of the vision handler. *)
Definition vision_failure (error : js_error) : Vision.response :=
  Vision.Response 500 [Vision.json_header]
    (Vision.FailureBody
       (if String.eqb (err_message error) "" then "Unknown error"
        else err_message error)).

(** The [error] texts of the vision endpoint that a request can be
    answered with. *)
Definition vision_errors : list string :=
  ["Method not allowed"; "Rate limit exceeded"; "photos array required";
   "photos array cannot be empty"; "Too many photos (max 36)";
   "Server configuration error"].

(** The media type that goes with a file extension. *)
Definition extension_type (ext : string) : string :=
  if String.eqb (Vision.toLowerCase ext) "png" then "image/png"
  else if String.eqb (Vision.toLowerCase ext) "webp" then "image/webp"
  else "image/jpeg".

(** [response.output_text || response.output || ''] *)
Definition output_of (output_text output : value) : value :=
  or_else (or_else output_text output) (VStr "").

(** A provider that answers every call with the same text, and one that
    rejects every call. *)
Definition answers (text : string) : Vision.call → Vision.upstream :=
  λ _, Vision.Responded (VStr text) VUndefined.
Definition rejects (e : js_error) : Vision.call → Vision.upstream :=
  λ _, Vision.Rejected e.

(** The model answer [{"orderedIds":["b","a"]}], and its parse. *)
Definition reversed_text : string :=
  "{" +:+ quoted "orderedIds" +:+ ":[" +:+ quoted "b" +:+ ","
  +:+ quoted "a" +:+ "]}".
Definition reversed_raw : value :=
  VObj [("orderedIds", VArr [VStr "b"; VStr "a"])].

(** The model answer [{"beats":[null]}], and its parse. *)
Definition null_beat_text : string := "{" +:+ quoted "beats" +:+ ":[null]}".
Definition null_beat_raw : value := VObj [("beats", VArr [VNull])].

(** Thirty-one requests of one client within ten minutes. *)
Definition burst : list (Sequence.request * Z * Sequence.upstream) :=
  (Sequence.post [], 0%Z, Sequence.Completion [])
  :: replicate 30 (Sequence.post [], 5%Z, Sequence.Completion []).

End Runs.

(** * Properties *)

(** ** Values and the error monad *)

Module JSProps.

Lemma get_prop v k : nullish v = false → get v k = Ok (prop v k).
Proof. by destruct v. Qed.

Lemma get_nullish v k : nullish v = true → is_ok (get v k) = false.
Proof. by destruct v. Qed.

Lemma bind_ok {A B} (m : result A) (f : A → result B) b :
  m ≫= f = Ok b ↔ ∃ a, m = Ok a ∧ f a = Ok b.
Proof.
  destruct m as [a|e]; simpl; split.
  - intros H. by exists a.
  - by intros (a' & [= ->] & H).
  - done.
  - by intros (a' & ? & _).
Qed.

Lemma value_rect_nested (P : value → Prop) :
  P VUndefined → P VNull → (∀ b, P (VBool b)) → (∀ z, P (VNum z)) →
  (∀ repr, P (VFrac repr)) → (∀ s, P (VStr s)) →
  (∀ elems, Forall P elems → P (VArr elems)) →
  (∀ fields, P (VObj fields)) →
  ∀ v, P v.
Proof.
  intros Hu Hn Hb Hz Hf Hs Ha Ho. fix IH 1.
  intros [| |b|z|repr|s|elems|fields];
    [exact Hu|exact Hn|apply Hb|apply Hz|apply Hf|apply Hs| |apply Ho].
  apply Ha. induction elems as [|x elems IHl]; constructor;
    [apply IH|exact IHl].
Qed.

Lemma join_throws (elem : value → result string) (P : js_error → Prop) l e :
  Forall (λ x, ∀ e, elem x = Throw e → P e) l →
  join elem l = Throw e → P e.
Proof.
  induction 1 as [|x l Hx _ IH]; [done|]. cbn [join].
  destruct (if nullish x then Ok "" else elem x) as [s|e'] eqn:Hs; simpl.
  - destruct l as [|y l]; [done|].
    change (join elem (y :: l) ≫= (λ t, Ok (s +:+ "," +:+ t)) = Throw e → P e).
    destruct (join elem (y :: l)) as [t|e'] eqn:Ht; simpl; [done|].
    intros [= <-]. by apply IH.
  - intros [= <-]. destruct (nullish x); [done|]. by apply Hx.
Qed.

(** Whatever [String] throws is a TypeError. *)
Lemma toString_throws v e : toString v = Throw e → err_name e = "TypeError".
Proof.
  revert e. induction v as [| |b|z|repr|s|elems IH|fields]
    using value_rect_nested; intros e; try done.
  - by destruct b.
  - simpl. by apply (join_throws toString (λ e, err_name e = "TypeError")).
  - simpl. destruct (lookup_field "toString" fields); [|done].
    by intros [= <-].
Qed.

Lemma toPrimitive_throws v e :
  toPrimitive v = Throw e → err_name e = "TypeError".
Proof.
  unfold toPrimitive. destruct v as [| | | | | |elems|fields]; try done.
  - destruct (toString (VArr elems)) eqn:Hs; simpl; [done|].
    intros [= <-]. by eapply toString_throws.
  - destruct (toString (VObj fields)) eqn:Hs; simpl; [done|].
    intros [= <-]. by eapply toString_throws.
Qed.

Lemma string_form_ok v s : toString v = Ok s → string_form v = s.
Proof. unfold string_form. by intros ->. Qed.

Lemma printable_toString v :
  printable v = true → toString v = Ok (string_form v).
Proof.
  unfold printable, string_form. by destruct (toString v).
Qed.

Lemma toString_printable v s : toString v = Ok s → printable v = true.
Proof. unfold printable. by intros ->. Qed.

Lemma toPrimitive_printable v : is_ok (toPrimitive v) = printable v.
Proof.
  unfold printable, toPrimitive. destruct v as [| |[]| | | |elems|fields];
    try done.
  - by destruct (toString (VArr elems)).
  - by destruct (toString (VObj fields)).
Qed.

(** A nullish operand of [??] does not change whether the result can be
    converted: its replacement here is a number. *)
Lemma printable_coalesce v z :
  printable (coalesce v (VNum z)) = printable v.
Proof. by destruct v as [| |[]| | | | |]. Qed.

End JSProps.
Import JSProps.

(** ** The cleaning step of the Response Parser *)

Module ParserProps.

Lemma includes_cons p c s :
  includes p (String c s) = starts_with p (String c s) || includes p s.
Proof. reflexivity. Qed.

Lemma starts_fence s :
  starts_with fence s
  = match s with
    | String a (String b (String c _)) => is_tick a && is_tick b && is_tick c
    | _ => false
    end.
Proof.
  unfold fence, is_tick. destruct s as [|a [|b [|c rest]]]; cbn [starts_with];
    rewrite ?(Ascii.eqb_sym "`"%char), ?andb_false_r, ?andb_true_r, ?andb_assoc;
    done.
Qed.

Lemma strip_fences_hit a b c rest :
  is_tick a && is_tick b && is_tick c = true →
  strip_fences (String a (String b (String c rest)))
  = match rest with
    | String d rest' =>
        if is_newline d then strip_fences rest' else strip_fences rest
    | EmptyString => EmptyString
    end.
Proof. intros H. cbn [strip_fences]. rewrite H. by destruct rest. Qed.

Lemma strip_fences_miss a tl :
  starts_with fence (String a tl) = false →
  strip_fences (String a tl) = String a (strip_fences tl).
Proof.
  rewrite starts_fence. intros H. destruct tl as [|b [|c rest]]; [done..|].
  cbn [strip_fences]. by rewrite H.
Qed.

Lemma strip_fences_first_tick s :
  first_tick s = false → first_tick (strip_fences s) = false.
Proof.
  destruct s as [|a tl]; [done|]. intros Ha.
  rewrite strip_fences_miss; [done|].
  rewrite starts_fence. simpl in Ha. rewrite Ha. by destruct tl as [|? [|? ?]].
Qed.

Lemma strip_fences_head a tl :
  starts_with fence (String a tl) = false →
  starts_with fence (String a (strip_fences tl)) = false.
Proof.
  intros Hs. destruct (is_tick a) eqn:Ha.
  2:{ rewrite starts_fence, Ha. by destruct (strip_fences tl) as [|? [|? ?]]. }
  destruct (first_tick tl) eqn:Hb.
  2:{ apply strip_fences_first_tick in Hb. rewrite starts_fence.
      destruct (strip_fences tl) as [|b [|c r]]; try done.
      simpl in Hb. by rewrite Hb, andb_false_r. }
  destruct tl as [|b tl']; [done|]. simpl in Hb.
  assert (first_tick tl' = false) as Hc.
  { rewrite starts_fence, Ha, Hb in Hs. by destruct tl' as [|c r]. }
  rewrite strip_fences_miss.
  2:{ rewrite starts_fence. destruct tl' as [|c [|d r]]; try done;
      simpl in Hc; by rewrite Hc, andb_false_r. }
  apply strip_fences_first_tick in Hc. rewrite starts_fence.
  destruct (strip_fences tl') as [|c r]; [done|].
  simpl in Hc. by rewrite Hc, andb_false_r.
Qed.

Lemma strip_fences_no_fence_len n s :
  String.length s ≤ n → has_fence (strip_fences s) = false.
Proof.
  revert s. induction n as [|n IH]; intros s Hlen.
  { destruct s; [done | simpl in Hlen; lia]. }
  destruct s as [|a tl]; [done|].
  destruct (starts_with fence (String a tl)) eqn:Hs.
  - rewrite starts_fence in Hs. destruct tl as [|b [|c rest]]; [done..|].
    rewrite strip_fences_hit by done.
    destruct rest as [|d rest']; [done|].
    destruct (is_newline d); apply IH; simpl in *; lia.
  - rewrite strip_fences_miss by done.
    unfold has_fence. rewrite includes_cons, strip_fences_head by done.
    apply IH. simpl in Hlen. lia.
Qed.

Lemma strip_fences_no_fence s : has_fence (strip_fences s) = false.
Proof. by apply (strip_fences_no_fence_len (String.length s)). Qed.

(** A text without a fence is left as it is by both replacements. *)
Lemma strip_fences_id s : has_fence s = false → strip_fences s = s.
Proof.
  induction s as [|a tl IH]; [done|].
  unfold has_fence. rewrite includes_cons. intros [Hs Htl]%orb_false_iff.
  rewrite strip_fences_miss by done. by rewrite IH.
Qed.

Lemma strip_json_fences_id s : has_fence s = false → strip_json_fences s = s.
Proof.
  induction s as [|a tl IH]; [done|].
  unfold has_fence. rewrite includes_cons. intros [Hs Htl]%orb_false_iff.
  rewrite starts_fence in Hs.
  cbn [strip_json_fences].
  destruct tl as [|b [|c [|j [|s' [|o [|n rest]]]]]]; rewrite ?IH; try done.
  by rewrite Hs.
Qed.

(** [trim] keeps a contiguous part of the text. *)
Lemma includes_trimStart p s :
  includes p (trimStart s) = true → includes p s = true.
Proof.
  induction s as [|c rest IH]; [done|]. cbn [trimStart].
  destruct (is_space c); [|done].
  intros H%IH. rewrite includes_cons, H. apply orb_true_r.
Qed.

Lemma starts_with_trimEnd p s :
  starts_with p (trimEnd s) = true → starts_with p s = true.
Proof.
  revert p. induction s as [|c rest IH]; intros p; [done|].
  cbn [trimEnd]. destruct (trimEnd rest) as [|k kept] eqn:Hk.
  - destruct (is_space c).
    + destruct p; done.
    + destruct p as [|x [|y p']]; cbn [starts_with]; try done.
      by rewrite andb_false_r.
  - destruct p as [|x p']; [done|]. cbn [starts_with].
    intros [-> H]%andb_true_iff. by rewrite IH.
Qed.

Lemma includes_trimEnd p s :
  includes p (trimEnd s) = true → includes p s = true.
Proof.
  induction s as [|c rest IH].
  { done. }
  intros H. rewrite includes_cons. apply orb_true_iff.
  assert (includes p (trimEnd (String c rest))
          = starts_with p (trimEnd (String c rest))
            || includes p (trimEnd rest)) as Hsplit.
  { cbn [trimEnd]. destruct (trimEnd rest) as [|k kept] eqn:Hk.
    - destruct (is_space c); simpl; destruct p; simpl; by rewrite ?orb_false_r.
    - by rewrite includes_cons. }
  rewrite Hsplit in H. apply orb_true_iff in H as [H|H].
  - left. by apply starts_with_trimEnd.
  - right. by apply IH.
Qed.

Lemma includes_trim p s : includes p (trim s) = true → includes p s = true.
Proof. intros H. by apply includes_trimStart, includes_trimEnd. Qed.

Lemma clean_no_fence text : has_fence (clean text) = false.
Proof.
  unfold clean. apply not_true_is_false. intros H%includes_trim.
  unfold has_fence in *. by rewrite (strip_fences_no_fence _) in H.
Qed.

Lemma clean_id text : has_fence text = false → clean text = trim text.
Proof.
  intros H. unfold clean. by rewrite strip_json_fences_id, strip_fences_id.
Qed.

Lemma append_nil s : "" +:+ s = s.
Proof. done. Qed.

Lemma append_cons c s t : String c s +:+ t = String c (s +:+ t).
Proof. done. Qed.

Lemma starts_fence_tail a tl :
  starts_with fence (String a tl) = false →
  starts_with fence (String a (tl +:+ newline +:+ fence)) = false.
Proof.
  assert (is_tick "010" = false) as Hnl by done.
  rewrite !starts_fence. unfold newline.
  destruct tl as [|b [|c r]]; rewrite ?append_cons, ?append_nil, ?append_cons;
    rewrite ?Hnl, ?andb_false_r; done.
Qed.

Lemma strip_fences_trailing doc :
  has_fence doc = false →
  strip_fences (doc +:+ newline +:+ fence) = doc +:+ newline.
Proof.
  induction doc as [|a tl IH]; [done|].
  unfold has_fence. rewrite includes_cons. intros [Hs Htl]%orb_false_iff.
  change (String a tl +:+ newline +:+ fence)
    with (String a (tl +:+ newline +:+ fence)).
  rewrite strip_fences_miss by by apply starts_fence_tail.
  by rewrite IH.
Qed.

Lemma starts_json_fence a b c j s' o n rest :
  starts_with json_fence
    (String a (String b (String c (String j (String s' (String o
       (String n rest)))))))
  = is_tick a && is_tick b && is_tick c
    && Ascii.eqb j "j" && Ascii.eqb s' "s" && Ascii.eqb o "o" && Ascii.eqb n "n".
Proof.
  unfold json_fence, is_tick. cbn [starts_with].
  rewrite (Ascii.eqb_sym "`"%char a), (Ascii.eqb_sym "`"%char b),
    (Ascii.eqb_sym "`"%char c), (Ascii.eqb_sym "j"%char j),
    (Ascii.eqb_sym "s"%char s'), (Ascii.eqb_sym "o"%char o),
    (Ascii.eqb_sym "n"%char n).
  by rewrite andb_true_r, !andb_assoc.
Qed.

Lemma strip_json_fences_skip a tl :
  starts_with json_fence (String a tl) = false →
  strip_json_fences (String a tl) = String a (strip_json_fences tl).
Proof.
  intros Hs. cbn [strip_json_fences].
  destruct tl as [|b [|c [|j [|s' [|o [|n rest]]]]]]; try done.
  rewrite starts_json_fence in Hs. by rewrite Hs.
Qed.

Lemma starts_with_app p q s :
  starts_with (p +:+ q) s = true → starts_with p s = true.
Proof.
  revert s. induction p as [|x p IH]; intros s; [done|].
  rewrite append_cons. destruct s as [|y s]; [done|]. cbn [starts_with].
  intros [-> H]%andb_true_iff. by rewrite (IH s).
Qed.

Lemma strip_json_fences_miss a tl :
  starts_with fence (String a tl) = false →
  strip_json_fences (String a tl) = String a (strip_json_fences tl).
Proof.
  intros Hs. apply strip_json_fences_skip, not_true_is_false.
  intros H. apply (starts_with_app fence "json") in H. congruence.
Qed.

Lemma strip_json_fences_trailing doc :
  has_fence doc = false →
  strip_json_fences (doc +:+ newline +:+ fence) = doc +:+ newline +:+ fence.
Proof.
  induction doc as [|a tl IH]; [done|].
  unfold has_fence. rewrite includes_cons. intros [Hs Htl]%orb_false_iff.
  change (String a tl +:+ newline +:+ fence)
    with (String a (tl +:+ newline +:+ fence)).
  rewrite strip_json_fences_miss by by apply starts_fence_tail.
  by rewrite IH.
Qed.

Lemma trimEnd_newline s : trimEnd (s +:+ newline) = trimEnd s.
Proof.
  induction s as [|c rest IH]; [done|].
  change (String c rest +:+ newline) with (String c (rest +:+ newline)).
  cbn [trimEnd]. by rewrite IH.
Qed.

Lemma trim_newline s : trim (s +:+ newline) = trim s.
Proof.
  unfold trim. induction s as [|c rest IH]; [done|].
  change (String c rest +:+ newline) with (String c (rest +:+ newline)).
  cbn [trimStart]. destruct (is_space c); [done|].
  apply (trimEnd_newline (String c rest)).
Qed.

Lemma clean_fenced_json doc :
  has_fence doc = false → clean (fenced "json" doc) = trim doc.
Proof.
  intros Hdoc. unfold clean, fenced.
  change (strip_json_fences (fence +:+ "json" +:+ newline +:+ doc +:+ newline +:+ fence))
    with (strip_json_fences (doc +:+ newline +:+ fence)).
  rewrite strip_json_fences_trailing, strip_fences_trailing by done.
  apply trim_newline.
Qed.

Lemma clean_fenced_plain doc :
  has_fence doc = false → clean (fenced "" doc) = trim doc.
Proof.
  intros Hdoc. unfold clean, fenced.
  change (fence +:+ "" +:+ newline +:+ doc +:+ newline +:+ fence)
    with (String "`" (String "`" (String "`"
            (String "010" (doc +:+ newline +:+ fence))))).
  rewrite !strip_json_fences_skip by done.
  rewrite strip_json_fences_trailing by done.
  rewrite strip_fences_hit by done.
  change (is_newline "010") with true. cbv iota.
  rewrite strip_fences_trailing by done.
  apply trim_newline.
Qed.

Lemma includes_app_l p q s : includes (p +:+ q) s = true → includes p s = true.
Proof.
  induction s as [|c s IH].
  - simpl. rewrite !orb_false_r. apply starts_with_app.
  - rewrite !includes_cons. intros [H|H]%orb_true_iff.
    + by rewrite (starts_with_app _ _ _ H).
    + rewrite (IH H). apply orb_true_r.
Qed.

Lemma includes_app_r p pre s :
  includes p s = true → includes p (pre +:+ s) = true.
Proof.
  intros H. induction pre as [|c pre IH]; [done|].
  rewrite append_cons, includes_cons, IH. apply orb_true_r.
Qed.

(** *** One replacement, fence by fence *)

(** A text without [```json] is left as it is by the first
    replacement. *)
Lemma strip_json_fences_same s :
  includes json_fence s = false → strip_json_fences s = s.
Proof.
  induction s as [|a tl IH]; [done|].
  rewrite includes_cons. intros [Hs Htl]%orb_false_iff.
  rewrite strip_json_fences_skip by done. by rewrite IH.
Qed.

Lemma strip_json_fences_hit rest :
  strip_json_fences (json_fence +:+ rest)
  = strip_json_fences (after_newline rest).
Proof.
  unfold json_fence. rewrite !append_cons, append_nil.
  cbn [strip_json_fences]. change (is_tick "`") with true.
  rewrite !Ascii.eqb_refl. cbn [andb].
  destruct rest as [|d rest']; [done|]. cbn [after_newline].
  by destruct (is_newline d).
Qed.

Lemma strip_fences_marker rest :
  strip_fences (fence +:+ rest) = strip_fences (after_newline rest).
Proof.
  unfold fence. rewrite !append_cons, append_nil.
  rewrite strip_fences_hit by done.
  destruct rest as [|d rest']; [done|]. cbn [after_newline].
  by destruct (is_newline d).
Qed.

(** Whether a marker starts at the head of [a :: pre ++ marker ++ rest]
    is decided within [a :: pre] and the marker less its last
    character. *)
Lemma starts_fence_before a pre rest :
  starts_with fence (String a (pre +:+ fence +:+ rest))
  = starts_with fence (String a (pre +:+ "``")).
Proof.
  rewrite !starts_fence. unfold fence.
  destruct pre as [|b [|c r]]; by rewrite ?append_cons, ?append_nil.
Qed.

Lemma starts_json_fence_before a pre rest :
  starts_with json_fence (String a (pre +:+ json_fence +:+ rest))
  = starts_with json_fence (String a (pre +:+ "```jso")).
Proof.
  unfold json_fence.
  destruct pre as [|b [|c [|d [|e [|f [|g r]]]]]];
    rewrite ?append_cons, ?append_nil, ?append_cons; try done.
  all: rewrite !starts_json_fence; done.
Qed.

(** The leftmost [```]: what is before it is kept, and the scan goes on
    after it and the newline that may follow. *)
Lemma strip_fences_step pre rest :
  has_fence (pre +:+ "``") = false →
  strip_fences (pre +:+ fence +:+ rest)
  = pre +:+ strip_fences (after_newline rest).
Proof.
  induction pre as [|a tl IH]; intros Hpre.
  { rewrite !append_nil. apply strip_fences_marker. }
  rewrite !append_cons in *. unfold has_fence in Hpre.
  rewrite includes_cons in Hpre. apply orb_false_iff in Hpre as [Hs Htl].
  rewrite strip_fences_miss by by rewrite starts_fence_before.
  by rewrite IH.
Qed.

Lemma strip_json_fences_step pre rest :
  includes json_fence (pre +:+ "```jso") = false →
  strip_json_fences (pre +:+ json_fence +:+ rest)
  = pre +:+ strip_json_fences (after_newline rest).
Proof.
  induction pre as [|a tl IH]; intros Hpre.
  { rewrite !append_nil. apply strip_json_fences_hit. }
  rewrite !append_cons in *.
  rewrite includes_cons in Hpre. apply orb_false_iff in Hpre as [Hs Htl].
  rewrite strip_json_fences_skip by by rewrite starts_json_fence_before.
  by rewrite IH.
Qed.

(** *** The Response Parser *)

(** C5: [safeParseJSON] never throws: for every text and fallback it
    returns the value [JSON.parse] reads from the cleaned text, or, when
    [JSON.parse] throws, the fallback as it was given. *)
Theorem safeParseJSON_total (JSON_parse : string → result value)
    jsonString fallback :
  ∃ v, safeParseJSON JSON_parse jsonString fallback = Ok v
       ∧ (JSON_parse (clean jsonString) = Ok v
          ∨ (is_ok (JSON_parse (clean jsonString)) = false ∧ v = fallback)).
Proof.
  unfold safeParseJSON.
  destruct (JSON_parse (clean jsonString)) as [v|e]; simpl.
  - exists v. auto.
  - exists fallback. auto.
Qed.

Example safeParseJSON_fenced fallback :
  safeParseJSON (reads "{}" (VObj [])) (fenced "json" "{}") fallback
  = Ok (VObj []).
Proof. reflexivity. Qed.

Example safeParseJSON_garbage fallback :
  safeParseJSON (reads "{}" (VObj [])) "Sorry, I cannot do that." fallback
  = Ok fallback.
Proof. reflexivity. Qed.

Example safeParseJSON_empty fallback :
  safeParseJSON (reads "{}" (VObj [])) "" fallback = Ok fallback.
Proof. reflexivity. Qed.

(** C8 as stated fails: a fence inside a JSON string literal is removed
    from the text that reaches [JSON.parse]. *)
Lemma clean_interior_fence_counterexample :
  let text := "[" +:+ quoted "a```b" +:+ "]" in
  has_fence text = true
  ∧ starts_with fence text = false
  ∧ clean text = "[" +:+ quoted "ab" +:+ "]"
  ∧ clean text ≠ trim text.
Proof. by split_and!. Qed.

(** C8, amended: the cleaning step removes every triple-backtick fence
    marker wherever it occurs, leading, trailing or interior, in two
    passes from left to right: first every [```json], then every [```]
    that is left, each together with one newline right after it when
    there is one; the text before, between and after the markers is kept
    as it is and in order, and the result is trimmed.  So the text handed
    to the strict parser never contains a triple backtick.  A text
    without a triple backtick is handed on trimmed and otherwise
    unchanged, and so is a document without one that is wrapped in a
    leading fence, tagged [json] or not, and a trailing fence; a text
    with a single marker, interior or trailing, is handed on without the
    marker and the newline after it, trimmed and otherwise unchanged. *)
Theorem clean_strips_every_fence text :
  clean text = trim (strip_fences (strip_json_fences text))
  ∧ has_fence (clean text) = false
  ∧ (has_fence text = false → clean text = trim text)
  ∧ (∀ doc, has_fence doc = false →
       text = fenced "json" doc ∨ text = fenced "" doc →
       clean text = trim doc)
  ∧ (includes json_fence text = false → strip_json_fences text = text)
  ∧ (∀ pre rest,
       text = pre +:+ json_fence +:+ rest →
       includes json_fence (pre +:+ "```jso") = false →
       strip_json_fences text
       = pre +:+ strip_json_fences (after_newline rest))
  ∧ (has_fence text = false → strip_fences text = text)
  ∧ (∀ pre rest,
       text = pre +:+ fence +:+ rest →
       has_fence (pre +:+ "``") = false →
       strip_fences text = pre +:+ strip_fences (after_newline rest))
  ∧ (∀ pre rest,
       text = pre +:+ fence +:+ rest →
       includes json_fence text = false →
       has_fence (pre +:+ "``") = false →
       has_fence (after_newline rest) = false →
       clean text = trim (pre +:+ after_newline rest))
  ∧ (∀ pre rest,
       text = pre +:+ json_fence +:+ rest →
       includes json_fence (pre +:+ "```jso") = false →
       has_fence (pre +:+ after_newline rest) = false →
       clean text = trim (pre +:+ after_newline rest)).
Proof.
  split_and!.
  - done.
  - apply clean_no_fence.
  - apply clean_id.
  - intros doc Hdoc [->| ->].
    + by apply clean_fenced_json.
    + by apply clean_fenced_plain.
  - apply strip_json_fences_same.
  - intros pre rest -> Hpre. by apply strip_json_fences_step.
  - apply strip_fences_id.
  - intros pre rest -> Hpre. by apply strip_fences_step.
  - intros pre rest -> Hjson Hpre Hrest. unfold clean.
    rewrite strip_json_fences_same by done.
    rewrite strip_fences_step by done. by rewrite strip_fences_id.
  - intros pre rest -> Hpre Hrest. unfold clean.
    rewrite strip_json_fences_step by done.
    assert (includes json_fence (after_newline rest) = false) as Hjson.
    { apply not_true_is_false. intros Hin.
      assert (has_fence (after_newline rest) = true) as Hf
        by by apply (includes_app_l fence "json").
      assert (has_fence (pre +:+ after_newline rest) = true); [|congruence].
      by apply includes_app_r. }
    rewrite strip_json_fences_same by done. by rewrite strip_fences_id.
Qed.

Lemma clean_strips_every_fence_witness :
  has_fence (clean (fenced "json" "{}")) = false
  ∧ clean "  {} " = "{}"
  ∧ clean (fenced "json" "{}") = "{}"
  ∧ clean (fenced "" "{}") = "{}"
  ∧ clean ("[" +:+ quoted "a```b" +:+ "]") = "[" +:+ quoted "ab" +:+ "]"
  ∧ clean ("{}" +:+ newline +:+ fence) = "{}"
  ∧ clean ("{}" +:+ json_fence +:+ newline +:+ " ") = "{}".
Proof.
  split_and!.
  - apply (clean_strips_every_fence (fenced "json" "{}")).
  - apply (clean_strips_every_fence "  {} "). reflexivity.
  - apply (clean_strips_every_fence (fenced "json" "{}")) with (doc := "{}");
      [reflexivity|by left].
  - apply (clean_strips_every_fence (fenced "" "{}")) with (doc := "{}");
      [reflexivity|by right].
  - destruct (clean_strips_every_fence ("[" +:+ quoted "a```b" +:+ "]"))
      as (_ & _ & _ & _ & _ & _ & _ & _ & Hone & _).
    apply (Hone ("[" +:+ String (ascii_of_nat 34) "a")
             ("b" +:+ String (ascii_of_nat 34) "]")); reflexivity.
  - destruct (clean_strips_every_fence ("{}" +:+ newline +:+ fence))
      as (_ & _ & _ & _ & _ & _ & _ & _ & Hone & _).
    apply (Hone ("{}" +:+ newline) ""); reflexivity.
  - destruct (clean_strips_every_fence
                ("{}" +:+ json_fence +:+ newline +:+ " "))
      as (_ & _ & _ & _ & _ & _ & _ & _ & _ & Hone).
    apply (Hone "{}" (newline +:+ " ")); reflexivity.
Defined.

End ParserProps.


(** ** The arithmetic of doubles

    The comparisons [idx < n * 0.2], [idx < n * 0.6] and [idx < n * 0.9]
    of [buildShots] are made on doubles.  The lemmas below follow the
    IEEE 754 specification of the primitive operations ([SpecFloat]): an
    integer below [2^53] converts exactly, a product is the exact product
    rounded to the nearest double, ties to even, and for arrays (fewer
    than [2^32] elements) each comparison comes out as the comparison of
    integers [5 * idx < n], [5 * idx < 3 * n] and [10 * idx < 9 * n]. *)
Module Doubles.
Import SpecFloat FloatOps FloatAxioms Sequence.
Local Open Scope Z_scope.

Lemma iter_pos_nat {A} (f : A → A) p x :
  iter_pos f p x = Nat.iter (Pos.to_nat p) f x.
Proof.
  revert x. induction p as [p IH|p IH|]; intros x; cbn [iter_pos].
  - rewrite !IH, Pos2Nat.inj_xI.
    replace (S (2 * Pos.to_nat p)) with (Pos.to_nat p + (Pos.to_nat p + 1))%nat
      by lia.
    rewrite !Nat.iter_add. done.
  - rewrite !IH, Pos2Nat.inj_xO.
    replace (2 * Pos.to_nat p)%nat with (Pos.to_nat p + Pos.to_nat p)%nat
      by lia.
    by rewrite Nat.iter_add.
  - done.
Qed.

Lemma shr_1_spec m r s :
  0 ≤ m →
  shr_1 {| shr_m := m; shr_r := r; shr_s := s |}
  = {| shr_m := m / 2; shr_r := Z.odd m; shr_s := r || s |}.
Proof.
  intros Hm. destruct m as [|[p|p|]|p]; try lia; simpl; try done.
  - f_equal. rewrite Pos2Z.inj_xI.
    apply (Z.div_unique_pos _ _ _ 1); lia.
  - f_equal. rewrite Pos2Z.inj_xO.
    apply (Z.div_unique_pos _ _ _ 0); lia.
Qed.

(** [k + 1] shifts of a nonnegative mantissa: the quotient, the half bit
    and the sticky bit. *)
Lemma shr_iter m (k : nat) :
  0 ≤ m →
  Nat.iter (S k) shr_1 {| shr_m := m; shr_r := false; shr_s := false |}
  = {| shr_m := m / 2 ^ (Z.of_nat k + 1);
       shr_r := Z.odd (m / 2 ^ Z.of_nat k);
       shr_s := negb (m mod 2 ^ Z.of_nat k =? 0) |}.
Proof.
  intros Hm. induction k as [|k IH].
  - unfold Nat.iter. cbn [nat_rect]. rewrite shr_1_spec by done.
    change (Z.of_nat 0) with 0. change (2 ^ (0 + 1)) with 2.
    change (2 ^ 0) with 1. f_equal.
    + by rewrite Z.div_1_r.
    + by rewrite Z.mod_1_r.
  - rewrite Nat.iter_succ, IH.
    assert (0 < 2 ^ Z.of_nat k) as Hp by (apply Z.pow_pos_nonneg; lia).
    rewrite shr_1_spec by (apply Z.div_pos; [done|apply Z.pow_pos_nonneg; lia]).
    replace (Z.of_nat (S k)) with (Z.of_nat k + 1) by lia.
    f_equal.
    + rewrite (Z.pow_add_r 2 (Z.of_nat k + 1) 1) by lia.
      change (2 ^ 1) with 2. rewrite Z.div_div by lia. done.
    + rewrite (Z.pow_add_r 2 (Z.of_nat k) 1) by lia.
      change (2 ^ 1) with 2. rewrite Z.rem_mul_r by lia.
      rewrite Zodd_mod.
      pose proof (Z.mod_pos_bound m (2 ^ Z.of_nat k) Hp).
      pose proof (Z.mod_pos_bound (m / 2 ^ Z.of_nat k) 2 ltac:(lia)).
      set (a := (m / 2 ^ Z.of_nat k) mod 2) in *.
      set (b := m mod 2 ^ Z.of_nat k) in *.
      destruct (Z.eqb_spec a 1), (Z.eqb_spec b 0),
        (Z.eqb_spec (b + 2 ^ Z.of_nat k * a) 0); simpl; try done; nia.
Qed.

Lemma digits2_size p : digits2_pos p = Pos.size p.
Proof. induction p as [p IH|p IH|]; simpl; by rewrite ?IH. Qed.

Lemma size_bounds p :
  2 ^ (Z.pos (Pos.size p) - 1) ≤ Z.pos p < 2 ^ Z.pos (Pos.size p).
Proof.
  pose proof (Pos.size_gt p) as Hgt. pose proof (Pos.size_le p) as Hle.
  apply Pos2Z.pos_lt_pos in Hgt. apply Pos2Z.pos_le_pos in Hle.
  rewrite Pos2Z.inj_pow in Hgt, Hle.
  change (Z.pos p~0) with (2 * Z.pos p) in Hle.
  split; [|done].
  replace (Z.pos (Pos.size p)) with (Z.pos (Pos.size p) - 1 + 1) in Hle by lia.
  rewrite Z.pow_add_r in Hle by lia. change (2 ^ 1) with 2 in Hle. lia.
Qed.

Lemma size_unique p j :
  2 ^ (j - 1) ≤ Z.pos p < 2 ^ j → Z.pos (Pos.size p) = j.
Proof.
  intros [Hlo Hhi]. pose proof (size_bounds p) as [Hlo' Hhi'].
  destruct (Z.lt_trichotomy (Z.pos (Pos.size p)) j) as [Hlt|[?|Hgt]];
    [|done|].
  - assert (2 ^ Z.pos (Pos.size p) ≤ 2 ^ (j - 1))
      by (apply Z.pow_le_mono_r; lia). lia.
  - destruct (Z.le_gt_cases 0 j) as [Hj|Hj].
    + assert (2 ^ j ≤ 2 ^ (Z.pos (Pos.size p) - 1))
        by (apply Z.pow_le_mono_r; lia). lia.
    + rewrite Z.pow_neg_r in Hhi by done. lia.
Qed.

Lemma binary_round_aux_spec M E :
  let k := Z.pos (Pos.size M) - 53 in
  0 < k → -1074 ≤ E + k → E + k + 1 ≤ 971 →
  binary_round_aux prec emax false (Z.pos M) E loc_Exact
  = let m' := rounded (Z.pos M) k in
    if m' =? 2 ^ 53 then S754_finite false (Z.to_pos (2 ^ 52)) (E + k + 1)
    else S754_finite false (Z.to_pos m') (E + k).
Proof.
  intros k Hk Hlo Hhi. pose proof (size_bounds M) as [HMlo HMhi].
  unfold binary_round_aux, shr_fexp.
  change (Zdigits2 (Z.pos M)) with (Z.pos (digits2_pos M)).
  rewrite digits2_size.
  assert (∀ d e, -1074 ≤ d + e - 53 →
            fexp prec emax (d + e) - e = d - 53) as Hfexp.
  { intros d e Hd. unfold fexp, emin, prec, emax. lia. }
  rewrite Hfexp by lia. fold k.
  destruct k as [|kp|] eqn:Hkp; try lia. cbn [shr shr_record_of_loc].
  rewrite iter_pos_nat.
  destruct (Pos.to_nat kp) as [|k'] eqn:Hk'; [lia|].
  rewrite shr_iter by lia.
  assert (Z.pos kp = Z.of_nat k' + 1) as Hkk by lia. rewrite Hkk in *.
  set (P := 2 ^ Z.of_nat k').
  assert (0 < P) as HP by (apply Z.pow_pos_nonneg; lia).
  assert (2 ^ (Z.of_nat k' + 1) = 2 * P) as H2P.
  { rewrite Z.pow_add_r by lia. change (2 ^ 1) with 2. lia. }
  set (q := Z.pos M / 2 ^ (Z.of_nat k' + 1)).
  set (m' := rounded (Z.pos M) (Z.of_nat k' + 1)).
  assert (round_nearest_even q
            (loc_of_shr_record
               {| shr_m := q; shr_r := Z.odd (Z.pos M / P);
                  shr_s := negb (Z.pos M mod P =? 0) |}) = m') as Hround.
  { unfold m', rounded. fold q. rewrite H2P.
    replace (Z.pos M mod (2 * P))
      with (Z.pos M mod P + P * ((Z.pos M / P) mod 2))
      by (by rewrite (Z.mul_comm 2 P), Z.rem_mul_r by lia).
    rewrite Zodd_mod.
    pose proof (Z.mod_pos_bound (Z.pos M) P HP).
    pose proof (Z.mod_pos_bound (Z.pos M / P) 2 ltac:(lia)).
    set (a := (Z.pos M / P) mod 2) in *. set (b := Z.pos M mod P) in *.
    clearbody a b. assert (a = 0 ∨ a = 1) as [-> | ->] by lia;
      rewrite ?Z.mul_0_r, ?Z.mul_1_r, ?Z.add_0_r.
    - change (0 =? 1) with false.
      destruct (Z.ltb_spec (2 * b) (2 * P)); [|lia].
      by destruct (b =? 0).
    - change (1 =? 1) with true.
      destruct (Z.ltb_spec (2 * (b + P)) (2 * P)); [lia|].
      destruct (Z.eqb_spec b 0) as [->|Hb]; simpl.
      + destruct (Z.ltb_spec (2 * P) (2 * (0 + P))); [lia|done].
      + destruct (Z.ltb_spec (2 * P) (2 * (b + P))); [done|lia]. }
  cbn [shr_m]. rewrite Hround.
  assert (2 ^ 52 ≤ q < 2 ^ 53) as Hq.
  { unfold q. rewrite H2P.
    assert (Z.pos (Pos.size M) = 53 + (Z.of_nat k' + 1)) as HD by lia.
    rewrite HD in HMlo, HMhi.
    replace (53 + (Z.of_nat k' + 1) - 1) with (52 + (Z.of_nat k' + 1))
      in HMlo by lia.
    rewrite Z.pow_add_r, H2P in HMlo, HMhi by lia.
    split.
    - apply Z.div_le_lower_bound; lia.
    - apply Z.div_lt_upper_bound; lia. }
  assert (m' = q ∨ m' = q + 1) as Hm'.
  { unfold m', rounded. fold q.
    destruct (_ <? _); [by left|]. destruct (_ <? _); [by right|].
    destruct (Z.even q); [by left|by right]. }
  destruct (Z.eqb_spec m' (2 ^ 53)) as [Heq|Hne].
  - rewrite Heq. vm_compute Zdigits2.
    rewrite (Hfexp 54) by lia. cbn [shr].
    replace (54 - 53) with 1 by done. cbn. 
    destruct (Z.leb_spec (E + (Z.of_nat k' + 1) + 1) 971); [|lia].
    unfold prec, emax. 
    destruct (Z.leb_spec (E + (Z.of_nat k' + 1) + 1) (1024 - 53)); [done|lia].
  - assert (2 ^ 52 ≤ m' < 2 ^ 53) as Hm'' by lia.
    destruct m' as [|mp|] eqn:Hmp; try lia.
    change (Zdigits2 (Z.pos mp)) with (Z.pos (digits2_pos mp)).
    rewrite digits2_size, (size_unique mp 53) by (split; [apply Hm''|apply Hm'']).
    rewrite (Hfexp 53) by lia. change (53 - 53) with 0.
    cbn [shr shr_record_of_loc shr_m]. unfold prec, emax.
    destruct (Z.leb_spec (E + (Z.of_nat k' + 1)) (1024 - 53)); [|lia].
    by rewrite Pos2Z.id.
Qed.

Lemma rounded_cases M k :
  0 ≤ k →
  let q := M / 2 ^ k in
  let rem := M mod 2 ^ k in
  (rounded M k = q ∧ 2 * rem ≤ 2 ^ k)
  ∨ (rounded M k = q + 1 ∧ 2 ^ k ≤ 2 * rem).
Proof.
  intros Hk q rem. unfold rounded. fold q rem.
  destruct (Z.ltb_spec (2 * rem) (2 ^ k)); [left; lia|].
  destruct (Z.ltb_spec (2 ^ k) (2 * rem)); [right; lia|].
  destruct (Z.even q); [left|right]; lia.
Qed.

Lemma SFltb_finite m1 e1 m2 e2 :
  SFltb (S754_finite false m1 e1) (S754_finite false m2 e2)
  = if e1 <? e2 then true
    else if e2 <? e1 then false else Z.pos m1 <? Z.pos m2.
Proof.
  unfold SFltb, SFcompare.
  destruct (Z.compare_spec e1 e2) as [->| |].
  - rewrite Z.ltb_irrefl. change (Pos.compare_cont Eq m1 m2) with (m1 ?= m2)%positive.
    rewrite Pos2Z.inj_compare.
    destruct (Z.compare_spec (Z.pos m1) (Z.pos m2)), (Z.ltb_spec (Z.pos m1) (Z.pos m2));
      try done; lia.
  - destruct (Z.ltb_spec e1 e2); [done|lia].
  - destruct (Z.ltb_spec e1 e2); [lia|].
    destruct (Z.ltb_spec e2 e1); [done|lia].
Qed.

(** Comparing a normal double [my * 2^ey] with the rounding of
    [M * 2^E]: the rounding is above it exactly when [M * 2^E] is above
    the midpoint to the next double. *)
Lemma ltb_rounded my ey M E :
  let k := Z.pos (Pos.size M) - 53 in
  0 < k → -1074 ≤ E + k → E + k + 1 ≤ 971 →
  2 ^ 52 ≤ Z.pos my < 2 ^ 53 →
  E < ey →
  Z.pos M ≠ (2 * Z.pos my + 1) * 2 ^ (ey - 1 - E) →
  SFltb (S754_finite false my ey)
    (binary_round_aux prec emax false (Z.pos M) E loc_Exact)
  = ((2 * Z.pos my + 1) * 2 ^ (ey - 1 - E) <? Z.pos M).
Proof.
  intros k Hk Hlo Hhi Hmy HE Hne.
  rewrite binary_round_aux_spec by done. fold k. cbv zeta.
  pose proof (size_bounds M) as [HMlo HMhi].
  replace (Z.pos (Pos.size M) - 1) with (52 + k) in HMlo by lia.
  replace (Z.pos (Pos.size M)) with (53 + k) in HMhi by lia.
  rewrite Z.pow_add_r in HMlo, HMhi by lia.
  pose proof (rounded_cases (Z.pos M) k ltac:(lia)) as Hr. cbv zeta in Hr.
  set (K := 2 ^ k) in *.
  assert (0 < K) as HK by (apply Z.pow_pos_nonneg; lia).
  pose proof (Z.div_mod (Z.pos M) K ltac:(lia)) as HM.
  pose proof (Z.mod_pos_bound (Z.pos M) K HK) as Hrem.
  set (q := Z.pos M / K) in *. set (rem := Z.pos M mod K) in *.
  set (m' := rounded (Z.pos M) k) in *.
  set (j := ey - 1 - E) in *.
  assert (0 ≤ j) as Hj by lia.
  assert (0 < 2 ^ j) as HJ by (apply Z.pow_pos_nonneg; lia).
  assert (2 ^ 52 ≤ q < 2 ^ 53) as Hq by nia.
  assert (j < k - 1 → 4 * 2 ^ j ≤ K) as Hbelow.
  { intros Hjk. change 4 with (2 ^ 2). rewrite <-Z.pow_add_r by lia.
    apply Z.pow_le_mono_r; lia. }
  assert (j = k - 1 → K = 2 * 2 ^ j) as Hsame.
  { intros ->. unfold K. replace k with (1 + (k - 1)) at 1 by lia.
    rewrite Z.pow_add_r by lia. done. }
  assert (k ≤ j → K ≤ 2 ^ j) as Habove.
  { intros Hjk. apply Z.pow_le_mono_r; lia. }
  set (J := 2 ^ j) in *. clearbody J K q rem m'.
  destruct (Z.eqb_spec m' (2 ^ 53)) as [Hcarry|Hcarry].
  - rewrite SFltb_finite.
    change (Z.pos (Z.to_pos (2 ^ 52))) with (2 ^ 52).
    destruct (Z.ltb_spec ey (E + k + 1)); [|destruct (Z.ltb_spec (E + k + 1) ey)];
      symmetry.
    + apply Z.ltb_lt.
      assert (j < k - 1 ∨ j = k - 1) as [Hjk|Hjk] by lia.
      * specialize (Hbelow Hjk). nia.
      * specialize (Hsame Hjk). nia.
    + apply Z.ltb_ge. assert (k ≤ j) as Hjk by lia.
      specialize (Habove Hjk). nia.
    + assert (k ≤ j) as Hjk by lia. specialize (Habove Hjk).
      destruct (Z.ltb_spec (Z.pos my) (2 ^ 52)); [lia|].
      apply Z.ltb_ge. nia.
  - assert (2 ^ 52 ≤ m' < 2 ^ 53) as Hm' by lia.
    rewrite SFltb_finite. rewrite Z2Pos.id by lia.
    destruct (Z.ltb_spec ey (E + k)); [|destruct (Z.ltb_spec (E + k) ey)];
      symmetry.
    + apply Z.ltb_lt. assert (j < k - 1) as Hjk by lia.
      specialize (Hbelow Hjk). nia.
    + apply Z.ltb_ge. assert (k ≤ j) as Hjk by lia.
      specialize (Habove Hjk). nia.
    + assert (j = k - 1) as Hjk by lia. specialize (Hsame Hjk).
      destruct (Z.ltb_spec (Z.pos my) m').
      * apply Z.ltb_lt. destruct Hr as [[-> ?]|[-> ?]]; nia.
      * apply Z.ltb_ge. destruct Hr as [[-> ?]|[-> ?]]; nia.
Qed.

Lemma iter_xO p n : Z.pos (Pos.iter xO p n) = Z.pos p * 2 ^ Z.pos n.
Proof.
  induction n as [|n IH] using Pos.peano_ind.
  - simpl. lia.
  - rewrite Pos.iter_succ, Pos2Z.inj_xO, IH, Pos2Z.inj_succ, Z.pow_succ_r by lia.
    lia.
Qed.

Lemma binary_round_aux_exact M E :
  Z.pos (Pos.size M) = 53 → -1074 ≤ E ≤ 971 →
  binary_round_aux prec emax false (Z.pos M) E loc_Exact
  = S754_finite false M E.
Proof.
  intros HM HE. unfold binary_round_aux, shr_fexp.
  change (Zdigits2 (Z.pos M)) with (Z.pos (digits2_pos M)).
  rewrite digits2_size, HM.
  assert (fexp prec emax (53 + E) - E = 0) as ->
    by (unfold fexp, emin, prec, emax; lia).
  cbn [shr shr_record_of_loc shr_m loc_of_shr_record round_nearest_even].
  change (Zdigits2 (Z.pos M)) with (Z.pos (digits2_pos M)).
  rewrite digits2_size, HM.
  assert (fexp prec emax (53 + E) - E = 0) as ->
    by (unfold fexp, emin, prec, emax; lia).
  cbn [shr shr_record_of_loc shr_m]. unfold prec, emax.
  destruct (Z.leb_spec E (1024 - 53)); [done|lia].
Qed.

(** The double of a positive integer below [2^53]: exact, with the
    mantissa shifted to 53 bits. *)
Lemma number_of_nat_finite (n : nat) :
  (0 < n)%nat → Z.of_nat n < 2 ^ 53 →
  ∃ m,
    let d := Z.log2 (Z.of_nat n) + 1 in
    Prim2SF (number_of_nat n) = S754_finite false m (d - 53)
    ∧ Z.pos m = Z.of_nat n * 2 ^ (53 - d)
    ∧ 2 ^ 52 ≤ Z.pos m < 2 ^ 53
    ∧ 2 ^ (d - 1) ≤ Z.of_nat n < 2 ^ d
    ∧ 1 ≤ d ≤ 53.
Proof.
  intros Hpos Hn. unfold number_of_nat. rewrite of_uint63_spec.
  rewrite Uint63.of_Z_spec, Z.mod_small
    by (split; [lia|]; eapply Z.lt_trans; [exact Hn|done]).
  destruct (Z.of_nat n) as [|p|] eqn:Hp; try lia.
  pose proof (size_bounds p) as [Hlo Hhi].
  assert (Z.log2 (Z.pos p) + 1 = Z.pos (Pos.size p)) as Hd.
  { apply Z.le_antisymm.
    - assert (Z.log2 (Z.pos p) < Z.pos (Pos.size p)); [|lia].
      apply Z.log2_lt_pow2; lia.
    - assert (Z.pos (Pos.size p) - 1 ≤ Z.log2 (Z.pos p)); [|lia].
      apply Z.log2_le_pow2; lia. }
  rewrite Hd. set (d := Z.pos (Pos.size p)) in *.
  assert (d ≤ 53) as Hd53.
  { destruct (Z.le_gt_cases d 53) as [|Hgt]; [done|].
    assert (2 ^ 53 ≤ 2 ^ (d - 1)) by (apply Z.pow_le_mono_r; lia). lia. }
  cbn [binary_normalize]. unfold binary_round.
  rewrite digits2_size. fold d.
  assert (fexp prec emax (d + 0) = d - 53) as ->
    by (unfold fexp, emin, prec, emax; lia).
  assert (2 ^ (d - 1) * 2 ^ (53 - d) = 2 ^ 52) as Hlow.
  { rewrite <-Z.pow_add_r by lia. f_equal. lia. }
  assert (2 ^ d * 2 ^ (53 - d) = 2 ^ 53) as Hhigh.
  { rewrite <-Z.pow_add_r by lia. f_equal. lia. }
  assert (0 < 2 ^ (53 - d)) as Hs by (apply Z.pow_pos_nonneg; lia).
  unfold shl_align. rewrite Z.sub_0_r.
  destruct (d - 53) as [|s|s] eqn:Hshift; try lia.
  - assert (d = 53) as Hd' by lia. rewrite Hd' in *.
    change (2 ^ (53 - 53)) with 1 in *.
    rewrite binary_round_aux_exact by (done || lia).
    exists p. split_and!; try done; try lia.
  - assert (53 - d = Z.pos s) as Hs' by lia. rewrite Hs' in *.
    pose proof (iter_xO p s) as Hm.
    rewrite binary_round_aux_exact.
    + eexists. split_and!; try done; try lia; nia.
    + apply size_unique. rewrite Hm. change (53 - 1) with 52. nia.
    + lia.
Qed.

Lemma pow2_lt_inv a b : 0 ≤ b → 2 ^ a < 2 ^ b → a < b.
Proof.
  intros Hb Hlt. destruct (Z.lt_ge_cases a b) as [|Hge]; [done|].
  assert (2 ^ b ≤ 2 ^ a) by (apply Z.pow_le_mono_r; lia). lia.
Qed.

(** [idx < n * c] in double precision, for a constant [c] with exponent
    [ec], as a comparison of integers. *)
Lemma ltb_product (c : float) mc ec (idx n : nat) :
  Prim2SF c = S754_finite false mc ec →
  2 ^ 52 ≤ Z.pos mc < 2 ^ 53 →
  -55 ≤ ec ≤ -53 →
  (0 < idx)%nat → (0 < n)%nat →
  Z.of_nat idx < 2 ^ 32 → Z.of_nat n < 2 ^ 32 →
  let d := Z.log2 (Z.of_nat idx) + 1 in
  let T := 2 ^ (d - 54 - ec) in
  Z.of_nat n * Z.pos mc ≠ Z.of_nat idx * 2 ^ (- ec) + T →
  (number_of_nat idx <? number_of_nat n * c)%float
  = (Z.of_nat idx * 2 ^ (- ec) + T <? Z.of_nat n * Z.pos mc).
Proof.
  intros Hc Hmc Hec Hidx Hn Hidx32 Hn32 d T Hne.
  rewrite ltb_spec, mul_spec.
  destruct (number_of_nat_finite idx) as (my & -> & Hmy & Hmyb & Hdb & Hd);
    [done|lia|].
  destruct (number_of_nat_finite n) as (mn & -> & Hmn & Hmnb & Hdnb & Hdn);
    [done|lia|].
  fold d in Hmy, Hdb, Hd |- *.
  set (dn := Z.log2 (Z.of_nat n) + 1) in *.
  assert (dn ≤ 32) as Hdn32.
  { assert (dn - 1 < 32); [|lia]. apply pow2_lt_inv; lia. }
  assert (d ≤ 32) as Hd32.
  { assert (d - 1 < 32); [|lia]. apply pow2_lt_inv; lia. }
  unfold SF64mul, SFmul. rewrite Hc. cbn [xorb].
  set (M := (mn * mc)%positive).
  assert (Z.pos M = Z.pos mn * Z.pos mc) as HM by done.
  pose proof (size_bounds M) as [HMlo HMhi].
  assert (104 < Z.pos (Pos.size M)) as Hsize.
  { apply pow2_lt_inv; [lia|].
    change (2 ^ 104) with (2 ^ 52 * 2 ^ 52). nia. }
  assert (Z.pos (Pos.size M) - 1 < 106) as Hsize'.
  { apply pow2_lt_inv; [lia|].
    change (2 ^ 106) with (2 ^ 53 * 2 ^ 53). nia. }
  set (B := 2 ^ (53 - dn)) in *.
  set (A := 2 ^ (53 - d)) in *.
  set (C := 2 ^ (- ec)) in *.
  assert (0 < B) as HB by (apply Z.pow_pos_nonneg; lia).
  set (j := d - 53 - 1 - (dn - 53 + ec)).
  assert (2 ^ j = T * B) as HJ.
  { unfold T, B. rewrite <-Z.pow_add_r by lia. f_equal. lia. }
  assert (2 * A * 2 ^ j = B * C) as HAJ.
  { unfold A, B, C, j. change 2 with (2 ^ 1) at 1.
    rewrite <-!Z.pow_add_r by lia. f_equal. lia. }
  assert ((2 * Z.pos my + 1) * 2 ^ j = (Z.of_nat idx * C + T) * B) as Hmid.
  { rewrite Hmy. nia. }
  assert (Z.pos M = Z.of_nat n * Z.pos mc * B) as HMB.
  { rewrite HM, Hmn. lia. }
  rewrite ltb_rounded; fold j.
  - rewrite Hmid, HMB.
    destruct (Z.ltb_spec (Z.of_nat idx * C + T) (Z.of_nat n * Z.pos mc)),
      (Z.ltb_spec ((Z.of_nat idx * C + T) * B)
         (Z.of_nat n * Z.pos mc * B)); try done; nia.
  - lia.
  - lia.
  - lia.
  - done.
  - lia.
  - rewrite Hmid, HMB. nia.
Qed.

(** The product of a positive integer and a positive constant is a
    positive double. *)
Lemma product_finite (c : float) mc ec (n : nat) :
  Prim2SF c = S754_finite false mc ec →
  2 ^ 52 ≤ Z.pos mc < 2 ^ 53 →
  -55 ≤ ec ≤ -53 →
  (0 < n)%nat → Z.of_nat n < 2 ^ 32 →
  ∃ m e, Prim2SF (number_of_nat n * c) = S754_finite false m e.
Proof.
  intros Hc Hmc Hec Hn Hn32. rewrite mul_spec.
  destruct (number_of_nat_finite n) as (mn & -> & Hmn & Hmnb & Hdnb & Hdn);
    [done|lia|].
  unfold SF64mul, SFmul. rewrite Hc. cbn [xorb].
  set (M := (mn * mc)%positive).
  assert (Z.pos M = Z.pos mn * Z.pos mc) as HM by done.
  pose proof (size_bounds M) as [HMlo HMhi].
  assert (104 < Z.pos (Pos.size M)) as Hsize.
  { apply pow2_lt_inv; [lia|].
    change (2 ^ 104) with (2 ^ 52 * 2 ^ 52). nia. }
  assert (Z.pos (Pos.size M) - 1 < 106) as Hsize'.
  { apply pow2_lt_inv; [lia|].
    change (2 ^ 106) with (2 ^ 53 * 2 ^ 53). nia. }
  rewrite binary_round_aux_spec by lia. cbv zeta.
  destruct (_ =? _); by eexists _, _.
Qed.

#[warnings="-inexact-float"] Lemma fifth_double :
  Prim2SF 0.2 = S754_finite false 7205759403792794 (-55).
Proof. vm_compute. reflexivity. Qed.

#[warnings="-inexact-float"] Lemma three_fifths_double :
  Prim2SF 0.6 = S754_finite false 5404319552844595 (-53).
Proof. vm_compute. reflexivity. Qed.

#[warnings="-inexact-float"] Lemma nine_tenths_double :
  Prim2SF 0.9 = S754_finite false 8106479329266893 (-53).
Proof. vm_compute. reflexivity. Qed.

Lemma zero_ltb_product (c : float) mc ec (n : nat) :
  Prim2SF c = S754_finite false mc ec →
  2 ^ 52 ≤ Z.pos mc < 2 ^ 53 →
  -55 ≤ ec ≤ -53 →
  (0 < n)%nat → Z.of_nat n < 2 ^ 32 →
  (number_of_nat 0 <? number_of_nat n * c)%float = true.
Proof.
  intros Hc Hmc Hec Hn Hn32. rewrite ltb_spec.
  destruct (product_finite c mc ec n) as (m & e & ->); try done.
Qed.

Lemma log2_bounds (idx : nat) :
  (0 < idx)%nat →
  let d := Z.log2 (Z.of_nat idx) + 1 in
  1 ≤ d ∧ 2 ^ (d - 1) ≤ Z.of_nat idx < 2 * 2 ^ (d - 1).
Proof.
  intros Hidx d. pose proof (Z.log2_spec (Z.of_nat idx) ltac:(lia)) as H.
  pose proof (Z.log2_nonneg (Z.of_nat idx)).
  unfold d. replace (Z.log2 (Z.of_nat idx) + 1 - 1)
    with (Z.log2 (Z.of_nat idx)) by lia.
  rewrite Z.pow_succ_r in H by done. lia.
Qed.

#[warnings="-inexact-float"] Lemma below_fifth (idx n : nat) :
  (idx < n)%nat → Z.of_nat n < 2 ^ 32 →
  (number_of_nat idx <? number_of_nat n * 0.2)%float
  = bool_decide (5 * idx < n)%nat.
Proof.
  intros Hidx Hn. destruct idx as [|i].
  - rewrite (zero_ltb_product _ _ _ n fifth_double) by (done || lia).
    symmetry. apply bool_decide_eq_true. lia.
  - pose proof (log2_bounds (S i) ltac:(lia)) as [Hd HL]. cbv zeta in HL, Hd.
    set (d := Z.log2 (Z.of_nat (S i)) + 1) in *.
    assert (2 ^ (d - 54 - -55) = 4 * 2 ^ (d - 1)) as HT.
    { change 4 with (2 ^ 2). rewrite <-Z.pow_add_r by lia. f_equal. lia. }
    rewrite (ltb_product _ _ _ (S i) n fifth_double); try done; try lia;
      fold d; rewrite HT; change (2 ^ (- (-55))) with 36028797018963968;
      set (L := 2 ^ (d - 1)) in *; clearbody L.
    + destruct (Z.ltb_spec (Z.of_nat (S i) * 36028797018963968 + 4 * L)
                  (Z.of_nat n * 7205759403792794)); symmetry;
        [apply bool_decide_eq_true|apply bool_decide_eq_false]; lia.
    + lia.
Qed.

#[warnings="-inexact-float"] Lemma below_three_fifths (idx n : nat) :
  (idx < n)%nat → Z.of_nat n < 2 ^ 32 →
  (number_of_nat idx <? number_of_nat n * 0.6)%float
  = bool_decide (5 * idx < 3 * n)%nat.
Proof.
  intros Hidx Hn. destruct idx as [|i].
  - rewrite (zero_ltb_product _ _ _ n three_fifths_double) by (done || lia).
    symmetry. apply bool_decide_eq_true. lia.
  - pose proof (log2_bounds (S i) ltac:(lia)) as [Hd HL]. cbv zeta in HL, Hd.
    set (d := Z.log2 (Z.of_nat (S i)) + 1) in *.
    assert (d - 54 - -53 = d - 1) as HT by lia.
    rewrite (ltb_product _ _ _ (S i) n three_fifths_double); try done;
      try lia; fold d; rewrite HT;
      change (2 ^ (- (-53))) with 9007199254740992;
      set (L := 2 ^ (d - 1)) in *; clearbody L.
    + destruct (Z.ltb_spec (Z.of_nat (S i) * 9007199254740992 + L)
                  (Z.of_nat n * 5404319552844595)); symmetry;
        [apply bool_decide_eq_true|apply bool_decide_eq_false]; lia.
    + lia.
Qed.

#[warnings="-inexact-float"] Lemma below_nine_tenths (idx n : nat) :
  (idx < n)%nat → Z.of_nat n < 2 ^ 32 →
  (number_of_nat idx <? number_of_nat n * 0.9)%float
  = bool_decide (10 * idx < 9 * n)%nat.
Proof.
  intros Hidx Hn. destruct idx as [|i].
  - rewrite (zero_ltb_product _ _ _ n nine_tenths_double) by (done || lia).
    symmetry. apply bool_decide_eq_true. lia.
  - pose proof (log2_bounds (S i) ltac:(lia)) as [Hd HL]. cbv zeta in HL, Hd.
    set (d := Z.log2 (Z.of_nat (S i)) + 1) in *.
    assert (d - 54 - -53 = d - 1) as HT by lia.
    rewrite (ltb_product _ _ _ (S i) n nine_tenths_double); try done;
      try lia; fold d; rewrite HT;
      change (2 ^ (- (-53))) with 9007199254740992;
      set (L := 2 ^ (d - 1)) in *; clearbody L.
    + destruct (Z.ltb_spec (Z.of_nat (S i) * 9007199254740992 + L)
                  (Z.of_nat n * 8106479329266893)); symmetry;
        [apply bool_decide_eq_true|apply bool_decide_eq_false]; lia.
    + lia.
Qed.

(** The role of a position: the double comparisons of the source pick
    the role of the exact quantiles, for every length an array can have. *)
Lemma position_role_exact (idx n : nat) :
  Z.of_nat n < 2 ^ 32 → (idx < n)%nat →
  position_role idx n = quantile_role idx n.
Proof.
  intros Hn Hidx. unfold position_role, quantile_role.
  rewrite below_fifth, below_three_fifths, below_nine_tenths by done.
  repeat case_bool_decide; repeat case_decide; done || lia.
Qed.

End Doubles.

(** ** The sequence endpoint *)

Module SequenceProps.
Import Sequence.

Section MapFrom.
Context {A B : Type}.
Implicit Types (f : nat → A → result B) (l : list A).

Lemma map_from_length f i l ys :
  map_from f i l = Ok ys → length ys = length l.
Proof.
  revert i ys. induction l as [|x l IH]; intros i ys; simpl.
  - by intros [= <-].
  - intros (y & _ & (ys' & Hys & [= <-])%bind_ok)%bind_ok.
    simpl. f_equal. by eapply IH.
Qed.

Lemma map_from_lookup f i l ys k x :
  map_from f i l = Ok ys → l !! k = Some x →
  ∃ y, ys !! k = Some y ∧ f (i + k)%nat x = Ok y.
Proof.
  revert i ys k. induction l as [|x' l IH]; intros i ys k; simpl; [done|].
  intros (y & Hy & (ys' & Hys & [= <-])%bind_ok)%bind_ok Hk.
  destruct k as [|k]; simpl in *.
  - injection Hk as ->. exists y. by rewrite Nat.add_0_r.
  - destruct (IH _ _ _ Hys Hk) as (y' & ? & ?). exists y'.
    by rewrite Nat.add_succ_r.
Qed.

Lemma map_from_pure f (g : nat → A → B) i l :
  (∀ k x, l !! k = Some x → f (i + k)%nat x = Ok (g (i + k)%nat x)) →
  map_from f i l = Ok (imap (λ k, g (i + k)%nat) l).
Proof.
  revert i. induction l as [|x l IH]; intros i Hf; simpl; [done|].
  rewrite <-(Nat.add_0_r i) at 1. rewrite (Hf 0%nat x eq_refl). simpl.
  rewrite (IH (S i)).
  - simpl. do 2 f_equal.
    apply imap_ext. intros k y _. simpl. by rewrite Nat.add_succ_r.
  - intros k y Hk. replace (S i + k)%nat with (i + S k)%nat by lia.
    by apply (Hf (S k)).
Qed.

Lemma map_from_throw f i l k x :
  l !! k = Some x → is_ok (f (i + k)%nat x) = false →
  is_ok (map_from f i l) = false.
Proof.
  revert i k. induction l as [|x' l IH]; intros i k; simpl; [done|].
  destruct k as [|k]; simpl.
  - intros [= ->]. rewrite Nat.add_0_r. by destruct (f i x).
  - intros Hk Hf. destruct (f i x'); [|done]. simpl.
    rewrite Nat.add_succ_r in Hf.
    specialize (IH (S i) k Hk Hf). by destruct (map_from f (S i) l).
Qed.

Lemma map_from_throws f (P : js_error → Prop) :
  (∀ i x e, f i x = Throw e → P e) →
  ∀ i l e, map_from f i l = Throw e → P e.
Proof.
  intros Hf i l. revert i. induction l as [|x l IH]; intros i e; simpl; [done|].
  destruct (f i x) as [y|e'] eqn:Hy; simpl.
  - destruct (map_from f (S i) l) as [ys|e''] eqn:Hys; simpl; [done|].
    intros [= <-]. by eapply IH.
  - intros [= <-]. by eapply Hf.
Qed.

(** A callback that does not look at the index. *)
Lemma map_from_fmap (f : A → result B) (g : A → B) i l :
  Forall (λ x, f x = Ok (g x)) l →
  map_from (λ _, f) i l = Ok (g <$> l).
Proof.
  intros Hf. revert i. induction Hf as [|x l Hx _ IH]; intros i; [done|].
  simpl. rewrite Hx. simpl. by rewrite IH.
Qed.

Lemma map_from_Forall2 (f : A → result B) i l ys :
  map_from (λ _, f) i l = Ok ys → Forall2 (λ x y, f x = Ok y) l ys.
Proof.
  revert i ys. induction l as [|x l IH]; intros i ys; simpl.
  - intros [= <-]. constructor.
  - intros (y & Hy & (ys' & Hys & [= <-])%bind_ok)%bind_ok.
    constructor; [done|]. by eapply IH.
Qed.
End MapFrom.

Section Every.
Context {A : Type}.
Implicit Types (f : A → result bool) (l : list A).

Lemma every_true f l :
  every f l = Ok true ↔ Forall (λ x, f x = Ok true) l.
Proof.
  induction l as [|x l IH]; simpl.
  - split; [constructor|done].
  - rewrite Forall_cons, <-IH.
    destruct (f x) as [[]|]; split; try done; by intros [? ?].
Qed.

(** [every] answers false at the first element that fails, when the
    callback returns for the elements before it. *)
Lemma every_false f pre x post :
  Forall (λ y, f y = Ok true) pre → f x = Ok false →
  every f (pre ++ x :: post) = Ok false.
Proof.
  intros Hpre Hx. induction Hpre as [|y pre Hy _ IH]; simpl.
  - by rewrite Hx.
  - by rewrite Hy.
Qed.

(** ... and throws at the first element at which the callback does. *)
Lemma every_throw f pre x post e :
  Forall (λ y, f y = Ok true) pre → f x = Throw e →
  every f (pre ++ x :: post) = Throw e.
Proof.
  intros Hpre Hx. induction Hpre as [|y pre Hy _ IH]; simpl.
  - by rewrite Hx.
  - by rewrite Hy.
Qed.

Lemma every_inv f l b :
  every f l = Ok b →
  if b then Forall (λ x, f x = Ok true) l
  else ∃ pre x post, l = pre ++ x :: post
         ∧ Forall (λ y, f y = Ok true) pre ∧ f x = Ok false.
Proof.
  induction l as [|x l IH]; simpl.
  - intros [= <-]. constructor.
  - destruct (f x) as [[]|] eqn:Hx; [|intros [= <-]|done].
    + intros H. specialize (IH H). destruct b.
      * by constructor.
      * destruct IH as (pre & y & post & -> & Hpre & Hy).
        exists (x :: pre), y, post. split_and!; [done| |done].
        by constructor.
    + by exists [], x, l.
Qed.
Lemma every_returns f l :
  Forall (λ x, is_ok (f x) = true) l → is_ok (every f l) = true.
Proof.
  induction 1 as [|x l Hx _ IH]; [done|]. simpl.
  by destruct (f x) as [[]|].
Qed.
End Every.

(** *** Item ids *)

Lemma item_key_string img idx s :
  img_id img = VStr s → item_key img idx = Ok s.
Proof. unfold item_key. by intros ->. Qed.

Lemma item_key_throws img idx e :
  item_key img idx = Throw e → err_name e = "TypeError".
Proof. apply toString_throws. Qed.

Lemma deterministicFallback_all images :
  deterministicFallback images (length images) = image_ids images.
Proof. unfold deterministicFallback, image_ids. by rewrite firstn_all. Qed.

Lemma image_ids_length images ids :
  image_ids images = Ok ids → length ids = length images.
Proof. apply map_from_length. Qed.

Lemma image_ids_lookup images ids idx img :
  image_ids images = Ok ids → images !! idx = Some img →
  ∃ id, ids !! idx = Some id ∧ item_key img idx = Ok id.
Proof. intros Hids Himg. apply (map_from_lookup _ _ _ _ _ _ Hids Himg). Qed.

Lemma id_texts_length images : length (id_texts images) = length images.
Proof. apply length_fmap. Qed.

Lemma id_texts_ids images :
  Forall normalized images →
  Forall2 (λ img id, img_id img = VStr id) images (id_texts images).
Proof.
  intros Hn. unfold id_texts.
  induction Hn as [|img l [s Hs] _ IH]; simpl; constructor;
    [by rewrite Hs|exact IH].
Qed.

Lemma image_ids_normalized images :
  Forall normalized images → image_ids images = Ok (id_texts images).
Proof.
  intros Hn. unfold image_ids, id_texts.
  rewrite (map_from_pure _ (λ _ img, string_form (img_id img))).
  - f_equal. apply list_eq. intros i.
    rewrite list_lookup_imap, list_lookup_fmap. by destruct (images !! i).
  - intros k img Hk. rewrite Forall_lookup in Hn.
    destruct (Hn _ _ Hk) as [s Hs]. rewrite (item_key_string _ _ s) by done.
    by rewrite Hs.
Qed.

Lemma normalized_take n images :
  Forall normalized images → Forall normalized (take n images).
Proof. apply Forall_take. Qed.

Lemma deterministicFallback_normalized images targetCount :
  Forall normalized images →
  deterministicFallback images targetCount
  = Ok (id_texts (take targetCount images)).
Proof.
  intros Hn. unfold deterministicFallback.
  by apply (image_ids_normalized (take targetCount images)), Forall_take.
Qed.

Lemma deterministicFallback_throws images targetCount e :
  deterministicFallback images targetCount = Throw e →
  err_name e = "TypeError".
Proof.
  unfold deterministicFallback.
  apply (map_from_throws _ (λ e, err_name e = "TypeError")).
  intros i img e'. apply item_key_throws.
Qed.

(** *** The validator *)

Lemma isValidSelection_iff orderedIds images targetCount :
  isValidSelection orderedIds images targetCount = Ok true ↔
  ∃ ids item_ids,
    orderedIds = VArr ids ∧ length ids = targetCount
    ∧ image_ids images = Ok item_ids
    ∧ Forall (λ id, ∃ s, toString id = Ok s ∧ s ∈ item_ids) ids.
Proof.
  unfold isValidSelection. split.
  - destruct orderedIds as [| | | | | |ids|]; try done.
    destruct (length ids =? targetCount)%nat eqn:Hlen; [|done]. simpl.
    destruct (image_ids images) as [item_ids|] eqn:Hitems; [|done]. simpl.
    intros H%every_true. exists ids, item_ids.
    split_and!; [done|by apply Nat.eqb_eq|done|].
    eapply Forall_impl; [exact H|]. intros id. simpl.
    destruct (toString id) as [s|]; [|done]. simpl.
    intros [= Hs%bool_decide_eq_true]. exists s. split; [done|].
    by apply elem_of_list_to_set in Hs.
  - intros (ids & item_ids & -> & Hlen & -> & Hall).
    apply Nat.eqb_eq in Hlen. rewrite Hlen. simpl.
    apply every_true. eapply Forall_impl; [exact Hall|].
    intros id (s & -> & Hs). simpl. f_equal.
    by apply bool_decide_eq_true, elem_of_list_to_set.
Qed.

Lemma isValidSelection_throws orderedIds images targetCount e :
  isValidSelection orderedIds images targetCount = Throw e →
  err_name e = "TypeError".
Proof.
  unfold isValidSelection.
  destruct orderedIds as [| | | | | |ids|]; try done.
  destruct (negb _); [done|].
  destruct (image_ids images) as [item_ids|e'] eqn:Hitems; simpl.
  2:{ intros [= <-]. revert Hitems. unfold image_ids.
      apply (map_from_throws _ (λ e, err_name e = "TypeError")).
      intros i img e''. apply item_key_throws. }
  induction ids as [|id ids IH]; simpl; [done|].
  destruct (toString id) as [s|e'] eqn:Hs; simpl.
  - by destruct (bool_decide _).
  - intros [= <-]. by eapply toString_throws.
Qed.

(** *** Shots *)

(** Whatever is thrown inside the handler short of the provider's own
    rejection is a TypeError. *)
Lemma get_throws v k e : get v k = Throw e → err_name e = "TypeError".
Proof. destruct v; simpl; by intros [= <-]. Qed.

Lemma find_beat_throws id beats e :
  find_beat id beats = Throw e → err_name e = "TypeError".
Proof.
  induction beats as [|b beats IH]; simpl; [done|].
  destruct (get b "id") as [b_id|e'] eqn:Hb; simpl.
  2:{ intros [= <-]. by eapply get_throws. }
  destruct (toString b_id) as [s|e'] eqn:Hs; simpl.
  2:{ intros [= <-]. by eapply toString_throws. }
  destruct (toString id) as [t|e'] eqn:Ht; simpl.
  2:{ intros [= <-]. by eapply toString_throws. }
  by destruct (String.eqb _ _).
Qed.

Lemma get_opt_throws v k e : get_opt v k = Throw e → err_name e = "TypeError".
Proof. unfold get_opt. destruct (nullish v); [done|]. apply get_throws. Qed.

Lemma buildShots_throws ids beats e :
  buildShots ids beats = Throw e → err_name e = "TypeError".
Proof.
  unfold buildShots.
  apply (map_from_throws _ (λ e, err_name e = "TypeError")). intros i id e'.
  destruct (find_beat id beats) as [beat|] eqn:Hf; simpl.
  - destruct (get_opt beat "role") eqn:Hr; simpl.
    + destruct (get_opt beat "reason") eqn:Hw; simpl; [done|].
      intros [= <-]. by eapply get_opt_throws.
    + intros [= <-]. by eapply get_opt_throws.
  - intros [= <-]. by eapply find_beat_throws.
Qed.

Lemma legible_readable beats : legible beats → readable beats.
Proof. intros H. eapply Forall_impl; [exact H|]. by intros b [? _]. Qed.

Lemma find_beat_legible id beats :
  legible beats → printable id = true →
  find_beat id beats = Ok (default VUndefined (matching_beat id beats)).
Proof.
  unfold matching_beat. intros Hl Hid.
  induction Hl as [|b beats [Hb Hp] _ IH]; [done|].
  cbn [find_beat]. rewrite (get_prop _ _ Hb). simpl.
  rewrite (printable_toString _ Hp), (printable_toString _ Hid). simpl.
  destruct (String.eqb_spec (string_form (prop b "id")) (string_form id))
    as [Heq|Hne].
  - by rewrite decide_True.
  - rewrite decide_False by done. rewrite IH.
    by destruct (list_find _ beats) as [[??]|].
Qed.

Lemma matching_beat_not_nullish id beats b :
  readable beats → matching_beat id beats = Some b → nullish b = false.
Proof.
  unfold matching_beat. intros Hr Hm.
  destruct (list_find _ beats) as [[i b']|] eqn:Hf; [|done].
  injection Hm as ->. apply list_find_Some in Hf as (Hi & _ & _).
  unfold readable in Hr. rewrite Forall_lookup in Hr. by eapply Hr.
Qed.

Lemma get_opt_matching id beats k :
  readable beats →
  get_opt (default VUndefined (matching_beat id beats)) k
  = Ok (beat_prop (matching_beat id beats) k).
Proof.
  intros Hr. destruct (matching_beat id beats) as [b|] eqn:Hm; [|done].
  simpl. unfold get_opt.
  pose proof (matching_beat_not_nullish _ _ _ Hr Hm) as Hb.
  rewrite Hb. by apply get_prop.
Qed.

(** Without beats nothing is searched, so the ids are not converted. *)
Lemma buildShots_nil orderedIds :
  buildShots orderedIds []
  = Ok (imap (shot_at [] (length orderedIds)) orderedIds).
Proof.
  unfold buildShots.
  by rewrite (map_from_pure _ (shot_at [] (length orderedIds))).
Qed.

Lemma buildShots_legible orderedIds beats :
  legible beats → Forall (λ id, printable id = true) orderedIds →
  buildShots orderedIds beats
  = Ok (imap (shot_at beats (length orderedIds)) orderedIds).
Proof.
  intros Hl Hids. unfold buildShots.
  rewrite (map_from_pure _ (shot_at beats (length orderedIds))).
  { done. }
  intros k id Hk. simpl. rewrite Forall_lookup in Hids.
  rewrite find_beat_legible by eauto. simpl.
  by rewrite !get_opt_matching by by apply legible_readable.
Qed.

Lemma buildShots_ids ids beats shots :
  buildShots ids beats = Ok shots → shot_id <$> shots = ids.
Proof.
  intros Hs. apply list_eq. intros i. rewrite list_lookup_fmap.
  pose proof (map_from_length _ _ _ _ Hs) as Hlen.
  destruct (ids !! i) as [id|] eqn:Hi.
  - destruct (map_from_lookup _ _ _ _ _ _ Hs Hi) as (s & -> & Hf). simpl.
    simpl in Hf. destruct (find_beat id beats); [|done]. simpl in Hf.
    destruct (get_opt _ "role"); [|done]. simpl in Hf.
    destruct (get_opt _ "reason"); [|done]. simpl in Hf.
    by injection Hf as <-.
  - apply lookup_ge_None in Hi. rewrite lookup_ge_None_2; [done|lia].
Qed.

Lemma position_role_nonempty idx n : position_role idx n ≠ "".
Proof. unfold position_role. by repeat case_match. Qed.

Lemma shot_roles ids beats shots :
  buildShots ids beats = Ok shots →
  Forall (λ s, truthy (shot_role s) = true
               ∧ (truthy (shot_reason s) = true ∨ shot_reason s = VStr ""))
    shots.
Proof.
  intros Hs. apply Forall_lookup. intros i s Hi.
  pose proof (map_from_length _ _ _ _ Hs) as Hlen.
  destruct (ids !! i) as [id|] eqn:Hid.
  2:{ apply lookup_ge_None in Hid. apply lookup_lt_Some in Hi. lia. }
  destruct (map_from_lookup _ _ _ _ _ _ Hs Hid) as (s' & Hs' & Hf).
  rewrite Hi in Hs'. injection Hs' as <-. simpl in Hf.
  destruct (find_beat id beats); [|done]. simpl in Hf.
  destruct (get_opt _ "role") as [role|]; [|done]. simpl in Hf.
  destruct (get_opt _ "reason") as [reason|]; [|done]. simpl in Hf.
  injection Hf as <-. simpl. unfold or_else. split.
  - destruct (truthy role) eqn:Hr; [done|]. simpl.
    unfold position_role. by repeat case_match.
  - destruct (truthy reason) eqn:Hr; auto.
Qed.

(** A [null] entry that the search reaches makes it throw, if nothing
    before it has. *)
Lemma find_beat_blocked id pre b post :
  readable pre → matching_beat id pre = None → nullish b = true →
  is_ok (find_beat id (pre ++ b :: post)) = false.
Proof.
  unfold matching_beat. intros Hr Hm Hb.
  induction Hr as [|a pre Ha _ IH]; simpl.
  - by destruct b.
  - rewrite (get_prop _ _ Ha). simpl. simpl in Hm.
    destruct (toString (prop a "id")) as [s|] eqn:Hs; [|done]. simpl.
    destruct (toString id) as [t|] eqn:Ht; [|done]. simpl.
    apply string_form_ok in Hs as <-. apply string_form_ok in Ht as <-.
    destruct (String.eqb_spec (string_form (prop a "id")) (string_form id))
      as [Heq|Hne].
    + by rewrite decide_True in Hm.
    + rewrite decide_False in Hm by done. apply IH.
      by destruct (list_find _ pre) as [[??]|].
Qed.

Lemma buildShots_blocked ids k id pre b post :
  ids !! k = Some id →
  readable pre → matching_beat id pre = None → nullish b = true →
  is_ok (buildShots ids (pre ++ b :: post)) = false.
Proof.
  intros Hk Hr Hm Hb. unfold buildShots.
  apply (map_from_throw _ 0%nat _ k id Hk). simpl.
  pose proof (find_beat_blocked id pre b post Hr Hm Hb) as Hf.
  by destruct (find_beat _ _).
Qed.

(** A beat whose [id] cannot be converted makes the search throw when it
    is the first beat. *)
Lemma buildShots_unprintable id orderedIds b beats :
  nullish b = false → printable (prop b "id") = false →
  is_ok (buildShots (id :: orderedIds) (b :: beats)) = false.
Proof.
  intros Hb Hp. unfold buildShots.
  apply (map_from_throw _ 0%nat _ 0%nat id); [done|]. simpl.
  rewrite (get_prop _ _ Hb). simpl. unfold printable in Hp.
  by destruct (toString (prop b "id")).
Qed.

(** For every length an array can have, the double-precision comparisons
    of the source pick the role of the exact quantiles. *)
Lemma position_role_quantile idx n :
  (Z.of_nat n < 2 ^ 32)%Z → idx < n →
  position_role idx n = quantile_role idx n.
Proof. apply Doubles.position_role_exact. Qed.

Lemma roles_agree_all n : (Z.of_nat n < 2 ^ 32)%Z → roles_agree n = true.
Proof.
  intros Hn. unfold roles_agree. apply forallb_forall. intros idx Hidx.
  apply in_seq in Hidx. apply String.eqb_eq.
  apply position_role_quantile; [done|lia].
Qed.

Lemma quantile_role_cases idx n :
  (5 * idx < n → quantile_role idx n = "opening")
  ∧ (n ≤ 5 * idx → 5 * idx < 3 * n → quantile_role idx n = "build")
  ∧ (3 * n ≤ 5 * idx → 10 * idx < 9 * n → quantile_role idx n = "turn")
  ∧ (9 * n ≤ 10 * idx → quantile_role idx n = "resolution").
Proof.
  unfold quantile_role. split_and!; intros; repeat case_decide; done || lia.
Qed.

Lemma positional_shots_quantile ids :
  (Z.of_nat (length ids) < 2 ^ 32)%Z →
  positional_shots ids = quantile_shots ids.
Proof.
  intros Hn. apply imap_ext. intros idx id Hidx. simpl.
  apply lookup_lt_Some in Hidx. by rewrite position_role_quantile.
Qed.

Lemma buildShots_positional (ids : list string) :
  buildShots (VStr <$> ids) [] = Ok (positional_shots ids).
Proof.
  rewrite buildShots_nil. f_equal. unfold positional_shots.
  rewrite imap_fmap, length_fmap. by apply imap_ext.
Qed.

(** *** The two catch routes *)

Lemma fallback_plan_eq images targetCount error :
  Forall normalized images →
  fallback_plan images targetCount error
  = Ok (Runs.degraded_plan (id_texts (take targetCount images)) error).
Proof.
  intros Hn. unfold fallback_plan.
  rewrite deterministicFallback_normalized by done. simpl.
  by rewrite buildShots_positional.
Qed.

(** *** Input normalization *)

Lemma usable_entry_key idx a :
  usable a → toString (entry_key idx a) = Ok (entry_id idx a).
Proof.
  intros (_ & Hid & _). apply printable_toString.
  unfold entry_key. by rewrite printable_coalesce.
Qed.

Lemma normalize_usable entries :
  Forall usable entries → normalize entries = Ok (items_of entries).
Proof.
  intros Hu. unfold normalize, items_of.
  rewrite (map_from_pure _ item_of); [done|].
  intros k a Hk. simpl. rewrite Forall_lookup in Hu.
  pose proof (Hu _ _ Hk) as Ha. pose proof Ha as (Hnull & _ & Hnum).
  rewrite !(get_prop a) by done. simpl.
  fold (entry_key k a). rewrite usable_entry_key by done. simpl.
  rewrite <-(printable_coalesce _ 5), <-toPrimitive_printable in Hnum.
  by destruct (toPrimitive _).
Qed.

Lemma normalize_ok_usable entries images :
  normalize entries = Ok images → Forall usable entries.
Proof.
  intros Hn. apply Forall_lookup. intros k a Hk.
  destruct (map_from_lookup _ _ _ _ _ _ Hn Hk) as (img & _ & Himg).
  simpl in Himg. destruct (nullish a) eqn:Ha.
  { pose proof (get_nullish a "id" Ha). by destruct (get a "id"). }
  rewrite !(get_prop a) in Himg by done. simpl in Himg.
  fold (entry_key k a) in Himg.
  destruct (toString (entry_key k a)) as [id|] eqn:Hid; [|done].
  simpl in Himg.
  destruct (toPrimitive _) as [energy|] eqn:Hnum; [|done].
  split_and!; [done|..].
  - rewrite <-(printable_coalesce _ (Z.of_nat k)). by eapply toString_printable.
  - rewrite <-(printable_coalesce _ 5), <-toPrimitive_printable.
    by rewrite Hnum.
Qed.

Lemma normalize_inv entries images :
  normalize entries = Ok images → images = items_of entries.
Proof.
  intros Hn. pose proof (normalize_ok_usable _ _ Hn) as Hu.
  rewrite (normalize_usable _ Hu) in Hn. by injection Hn.
Qed.

Lemma normalize_throws entries e :
  normalize entries = Throw e → err_name e = "TypeError".
Proof.
  unfold normalize.
  apply (map_from_throws _ (λ e, err_name e = "TypeError")). intros i a e'.
  destruct (get a "id") eqn:Hid; simpl.
  2:{ intros [= <-]. by eapply get_throws. }
  destruct (get a "filename") eqn:Hfn; simpl.
  2:{ intros [= <-]. by eapply get_throws. }
  destruct (toString _) eqn:Hs; simpl.
  2:{ intros [= <-]. by eapply toString_throws. }
  destruct (get a "visual_energy") eqn:Hve; simpl.
  2:{ intros [= <-]. by eapply get_throws. }
  destruct (get a "visualWeight") eqn:Hvw; simpl.
  2:{ intros [= <-]. by eapply get_throws. }
  destruct (toPrimitive _) eqn:Hp; simpl; [done|].
  intros [= <-]. by eapply toPrimitive_throws.
Qed.

Lemma usable_readable entries :
  Forall usable entries → Forall (λ a, nullish a = false) entries.
Proof. intros H. eapply Forall_impl; [exact H|]. by intros a [? _]. Qed.

Lemma items_of_normalized entries : Forall normalized (items_of entries).
Proof.
  apply Forall_lookup. intros k img. unfold items_of.
  rewrite list_lookup_imap. destruct (entries !! k); [|done].
  intros [= <-]. eexists. reflexivity.
Qed.

Lemma items_of_texts entries :
  id_texts (items_of entries) = imap entry_id entries.
Proof.
  unfold id_texts, items_of. rewrite fmap_imap. by apply imap_ext.
Qed.

Lemma items_of_ids entries :
  image_ids (items_of entries) = Ok (imap entry_id entries).
Proof.
  rewrite image_ids_normalized by apply items_of_normalized.
  by rewrite items_of_texts.
Qed.

Lemma items_of_length entries : length (items_of entries) = length entries.
Proof. apply length_imap. Qed.

Lemma items_of_fallback entries :
  deterministicFallback (items_of entries) (length entries)
  = Ok (imap entry_id entries).
Proof.
  rewrite <-(items_of_length entries), deterministicFallback_all.
  apply items_of_ids.
Qed.

Lemma entry_id_keyless idx a :
  keyless a → entry_id idx a = pretty (Z.of_nat idx).
Proof. unfold entry_id, entry_key, coalesce. by intros [-> ->]. Qed.

Lemma entry_id_provided idx a :
  nullish (prop a "id") = false → entry_id idx a = string_form (prop a "id").
Proof.
  intros H. unfold entry_id, entry_key, coalesce. rewrite H. by rewrite H.
Qed.

Lemma positional_ids_NoDup entries :
  Forall keyless entries → NoDup (imap entry_id entries).
Proof.
  intros Hk. apply NoDup_alt. intros i j s.
  rewrite !list_lookup_imap.
  destruct (entries !! i) as [a|] eqn:Hi; [|done].
  destruct (entries !! j) as [b|] eqn:Hj; [|done].
  rewrite Forall_lookup in Hk. simpl.
  rewrite !entry_id_keyless by eauto.
  intros [= <-] [= Hp]. apply (inj pretty) in Hp. lia.
Qed.

Lemma provided_ids_NoDup entries :
  Forall (λ a, nullish (prop a "id") = false) entries →
  NoDup ((λ a, string_form (prop a "id")) <$> entries) →
  NoDup (imap entry_id entries).
Proof.
  intros Hp Hnd.
  replace (imap entry_id entries)
    with ((λ a, string_form (prop a "id")) <$> entries); [done|].
  apply list_eq. intros i. rewrite list_lookup_fmap, list_lookup_imap.
  destruct (entries !! i) as [a|] eqn:Hi; [|done]. simpl.
  rewrite Forall_lookup in Hp. by rewrite entry_id_provided by eauto.
Qed.

(** *** The index of an id among the items *)

Lemma findIndex_normalized (images : list image) (id : string) (i : nat) :
  Forall normalized images →
  findIndex (λ img : image, s ← toString (img_id img); Ok (String.eqb s id))
    i images
  = Ok ((λ found : nat * image, (i + found.1)%nat)
          <$> list_find (λ img, string_form (img_id img) = id) images).
Proof.
  intros Hn. revert i. induction Hn as [|img images [s Hs] _ IH]; intros i.
  { done. }
  simpl. rewrite Hs. simpl. unfold string_form. simpl.
  destruct (String.eqb_spec s id) as [Heq|Hne].
  - rewrite decide_True by done. simpl. by rewrite Nat.add_0_r.
  - rewrite decide_False by done. rewrite IH. f_equal.
    destruct (list_find _ images) as [[k img']|]; simpl; [|done].
    f_equal. lia.
Qed.

Lemma selected_index_member images id :
  Forall normalized images → id ∈ id_texts images →
  ∃ i, selected_index images id = Ok i ∧ id_texts images !! i = Some id.
Proof.
  intros Hn Hin. unfold selected_index.
  rewrite findIndex_normalized by done. simpl.
  destruct (list_find _ images) as [[k img]|] eqn:Hf; simpl.
  - apply list_find_Some in Hf as (Hk & Himg & _).
    exists k. split; [done|]. unfold id_texts.
    by rewrite list_lookup_fmap, Hk; simpl; rewrite Himg.
  - apply list_find_None in Hf. exfalso.
    unfold id_texts in Hin. apply list_elem_of_fmap in Hin as (img & -> & Hin).
    rewrite Forall_forall in Hf. by apply (Hf img).
Qed.

Lemma selected_indices images ids :
  Forall normalized images → Forall (λ id, id ∈ id_texts images) ids →
  ∃ indices,
    map_from (λ (_ : nat) id, selected_index images id) 0%nat ids = Ok indices
    ∧ Forall2 (λ id i, id_texts images !! i = Some id) ids indices.
Proof.
  intros Hn Hids. generalize 0%nat.
  induction Hids as [|id ids Hid _ IH]; intros k.
  { exists []. split; [done|constructor]. }
  destruct (selected_index_member images id Hn Hid) as (i & Hi & Hat).
  destruct (IH (S k)) as (indices & Hind & Hall).
  exists (i :: indices). simpl. rewrite Hi. simpl. rewrite Hind. simpl.
  split; [done|]. by constructor.
Qed.

(** *** The handler *)

Lemma findIndex_throws (images : list image) (id : string) i e :
  findIndex (λ img : image, s ← toString (img_id img); Ok (String.eqb s id))
    i images = Throw e →
  err_name e = "TypeError".
Proof.
  revert i. induction images as [|img images IH]; intros i; simpl; [done|].
  destruct (toString (img_id img)) as [s|e'] eqn:Hs; simpl.
  - destruct (String.eqb s id); [done|]. apply IH.
  - intros [= <-]. by eapply toString_throws.
Qed.

Lemma selected_index_throws images id e :
  selected_index images id = Throw e → err_name e = "TypeError".
Proof.
  unfold selected_index.
  destruct (findIndex _ _ _) eqn:Hf; simpl; [done|].
  intros [= <-]. by eapply findIndex_throws.
Qed.

Lemma assemble_nullish images targetCount raw :
  nullish raw = true →
  ∃ e, assemble images targetCount raw = Throw e.
Proof. destruct raw; try done; intros _; by eexists. Qed.

(** The [try] body from the parsed output on, for an output that can be
    read. *)
Lemma assemble_unfold images targetCount raw :
  nullish raw = false →
  assemble images targetCount raw
  = valid ← isValidSelection (selected_ordering raw) images targetCount;
    finalIds ←
      (if valid : bool then Ok (elements (selected_ordering raw))
       else fallbackIds ← deterministicFallback images targetCount;
            Ok (VStr <$> (fallbackIds : list string)));
    shots ← buildShots finalIds (Runs.beats_of raw);
    ids ← map_from (λ (_ : nat) (id : value), toString id) 0%nat finalIds;
    indices ←
      map_from (λ (_ : nat) (id : string), selected_index images id) 0%nat ids;
    Ok (Runs.assembled_plan raw ids shots indices).
Proof.
  intros Hraw. unfold assemble. by rewrite !(get_prop raw) by done.
Qed.

Lemma assemble_throws images targetCount raw e :
  assemble images targetCount raw = Throw e → err_name e = "TypeError".
Proof.
  destruct (nullish raw) eqn:Hraw.
  { destruct raw; try done; simpl; by intros [= <-]. }
  rewrite assemble_unfold by done.
  destruct (isValidSelection _ _ _) as [valid|e'] eqn:Hv; simpl.
  2:{ intros [= <-]. by eapply isValidSelection_throws. }
  assert (∀ finalIds,
    (shots ← buildShots finalIds (Runs.beats_of raw);
     ids ← map_from (λ (_ : nat) (id : value), toString id) 0%nat finalIds;
     indices ←
       map_from (λ (_ : nat) (id : string), selected_index images id)
         0%nat ids;
     Ok (Runs.assembled_plan raw ids shots indices)) = Throw e →
    err_name e = "TypeError") as Hrest.
  { intros finalIds.
    destruct (buildShots _ _) as [shots|e'] eqn:Hs; simpl.
    2:{ intros [= <-]. by eapply buildShots_throws. }
    destruct (map_from _ 0%nat finalIds) as [ids|e'] eqn:Hids; simpl.
    2:{ intros [= <-]. revert Hids.
        apply (map_from_throws _ (λ e, err_name e = "TypeError")).
        intros i id e''. apply toString_throws. }
    destruct (map_from _ 0%nat ids) as [indices|e'] eqn:Hind; simpl; [done|].
    intros [= <-]. revert Hind.
    apply (map_from_throws _ (λ e, err_name e = "TypeError")).
    intros i id e''. apply selected_index_throws. }
  destruct valid; simpl; [apply Hrest|].
  destruct (deterministicFallback _ _) as [ids|e'] eqn:Hf; simpl.
  - apply Hrest.
  - intros [= <-]. by eapply deterministicFallback_throws.
Qed.

Lemma toString_VStr_fmap (ids : list string) i :
  map_from (λ (_ : nat) (id : value), toString id) i (VStr <$> ids) = Ok ids.
Proof.
  rewrite (map_from_fmap toString string_form).
  - f_equal. rewrite <-list_fmap_compose. apply list_fmap_id.
  - apply Forall_fmap, Forall_forall. by intros.
Qed.

(** What a plan assembled over [normalized] items is made of. *)
Lemma assemble_ok images targetCount raw p :
  Forall normalized images →
  assemble images targetCount raw = Ok p →
  nullish raw = false
  ∧ ∃ shots,
      buildShots (final_ids images targetCount raw) (Runs.beats_of raw)
      = Ok shots
      ∧ map_from (λ (_ : nat) (id : value), toString id) 0%nat
          (final_ids images targetCount raw) = Ok (ordered_ids p)
      ∧ map_from (λ (_ : nat) (id : string), selected_index images id) 0%nat
          (ordered_ids p) = Ok (selected p)
      ∧ p = Runs.assembled_plan raw (ordered_ids p) shots (selected p).
Proof.
  intros Hn Hp. destruct (nullish raw) eqn:Hraw.
  { destruct (assemble_nullish images targetCount raw Hraw) as [e He].
    congruence. }
  split; [done|]. rewrite assemble_unfold in Hp by done.
  unfold final_ids.
  destruct (isValidSelection _ _ _) as [[]|] eqn:Hv; [| |done]; simpl in Hp;
    rewrite ?deterministicFallback_normalized in Hp by done; simpl in Hp;
    (destruct (buildShots _ _) as [shots|] eqn:Hs; [|done]); simpl in Hp;
    (destruct (map_from _ 0%nat _) as [ids|] eqn:Hids; [|done]); simpl in Hp;
    (destruct (map_from _ 0%nat ids) as [indices|] eqn:Hind; [|done]);
    injection Hp as <-; by exists shots.
Qed.

Lemma final_ids_length images raw :
  Forall normalized images →
  length (final_ids images (length images) raw) = length images.
Proof.
  intros Hn. unfold final_ids.
  destruct (isValidSelection _ _ _) as [[]|] eqn:Hv.
  - apply isValidSelection_iff in Hv as (ids & ? & -> & Hlen & _). done.
  - by rewrite length_fmap, firstn_all, id_texts_length.
  - by rewrite length_fmap, firstn_all, id_texts_length.
Qed.

Lemma final_ids_members images raw :
  Forall normalized images →
  Forall (λ id, ∃ s, toString id = Ok s ∧ s ∈ id_texts images)
    (final_ids images (length images) raw).
Proof.
  intros Hn. unfold final_ids.
  assert (Forall (λ id, ∃ s, toString id = Ok s ∧ s ∈ id_texts images)
            (VStr <$> id_texts (take (length images) images))) as Hfb.
  { rewrite firstn_all. apply Forall_fmap, Forall_forall.
    intros s Hs. by exists s. }
  destruct (isValidSelection _ _ _) as [[]|] eqn:Hv; [|done..].
  apply isValidSelection_iff in Hv as (ids & item_ids & -> & _ & Hitems & Hall).
  rewrite image_ids_normalized in Hitems by done. injection Hitems as <-.
  done.
Qed.

Lemma ordered_ids_members images raw ids :
  Forall normalized images →
  map_from (λ (_ : nat) (id : value), toString id) 0%nat
    (final_ids images (length images) raw) = Ok ids →
  length ids = length images ∧ Forall (λ id, id ∈ id_texts images) ids.
Proof.
  intros Hn Hids. split.
  - apply map_from_length in Hids. by rewrite Hids, final_ids_length.
  - pose proof (final_ids_members images raw Hn) as Hmem.
    apply map_from_Forall2 in Hids.
    induction Hids as [|id s l ids Hs _ IH]; [constructor|].
    apply Forall_cons in Hmem as [(s' & Hs' & Hin) Hmem].
    constructor; [congruence|by apply IH].
Qed.

Lemma assemble_inv images raw p :
  Forall normalized images →
  assemble images (length images) raw = Ok p →
  length (ordered_ids p) = length images
  ∧ Forall (λ id, id ∈ id_texts images) (ordered_ids p)
  ∧ length (shots p) = length (ordered_ids p)
  ∧ length (durations p) = length (ordered_ids p)
  ∧ length (transitions p) = (length (ordered_ids p) - 1)%nat
  ∧ usedPlanner p = "ai"
  ∧ plan_error p = None.
Proof.
  intros Hn (_ & shots & Hs & Hids & _ & Hp)%assemble_ok; [|done].
  destruct (ordered_ids_members _ _ _ Hn Hids) as [Hlen Hmem].
  apply map_from_length in Hs, Hids.
  rewrite Hp. simpl. rewrite !length_replicate.
  split_and!; try done; [congruence|].
  unfold transitions_count. lia.
Qed.

(** When the validator turns the parsed ordering down, the plan assembled
    in the [try] body has the Fallback Orderer's ordering and keeps the
    tag ["ai"]. *)
Lemma assemble_invalid_ordering images raw p :
  Forall normalized images →
  assemble images (length images) raw = Ok p →
  isValidSelection (selected_ordering raw) images (length images) = Ok false →
  ordered_ids p = id_texts images ∧ usedPlanner p = "ai".
Proof.
  intros Hn Hp Hinvalid.
  pose proof (assemble_inv _ _ _ Hn Hp) as (_ & _ & _ & _ & _ & Htag & _).
  split; [|done].
  apply assemble_ok in Hp as (_ & shots & _ & Hids & _); [|done].
  unfold final_ids in Hids. rewrite Hinvalid, firstn_all in Hids.
  rewrite toString_VStr_fmap in Hids. by injection Hids.
Qed.

(** The fallback shape of the parser: after a parse failure the [try]
    body completes with the original order, tagged ["ai"]. *)
Lemma assemble_fallbackPlan images :
  Forall normalized images →
  ∃ fallback p,
    fallbackPlan images (length images) = Ok fallback
    ∧ assemble images (length images) fallback = Ok p
    ∧ ordered_ids p = id_texts images
    ∧ shots p = positional_shots (id_texts images)
    ∧ theme p = VStr "" ∧ emotion_arc p = []
    ∧ usedPlanner p = "ai" ∧ plan_error p = None.
Proof.
  intros Hn. unfold fallbackPlan.
  rewrite deterministicFallback_normalized, firstn_all by done. simpl.
  set (raw := VObj [("orderedIds", VArr (VStr <$> id_texts images));
                    ("theme", VStr ""); ("emotion_arc", VArr []);
                    ("beats", VArr [])]).
  exists raw.
  assert (∃ valid,
    isValidSelection (selected_ordering raw) images (length images)
    = Ok valid) as [valid Hvalid].
  { change (selected_ordering raw) with (VArr (VStr <$> id_texts images)).
    unfold isValidSelection.
    rewrite length_fmap, id_texts_length, Nat.eqb_refl. simpl.
    rewrite image_ids_normalized by done. simpl.
    match goal with
    | |- ∃ valid, every ?f ?l = Ok valid =>
        assert (is_ok (every f l) = true) as He
    end.
    { apply every_returns, Forall_fmap, Forall_forall. by intros. }
    destruct (every _ _) as [b|e]; [by exists b|done]. }
  destruct (selected_indices images (id_texts images) Hn)
    as (indices & Hind & _).
  { apply Forall_forall. by intros. }
  exists (Runs.assembled_plan raw (id_texts images)
            (positional_shots (id_texts images)) indices).
  split; [done|]. split; [|done].
  rewrite assemble_unfold by done. rewrite Hvalid.
  change (selected_ordering raw) with (VArr (VStr <$> id_texts images)).
  change (Runs.beats_of raw) with (@nil value).
  destruct valid; simpl;
    rewrite ?deterministicFallback_normalized, ?firstn_all by done; simpl;
    rewrite buildShots_positional; simpl;
    rewrite toString_VStr_fmap; simpl; by rewrite Hind.
Qed.

Section Routes.
Context (JSON_parse : string → result value).

Lemma sequence_handler_accepted req api_key now rateLimitMap entries up :
  accepted req api_key now rateLimitMap entries →
  (handler JSON_parse req api_key now rateLimitMap up).1
  = match plan_response JSON_parse (items_of entries) (length entries) up
            (RateLimit.remaining (rate_decision req now rateLimitMap)) with
    | Ok r => r
    | Throw error =>
        Response 500 [json_header]
          (FailureBody
             (if String.eqb (err_message error) "" then "Unknown error"
              else err_message error))
    end.
Proof.
  intros (Hm & Hallow & (body & Hbody & Har) & [Hpos Hmax]
          & (key & -> & Hkey) & Hread).
  unfold handler, rate_decision in *. rewrite Hm. simpl.
  destruct (RateLimit.checkRateLimit _ _ _) as [rateLimit rateLimitMap'].
  simpl in *. rewrite Hallow. simpl.
  unfold handle_body. rewrite Hbody. simpl. rewrite Har. simpl.
  destruct (length entries =? 0)%nat eqn:H0.
  { apply Nat.eqb_eq in H0. lia. }
  destruct (MAX_IMAGES <? length entries)%nat eqn:H1.
  { apply Nat.ltb_lt in H1. lia. }
  assert (nullish body = false) as Hb.
  { destruct body; try done. }
  rewrite (get_prop body) by done. simpl.
  destruct (String.eqb_spec key "") as [->|_]; [done|]. simpl.
  rewrite normalize_usable by done. simpl.
  by rewrite items_of_length.
Qed.

Lemma plan_response_rejected images targetCount e remaining :
  plan_response JSON_parse images targetCount (Rejected e) remaining
  = p ← fallback_plan images targetCount
          (if String.eqb (err_name e) "AbortError" then None
           else Some (err_message e));
    Ok (Response 200 [json_header] (PlanBody p)).
Proof. unfold plan_response. simpl. by destruct (String.eqb _ _). Qed.

(** Every route over [normalized] items ends in a plan. *)
Lemma plan_response_cases images targetCount up remaining :
  Forall normalized images →
  (∃ p, plan_from_model JSON_parse images targetCount up = Ok p
        ∧ plan_response JSON_parse images targetCount up remaining
          = Ok (Response 200
                  [json_header; ("X-RateLimit-Remaining", pretty remaining)]
                  (PlanBody p)))
  ∨ (∃ e, plan_from_model JSON_parse images targetCount up = Throw e
        ∧ plan_response JSON_parse images targetCount up remaining
          = Ok (Response 200 [json_header]
                  (PlanBody
                     (Runs.degraded_plan (id_texts (take targetCount images))
                        (if String.eqb (err_name e) "AbortError" then None
                         else Some (err_message e)))))).
Proof.
  intros Hn. unfold plan_response.
  destruct (plan_from_model _ _ _ _) as [p|e]; simpl.
  - left. by exists p.
  - right. exists e. split; [done|].
    destruct (String.eqb _ _); by rewrite fallback_plan_eq.
Qed.

Lemma plan_from_model_inv images targetCount up p :
  plan_from_model JSON_parse images targetCount up = Ok p →
  ∃ raw, assemble images targetCount raw = Ok p.
Proof.
  unfold plan_from_model. destruct up as [choices|e]; [|done]. simpl.
  destruct (first_content choices) as [content|]; [|done]. simpl.
  destruct (fallbackPlan _ _) as [fallback|]; [|done]. simpl.
  destruct (safeParseJSON _ _ _) as [raw|]; [|done]. simpl. eauto.
Qed.

Lemma fallbackPlan_normalized images targetCount :
  Forall normalized images → is_ok (fallbackPlan images targetCount) = true.
Proof.
  intros Hn. unfold fallbackPlan.
  by rewrite deterministicFallback_normalized.
Qed.

Lemma plan_from_model_parsed images targetCount choices content raw :
  Forall normalized images →
  first_content choices = Ok content →
  JSON_parse (clean content) = Ok raw →
  plan_from_model JSON_parse images targetCount (Completion choices)
  = assemble images targetCount raw.
Proof.
  intros Hn Hc Hp. unfold plan_from_model, safeParseJSON. simpl.
  rewrite Hc. simpl.
  pose proof (fallbackPlan_normalized images targetCount Hn) as Hf.
  destruct (fallbackPlan _ _); [|done]. simpl. by rewrite Hp.
Qed.

Lemma plan_from_model_unparsed images targetCount choices content :
  Forall normalized images →
  first_content choices = Ok content →
  is_ok (JSON_parse (clean content)) = false →
  ∃ fallback,
    fallbackPlan images targetCount = Ok fallback
    ∧ plan_from_model JSON_parse images targetCount (Completion choices)
      = assemble images targetCount fallback.
Proof.
  intros Hn Hc Hp. unfold plan_from_model, safeParseJSON. simpl.
  rewrite Hc. simpl.
  pose proof (fallbackPlan_normalized images targetCount Hn) as Hf.
  destruct (fallbackPlan _ _) as [fallback|]; [|done]. simpl.
  exists fallback. split; [done|]. by destruct (JSON_parse _).
Qed.

Lemma first_content_throws choices e :
  first_content choices = Throw e → err_name e = "TypeError".
Proof. destruct choices as [|[c|] ?]; simpl; [|done..]. by intros [= <-]. Qed.

(** The [try] body throws nothing but TypeErrors once the provider has
    answered. *)
Lemma plan_from_model_throws images targetCount choices e :
  plan_from_model JSON_parse images targetCount (Completion choices) = Throw e →
  err_name e = "TypeError".
Proof.
  unfold plan_from_model. simpl.
  destruct (first_content choices) eqn:Hc; simpl.
  2:{ intros [= <-]. by eapply first_content_throws. }
  destruct (fallbackPlan _ _) as [fallback|e'] eqn:Hf; simpl.
  2:{ intros [= <-]. unfold fallbackPlan in Hf.
      destruct (deterministicFallback _ _) eqn:Hd; [done|].
      injection Hf as <-. by eapply deterministicFallback_throws. }
  unfold safeParseJSON. destruct (JSON_parse _); simpl; apply assemble_throws.
Qed.

Lemma plan_response_ok images targetCount up remaining p :
  plan_from_model JSON_parse images targetCount up = Ok p →
  plan_response JSON_parse images targetCount up remaining
  = Ok (Response 200
          [json_header; ("X-RateLimit-Remaining", pretty remaining)]
          (PlanBody p)).
Proof. intros Hp. unfold plan_response. by rewrite Hp. Qed.

(** What holds of the plan on every route. *)
Lemma plan_response_shape images up remaining :
  Forall normalized images →
  ∃ hdrs p,
    plan_response JSON_parse images (length images) up remaining
    = Ok (Response 200 hdrs (PlanBody p))
    ∧ length (ordered_ids p) = length images
    ∧ Forall (λ id, id ∈ id_texts images) (ordered_ids p)
    ∧ length (shots p) = length (ordered_ids p)
    ∧ length (durations p) = length images
    ∧ length (transitions p) = (length images - 1)%nat
    ∧ (usedPlanner p = "fallback" → ordered_ids p = id_texts images).
Proof.
  intros Hn.
  destruct (plan_response_cases images (length images) up remaining Hn)
    as [(p & Hp & ->)|(e & _ & ->)]; eexists _, _; (split; [done|]).
  - apply plan_from_model_inv in Hp as [raw Hraw].
    apply assemble_inv in Hraw as (Hlen & Hmem & Hs & Hd & Ht & Hu & _);
      [|done].
    rewrite Hd, Ht, Hs, Hlen, Hu. by split_and!.
  - simpl. rewrite firstn_all, id_texts_length, !length_replicate.
    unfold positional_shots. rewrite length_imap, id_texts_length.
    split_and!; try done.
    + apply Forall_forall. by intros.
    + unfold transitions_count. lia.
Qed.

(** What holds of the plan of an accepted request on every route. *)
Lemma handler_plan_shape req api_key now rateLimitMap entries up :
  accepted req api_key now rateLimitMap entries →
  ∃ hdrs p,
    (handler JSON_parse req api_key now rateLimitMap up).1
    = Response 200 hdrs (PlanBody p)
    ∧ length (ordered_ids p) = length entries
    ∧ Forall (λ id, id ∈ imap entry_id entries) (ordered_ids p)
    ∧ length (shots p) = length (ordered_ids p)
    ∧ length (durations p) = length entries
    ∧ length (transitions p) = (length entries - 1)%nat
    ∧ (usedPlanner p = "fallback" → ordered_ids p = imap entry_id entries).
Proof.
  intros Hacc. rewrite (sequence_handler_accepted _ _ _ _ entries) by done.
  pose proof (plan_response_shape (items_of entries) up
                (RateLimit.remaining (rate_decision req now rateLimitMap))
                (items_of_normalized entries))
    as (hdrs & p & Hresp & Hrest).
  rewrite items_of_length in Hresp. rewrite Hresp.
  exists hdrs, p. split; [done|].
  by rewrite items_of_texts, items_of_length in Hrest.
Qed.

End Routes.

(** *** The validator, the Fallback Orderer, the shots and the item ids *)

(** C3 as stated fails: a candidate of the right length that holds a
    foreign id is not always answered [false].  When an element before
    the foreign id cannot be converted to a string, here the parsed object
    [{"toString":0}], the validator throws. *)
Lemma isValidSelection_foreign_counterexample :
  let candidate := VArr [unprintable; VStr "x"] in
  image_ids two_items = Ok ["a"; "b"]
  ∧ ("x" ∉ ["a"; "b"])
  ∧ isValidSelection candidate two_items 2
    = Throw (type_error "Cannot convert object to primitive value")
  ∧ isValidSelection candidate two_items 2 ≠ Ok false.
Proof.
  split_and!; [done| |done|done].
  intros Hin%list_elem_of_In. simpl in Hin.
  destruct Hin as [?|[?|[]]]; discriminate.
Qed.

(** C3, amended: the Output Validator returns [true] exactly for the
    arrays of [targetCount] elements whose string forms are all item ids.
    It returns [false] for what is not an array (absent, scalar), for the
    empty candidate when [targetCount > 0], for a candidate of another
    length, and for a candidate of the right length in which the first
    element that is not the string form of an item id has a string form,
    a foreign id; it throws the TypeError of the conversion when that
    element, or an item's id, cannot be converted to a string.  It returns
    [true] for every permutation of the item ids, and for every candidate
    of the right length made of item ids, repeats included. *)
Theorem isValidSelection_spec images targetCount :
  (∀ orderedIds, isArray orderedIds = false →
     isValidSelection orderedIds images targetCount = Ok false)
  ∧ (0 < targetCount →
     isValidSelection (VArr []) images targetCount = Ok false)
  ∧ (∀ ids, length ids ≠ targetCount →
       isValidSelection (VArr ids) images targetCount = Ok false)
  ∧ (∀ e ids, image_ids images = Throw e → length ids = targetCount →
       isValidSelection (VArr ids) images targetCount = Throw e)
  ∧ (∀ item_ids, image_ids images = Ok item_ids →
       let member id := ∃ s, toString id = Ok s ∧ s ∈ item_ids in
       (∀ orderedIds,
          isValidSelection orderedIds images targetCount = Ok true ↔
          ∃ ids, orderedIds = VArr ids ∧ length ids = targetCount
                 ∧ Forall member ids)
       ∧ (∀ pre id post s,
            length (pre ++ id :: post) = targetCount →
            Forall member pre → toString id = Ok s → s ∉ item_ids →
            isValidSelection (VArr (pre ++ id :: post)) images targetCount
            = Ok false)
       ∧ (∀ pre id post e,
            length (pre ++ id :: post) = targetCount →
            Forall member pre → toString id = Throw e →
            isValidSelection (VArr (pre ++ id :: post)) images targetCount
            = Throw e)
       ∧ (∀ ids, isValidSelection (VArr ids) images targetCount = Ok false →
            length ids ≠ targetCount
            ∨ ∃ pre id post s,
                ids = pre ++ id :: post ∧ Forall member pre
                ∧ toString id = Ok s ∧ s ∉ item_ids)
       ∧ (∀ ids texts, targetCount = length images →
            Forall2 (λ id s, toString id = Ok s) ids texts →
            texts ≡ₚ item_ids →
            isValidSelection (VArr ids) images targetCount = Ok true)
       ∧ (∀ ids, length ids = targetCount → Forall member ids →
            isValidSelection (VArr ids) images targetCount = Ok true)).
Proof.
  assert (∀ item_ids pre,
            Forall (λ id, ∃ s, toString id = Ok s ∧ s ∈ item_ids) pre →
            Forall (λ id, (s ← toString id;
                           Ok (bool_decide
                                 (s ∈ (list_to_set item_ids : gset string))))
                          = Ok true) pre) as Hmembers.
  { intros item_ids pre Hpre. eapply Forall_impl; [exact Hpre|].
    intros id (s & -> & Hs). simpl. f_equal.
    by apply bool_decide_eq_true, elem_of_list_to_set. }
  split_and!.
  - by intros [| | | | | |ids|].
  - intros Hpos. unfold isValidSelection. simpl.
    destruct targetCount; [lia|done].
  - intros ids Hne. unfold isValidSelection.
    apply Nat.eqb_neq in Hne. by rewrite Hne.
  - intros e ids He Hlen. unfold isValidSelection.
    apply Nat.eqb_eq in Hlen. by rewrite Hlen, He.
  - intros item_ids Hitems member. split_and!.
    + intros orderedIds. rewrite isValidSelection_iff. split.
      * intros (ids & item_ids' & -> & Hlen & Hitems' & Hall).
        exists ids. split_and!; [done..|].
        rewrite Hitems in Hitems'. by injection Hitems' as <-.
      * intros (ids & -> & Hlen & Hall). by exists ids, item_ids.
    + intros pre id post s Hlen Hpre Hs Hout. unfold isValidSelection.
      apply Nat.eqb_eq in Hlen. rewrite Hlen, Hitems. simpl.
      apply every_false; [by apply Hmembers|]. rewrite Hs. simpl. f_equal.
      apply bool_decide_eq_false. by rewrite elem_of_list_to_set.
    + intros pre id post e Hlen Hpre He. unfold isValidSelection.
      apply Nat.eqb_eq in Hlen. rewrite Hlen, Hitems. simpl.
      apply every_throw; [by apply Hmembers|]. by rewrite He.
    + intros ids. unfold isValidSelection.
      destruct (length ids =? targetCount)%nat eqn:Hlen; simpl.
      2:{ intros _. left. by apply Nat.eqb_neq. }
      rewrite Hitems. simpl.
      intros (pre & id & post & -> & Hpre & Hid)%every_inv. right.
      destruct (toString id) as [s|] eqn:Hs; [|done]. simpl in Hid.
      injection Hid as Hid. apply bool_decide_eq_false in Hid.
      rewrite elem_of_list_to_set in Hid.
      exists pre, id, post, s. split_and!; [done| |done..].
      eapply Forall_impl; [exact Hpre|]. intros x. simpl.
      destruct (toString x) as [t|] eqn:Hx; [|done]. simpl.
      intros [= Ht]. apply bool_decide_eq_true in Ht. exists t.
      split; [done|]. by apply elem_of_list_to_set in Ht.
    + intros ids texts -> Htexts Hperm. apply isValidSelection_iff.
      exists ids, item_ids. split_and!; [done| |done|].
      * apply Forall2_length in Htexts. apply Permutation_length in Hperm.
        apply image_ids_length in Hitems. congruence.
      * clear -Htexts Hperm.
        assert (∀ s, s ∈ texts → s ∈ item_ids) as Hsub
          by (intros s; by rewrite Hperm).
        clear Hperm. induction Htexts as [|id s ids texts Hs _ IH];
          constructor.
        -- exists s. split; [done|]. apply Hsub. by left.
        -- apply IH. intros t Ht. apply Hsub. by right.
    + intros ids Hlen Hall. apply isValidSelection_iff. by exists ids, item_ids.
Qed.

Lemma isValidSelection_spec_witness :
  isValidSelection VUndefined two_items 2 = Ok false
  ∧ isValidSelection (VStr "a,b") two_items 2 = Ok false
  ∧ isValidSelection (VArr []) two_items 2 = Ok false
  ∧ isValidSelection (VArr [VStr "a"]) two_items 2 = Ok false
  ∧ isValidSelection (VArr [VStr "a"; VStr "x"]) two_items 2 = Ok false
  ∧ isValidSelection (VArr [VStr "x"; unprintable]) two_items 2 = Ok false
  ∧ isValidSelection (VArr [VStr "a"; unprintable]) two_items 2
    = Throw (type_error "Cannot convert object to primitive value")
  ∧ isValidSelection (VArr [VStr "b"; VStr "a"]) two_items 2 = Ok true
  ∧ isValidSelection (VArr [VStr "a"; VStr "a"]) two_items 2 = Ok true.
Proof.
  destruct (isValidSelection_spec two_items 2)
    as (Hscalar & Hempty & Hlen & _ & Hitems).
  destruct (Hitems ["a"; "b"] eq_refl)
    as (_ & Hforeign & Hthrow & _ & Hperm & Hmembers).
  assert ("x" ∉ ["a"; "b"]) as Hx.
  { intros Hin%list_elem_of_In. simpl in Hin.
    destruct Hin as [?|[?|[]]]; discriminate. }
  assert (∃ s, toString (VStr "a") = Ok s ∧ s ∈ ["a"; "b"]) as Ha.
  { exists "a". split; [done|]. apply list_elem_of_In. simpl. tauto. }
  split_and!.
  - by apply Hscalar.
  - by apply Hscalar.
  - apply Hempty. lia.
  - apply Hlen. simpl. lia.
  - apply (Hforeign [VStr "a"] (VStr "x") [] "x"); [done| |done..].
    by constructor.
  - by apply (Hforeign [] (VStr "x") [unprintable] "x").
  - apply (Hthrow [VStr "a"] unprintable []); [done| |done].
    by constructor.
  - apply (Hperm _ ["b"; "a"]); [reflexivity|by repeat constructor|].
    apply perm_swap.
  - apply Hmembers; [reflexivity|]. by repeat constructor.
Defined.

(** C4 as stated fails: normalization can give two items the same id, and
    the Fallback Orderer then returns that id twice.  (On a list that
    normalization never makes, with an item whose id has no string form,
    it throws.) *)
Lemma deterministicFallback_duplicates_counterexample :
  let images := items_of [entry "a"; entry "a"] in
  normalize [entry "a"; entry "a"] = Ok images
  ∧ deterministicFallback images (length images) = Ok ["a"; "a"]
  ∧ (NoDup ["a"; "a"] → False)
  ∧ deterministicFallback [Image unprintable (VStr "a.jpg")] 1
    = Throw (type_error "Cannot convert object to primitive value").
Proof.
  split_and!; [done|done| |done].
  intros [Hin _]%NoDup_cons. apply Hin, list_elem_of_In. simpl. tauto.
Qed.

(** C4, amended: for every item list of size n and a target count of n, the
    Fallback Orderer returns n ids: the id of every item at the item's own
    position (the original order), each drawn from the input, the same
    multiset as the item ids; the returned ids are unique, a permutation
    of the set of item ids, when the item ids are pairwise distinct.  On
    items as input normalization makes them, whose ids are strings, it
    always returns, and it returns those strings; it does nothing
    else. *)
Theorem deterministicFallback_spec images :
  deterministicFallback images (length images) = image_ids images
  ∧ (Forall normalized images →
     deterministicFallback images (length images) = Ok (id_texts images)
     ∧ id_texts images = (string_form ∘ img_id) <$> images
     ∧ Forall2 (λ img id, img_id img = VStr id) images (id_texts images))
  ∧ (∀ ids, deterministicFallback images (length images) = Ok ids →
       length ids = length images
       ∧ (∀ idx img, images !! idx = Some img →
            ∃ id, ids !! idx = Some id ∧ item_key img idx = Ok id)
       ∧ (∀ item_ids, image_ids images = Ok item_ids →
            (∀ id, id ∈ ids → id ∈ item_ids)
            ∧ ids ≡ₚ item_ids
            ∧ (NoDup item_ids → NoDup ids))).
Proof.
  split_and!.
  - apply deterministicFallback_all.
  - intros Hn. split_and!.
    + rewrite deterministicFallback_all. by apply image_ids_normalized.
    + done.
    + by apply id_texts_ids.
  - intros ids. rewrite deterministicFallback_all. intros Hids.
    split_and!.
    + by eapply image_ids_length.
    + intros idx img Himg. by eapply image_ids_lookup.
    + intros item_ids Hitems. rewrite Hids in Hitems.
      injection Hitems as <-. done.
Qed.

Lemma deterministicFallback_spec_witness :
  deterministicFallback two_items 2 = Ok ["a"; "b"]
  ∧ NoDup ["a"; "b"].
Proof.
  destruct (deterministicFallback_spec two_items) as (_ & Hids & Hret).
  destruct Hids as (Hids & _).
  { repeat constructor; by eexists. }
  split; [exact Hids|].
  destruct (Hret _ Hids) as (_ & _ & Hperm).
  destruct (Hperm ["a"; "b"] eq_refl) as (_ & _ & Hnd).
  apply Hnd. apply NoDup_cons. split; [|apply NoDup_singleton].
  intros Hin%list_elem_of_In. simpl in Hin.
  destruct Hin as [?|[]]; discriminate.
Defined.

(** C7 as stated fails: a matching beat entry without a role leaves the
    role to the position; a [null] beat entry makes [buildShots] throw,
    and so do a beat entry whose id cannot be converted to a string and,
    when there is a beat to compare it with, an ordered id that cannot
    be. *)
Lemma buildShots_role_counterexample :
  let beat := VObj [("id", VStr "a"); ("reason", VStr "why")] in
  matching_beat (VStr "a") [beat] = Some beat
  ∧ prop beat "role" = VUndefined
  ∧ buildShots [VStr "a"] [beat]
    = Ok [{| shot_id := VStr "a"; shot_role := VStr "opening";
             shot_reason := VStr "why" |}]
  ∧ buildShots [VStr "a"] [VNull]
    = Throw (type_error "Cannot read properties of null (reading 'id')")
  ∧ buildShots [VStr "a"] [VObj [("id", unprintable)]]
    = Throw (type_error "Cannot convert object to primitive value")
  ∧ buildShots [unprintable] [VObj [("id", VStr "a")]]
    = Throw (type_error "Cannot convert object to primitive value").
Proof. by split_and!. Qed.

(** C7, amended: for every final ordering of length n and every beats list
    that can be searched (no [null] entry, and every entry's id has a
    string form; so can the ids of the ordering, unless there are no
    beats), [buildShots] produces one shot per ordered id, in order.  The
    role of a shot is the role of the first beat entry whose id matches
    (string-normalized) when that role is truthy, and otherwise the role
    of the position, which the double-precision comparisons of the source
    give exactly by the thresholds, for every array (an array has fewer
    than 2^32 elements): ["opening"] below 0.2 n, ["build"] in
    [0.2 n, 0.6 n), ["turn"] in [0.6 n, 0.9 n), ["resolution"] from 0.9 n
    on.  The reason is that entry's reason when truthy, and [""]
    otherwise. *)
Theorem buildShots_spec orderedIds beats :
  legible beats →
  beats = [] ∨ Forall (λ id, printable id = true) orderedIds →
  let n := length orderedIds in
  ∃ shots,
    buildShots orderedIds beats = Ok shots
    ∧ length shots = n
    ∧ ∀ idx id, orderedIds !! idx = Some id →
        ∃ s, shots !! idx = Some s
          ∧ shot_id s = id
          ∧ shot_role s
            = (let role := beat_prop (matching_beat id beats) "role" in
               if truthy role then role else VStr (position_role idx n))
          ∧ ((Z.of_nat n < 2 ^ 32)%Z →
             position_role idx n
             = (if decide (5 * idx < n) then "opening"
                else if decide (5 * idx < 3 * n) then "build"
                else if decide (10 * idx < 9 * n) then "turn"
                else "resolution"))
          ∧ shot_reason s
            = (let reason := beat_prop (matching_beat id beats) "reason" in
               if truthy reason then reason else VStr "").
Proof.
  intros Hl Hids n.
  assert (buildShots orderedIds beats
          = Ok (imap (shot_at beats n) orderedIds)) as ->.
  { destruct Hids as [->|Hids];
      [apply buildShots_nil|by apply buildShots_legible]. }
  eexists. split; [done|]. split; [by rewrite length_imap|].
  intros idx id Hidx. rewrite list_lookup_imap, Hidx. simpl.
  eexists. split; [done|]. split_and!; try done.
  intros Hn. apply position_role_quantile; [done|].
  by apply lookup_lt_Some in Hidx.
Qed.

Lemma buildShots_spec_witness :
  ∃ shots,
    buildShots [VStr "a"; VNum 7]
      [VObj [("id", VNum 7); ("role", VStr "climax")]] = Ok shots
    ∧ shots !! 0%nat
      = Some {| shot_id := VStr "a"; shot_role := VStr "opening";
                shot_reason := VStr "" |}
    ∧ shots !! 1%nat
      = Some {| shot_id := VNum 7; shot_role := VStr "climax";
                shot_reason := VStr "" |}.
Proof.
  destruct (buildShots_spec [VStr "a"; VNum 7]
              [VObj [("id", VNum 7); ("role", VStr "climax")]])
    as (shots & Hshots & _ & Hat).
  { by repeat constructor. }
  { right. by repeat constructor. }
  exists shots. split; [exact Hshots|].
  destruct (Hat 0%nat (VStr "a") eq_refl) as ([i0 r0 w0] & -> & H0).
  destruct (Hat 1%nat (VNum 7) eq_refl) as ([i1 r1 w1] & -> & H1).
  simpl in H0, H1.
  destruct H0 as (-> & -> & H0 & ->), H1 as (-> & -> & _ & ->).
  rewrite H0 by done. done.
Defined.

(** C9 as stated fails: two entries with the same [id] get the same item
    id, and so do an entry whose [id] is ["1"] and a bare entry at
    position 1. *)
Lemma normalize_ids_counterexample :
  (∃ images,
     normalize [entry "a"; entry "a"] = Ok images
     ∧ id_texts images = ["a"; "a"]
     ∧ ¬ NoDup (id_texts images))
  ∧ (∃ images,
     normalize [entry "1"; VObj []] = Ok images
     ∧ id_texts images = ["1"; "1"]
     ∧ ¬ NoDup (id_texts images)).
Proof.
  split; (eexists; split; [reflexivity|]; split; [reflexivity|]);
    intros Hnd; simpl in Hnd; apply NoDup_cons in Hnd as [Hin _];
    apply Hin, list_elem_of_In; simpl; tauto.
Qed.

(** C9, amended: input normalization gives every entry the string form of
    its provided [id], else of its [filename], else of its position; the
    ids of a request are pairwise distinct when no entry provides an [id]
    or a [filename], and when every entry provides an [id] and the string
    forms of the provided ids are pairwise distinct. *)
Theorem normalize_ids entries images :
  normalize entries = Ok images →
  let ids := id_texts images in
  ids = imap entry_id entries
  ∧ image_ids images = Ok ids
  ∧ Forall2 (λ img id, img_id img = VStr id) images ids
  ∧ (∀ idx a, entries !! idx = Some a →
       toString (entry_key idx a) = Ok (entry_id idx a))
  ∧ (Forall keyless entries → NoDup ids)
  ∧ (Forall (λ a, nullish (prop a "id") = false) entries →
     NoDup ((λ a, string_form (prop a "id")) <$> entries) →
     ids = (λ a, string_form (prop a "id")) <$> entries ∧ NoDup ids).
Proof.
  intros Hnorm ids.
  pose proof (normalize_ok_usable _ _ Hnorm) as Husable.
  apply normalize_inv in Hnorm as ->.
  assert (ids = imap entry_id entries) as Hids
    by apply items_of_texts.
  split_and!; try done.
  - unfold ids. apply image_ids_normalized, items_of_normalized.
  - apply id_texts_ids, items_of_normalized.
  - intros idx a Ha. rewrite Forall_lookup in Husable.
    by apply usable_entry_key, (Husable idx).
  - rewrite Hids. apply positional_ids_NoDup.
  - intros Hp Hnd. split; [|rewrite Hids; by apply provided_ids_NoDup].
    rewrite Hids. apply list_eq. intros i.
    rewrite list_lookup_fmap, list_lookup_imap.
    destruct (entries !! i) as [a|] eqn:Hi; [|done]. simpl.
    rewrite Forall_lookup in Hp. by rewrite entry_id_provided by eauto.
Qed.

Lemma normalize_ids_witness :
  (id_texts (items_of [VObj []; VObj [("subject", VStr "sea")]]) = ["0"; "1"]
   ∧ NoDup (id_texts (items_of [VObj []; VObj [("subject", VStr "sea")]])))
  ∧ (id_texts (items_of [entry "a"; entry "b"]) = ["a"; "b"]
     ∧ NoDup (id_texts (items_of [entry "a"; entry "b"]))).
Proof.
  split.
  - destruct (normalize_ids [VObj []; VObj [("subject", VStr "sea")]]
                (items_of [VObj []; VObj [("subject", VStr "sea")]]) eq_refl)
      as (Hids & _ & _ & _ & Hpos & _).
    split; [exact Hids|]. apply Hpos. by repeat constructor.
  - destruct (normalize_ids [entry "a"; entry "b"]
                (items_of [entry "a"; entry "b"]) eq_refl)
      as (_ & _ & _ & _ & _ & Hprov).
    apply Hprov; [by repeat constructor|].
    apply NoDup_cons. split; [|apply NoDup_singleton].
    intros Hin%list_elem_of_In. simpl in Hin.
    destruct Hin as [?|[]]; discriminate.
Defined.

(** *** The routes of the handler, on requests *)

Lemma usable_entry id : usable (entry id).
Proof. by split_and!. Qed.

Lemma accepted_post entries key now :
  (0 < length entries ≤ MAX_IMAGES)%nat → key ≠ "" →
  Forall usable entries →
  accepted (post entries) (Some key) now ∅ entries.
Proof.
  intros Hlen Hkey Hread. split_and!; try done; try lia.
  - eexists. split; reflexivity.
  - by exists key.
Qed.

Section Requests.
Context (JSON_parse : string → result value).

(** C1 (the code at the failing input): two items [a] and [b], and a
    model answer that repeats [a]: the validator lets it through and the
    plan's [ordered_ids] is [a, a], which is no permutation of the item
    ids. *)
Theorem handler_repeated_ids_pass :
  JSON_parse repeated_text = Ok repeated_raw →
  ∃ hdrs p,
    (handler JSON_parse (post [entry "a"; entry "b"]) (Some "sk") 0 ∅
       (Completion [Some repeated_text])).1
    = Response 200 hdrs (PlanBody p)
    ∧ image_ids (items_of [entry "a"; entry "b"]) = Ok ["a"; "b"]
    ∧ ordered_ids p = ["a"; "a"]
    ∧ usedPlanner p = "ai"
    ∧ ¬ ordered_ids p ≡ₚ ["a"; "b"].
Proof.
  intros Hparse.
  rewrite (sequence_handler_accepted _ _ _ _ _ [entry "a"; entry "b"])
    by (apply accepted_post;
        [simpl; unfold MAX_IMAGES; lia|done
        |repeat constructor; apply usable_entry]).
  erewrite plan_response_ok; last first.
  { rewrite (plan_from_model_parsed JSON_parse _ _ _ (trim repeated_text)
               repeated_raw);
      [reflexivity|apply items_of_normalized|reflexivity|exact Hparse]. }
  eexists _, _. split; [reflexivity|]. split_and!; try reflexivity.
  simpl. by intros [[_ ?]|[? _]]%Permutation_length_2.
Qed.

(** C2 (the code at the failing input): three items [a], [b], [c], and a
    model answer [a, b, x] that fails the validator: the plan's
    [ordered_ids] is the Fallback Orderer's output, and [usedPlanner] is
    ["ai"], not ["fallback"]. *)
Theorem handler_invalid_ordering_tag :
  JSON_parse foreign_text = Ok foreign_raw →
  let images := items_of [entry "a"; entry "b"; entry "c"] in
  ∃ hdrs p,
    (handler JSON_parse (post [entry "a"; entry "b"; entry "c"]) (Some "sk")
       0 ∅ (Completion [Some foreign_text])).1
    = Response 200 hdrs (PlanBody p)
    ∧ isValidSelection (selected_ordering foreign_raw) images 3 = Ok false
    ∧ deterministicFallback images 3 = Ok (ordered_ids p)
    ∧ ordered_ids p = ["a"; "b"; "c"]
    ∧ usedPlanner p = "ai"
    ∧ usedPlanner p ≠ "fallback".
Proof.
  intros Hparse images.
  rewrite (sequence_handler_accepted _ _ _ _ _
             [entry "a"; entry "b"; entry "c"])
    by (apply accepted_post;
        [simpl; unfold MAX_IMAGES; lia|done
        |repeat constructor; apply usable_entry]).
  erewrite plan_response_ok; last first.
  { rewrite (plan_from_model_parsed JSON_parse _ _ _ (trim foreign_text)
               foreign_raw);
      [reflexivity|apply items_of_normalized|reflexivity|exact Hparse]. }
  eexists _, _. split; [reflexivity|]. by split_and!.
Qed.

(** C6 (the code at the failing input): when the upstream call is
    rejected, an accepted request is still answered 200 with
    [{ ok: true, plan }]; the plan is built from the Fallback Orderer's
    ordering, has empty theme and emotion arc, the roles of the position
    quantiles and empty reasons only, and is tagged ["fallback"].  It
    carries the failure message as [error] unless the rejection is named
    [AbortError], which is the handler's test for the timeout.  The
    rejection that the timeout produces is not named so: after 30 s the
    handler aborts the call, and the provider's client rejects with
    [client_abort], an [Error] with the message "Request was aborted.".
    So on the timeout the plan carries that message as [error], where the
    specification has none. *)
Theorem handler_upstream_failure req api_key now rateLimitMap entries :
  accepted req api_key now rateLimitMap entries →
  let images := items_of entries in
  (∀ e, ∃ p,
     (handler JSON_parse req api_key now rateLimitMap (Rejected e)).1
     = Response 200 [json_header] (PlanBody p)
     ∧ deterministicFallback images (length images) = Ok (ordered_ids p)
     ∧ theme p = VStr "" ∧ emotion_arc p = []
     ∧ shots p = quantile_shots (ordered_ids p)
     ∧ usedPlanner p = "fallback"
     ∧ plan_error p
       = (if decide (err_name e = "AbortError") then None
          else Some (err_message e)))
  ∧ (∃ p,
     (handler JSON_parse req api_key now rateLimitMap
        (Rejected client_abort)).1
     = Response 200 [json_header] (PlanBody p)
     ∧ usedPlanner p = "fallback"
     ∧ plan_error p = Some "Request was aborted.").
Proof.
  intros Hacc images.
  assert (∀ e,
            (handler JSON_parse req api_key now rateLimitMap (Rejected e)).1
            = Response 200 [json_header]
                (PlanBody
                   (Runs.degraded_plan (id_texts images)
                      (if String.eqb (err_name e) "AbortError" then None
                       else Some (err_message e))))) as Hresp.
  { intros e.
    rewrite (sequence_handler_accepted _ _ _ _ _ entries) by done.
    rewrite plan_response_rejected,
      fallback_plan_eq by apply items_of_normalized.
    simpl. by rewrite <-(items_of_length entries), firstn_all. }
  split.
  - intros e. rewrite Hresp. eexists. split; [reflexivity|]. simpl.
    split_and!; try done.
    + rewrite deterministicFallback_all.
      apply image_ids_normalized, items_of_normalized.
    + apply positional_shots_quantile.
      rewrite id_texts_length. unfold images. rewrite items_of_length.
      destruct Hacc as (_ & _ & _ & [_ Hmax] & _).
      unfold MAX_IMAGES in Hmax. lia.
    + destruct (String.eqb_spec (err_name e) "AbortError");
        [by rewrite decide_True|by rewrite decide_False].
  - rewrite Hresp. eexists. by split_and!.
Qed.

End Requests.

Lemma handler_repeated_ids_pass_witness :
  ∃ hdrs p,
    (handler (reads repeated_text repeated_raw) (post [entry "a"; entry "b"])
       (Some "sk") 0 ∅ (Completion [Some repeated_text])).1
    = Response 200 hdrs (PlanBody p)
    ∧ image_ids (items_of [entry "a"; entry "b"]) = Ok ["a"; "b"]
    ∧ ordered_ids p = ["a"; "a"]
    ∧ usedPlanner p = "ai"
    ∧ ¬ ordered_ids p ≡ₚ ["a"; "b"].
Proof.
  apply (handler_repeated_ids_pass (reads repeated_text repeated_raw)).
  reflexivity.
Defined.

Lemma handler_invalid_ordering_tag_witness :
  ∃ hdrs p,
    (handler (reads foreign_text foreign_raw)
       (post [entry "a"; entry "b"; entry "c"]) (Some "sk")
       0 ∅ (Completion [Some foreign_text])).1
    = Response 200 hdrs (PlanBody p)
    ∧ isValidSelection (selected_ordering foreign_raw)
        (items_of [entry "a"; entry "b"; entry "c"]) 3 = Ok false
    ∧ deterministicFallback
        (items_of [entry "a"; entry "b"; entry "c"]) 3 = Ok (ordered_ids p)
    ∧ ordered_ids p = ["a"; "b"; "c"]
    ∧ usedPlanner p = "ai"
    ∧ usedPlanner p ≠ "fallback".
Proof.
  apply (handler_invalid_ordering_tag (reads foreign_text foreign_raw)).
  reflexivity.
Defined.

Lemma handler_upstream_failure_witness :
  (∃ p,
     (handler (reads repeated_text repeated_raw) (post [entry "a"; entry "b"])
        (Some "sk") 0 ∅ (Rejected client_abort)).1
     = Response 200 [json_header] (PlanBody p)
     ∧ ordered_ids p = ["a"; "b"] ∧ theme p = VStr "" ∧ emotion_arc p = []
     ∧ shots p = quantile_shots (ordered_ids p)
     ∧ usedPlanner p = "fallback"
     ∧ plan_error p = Some "Request was aborted.")
  ∧ (∃ p,
     (handler (reads repeated_text repeated_raw) (post [entry "a"; entry "b"])
        (Some "sk") 0 ∅
        (Rejected (JsError "AbortError" "This operation was aborted"))).1
     = Response 200 [json_header] (PlanBody p)
     ∧ ordered_ids p = ["a"; "b"] ∧ theme p = VStr "" ∧ emotion_arc p = []
     ∧ shots p = quantile_shots (ordered_ids p)
     ∧ usedPlanner p = "fallback" ∧ plan_error p = None).
Proof.
  assert (accepted (post [entry "a"; entry "b"]) (Some "sk") 0 ∅
            [entry "a"; entry "b"]) as Hacc.
  { apply accepted_post; [simpl; unfold MAX_IMAGES; lia|done|].
    repeat constructor; apply usable_entry. }
  destruct (handler_upstream_failure (reads repeated_text repeated_raw)
              _ _ _ _ _ Hacc) as [Hall _].
  split.
  - destruct (Hall client_abort)
      as (p & Hp & Hids & Ht & Ha & Hs & Hu & He).
    exists p. split_and!; try done. by injection Hids.
  - destruct (Hall (JsError "AbortError" "This operation was aborted"))
      as (p & Hp & Hids & Ht & Ha & Hs & Hu & He).
    exists p. split_and!; try done. by injection Hids.
Defined.
End SequenceProps.

(** ** The vision endpoint *)

Module VisionProps.
Import Vision.

Lemma letters_succ n : letters (N.succ n) = String "A" (letters n).
Proof. unfold letters. by rewrite N.iter_succ. Qed.

Lemma strlen_letters n : strlen (letters n) = n.
Proof.
  induction n as [|n IH] using N.peano_ind; [done|].
  rewrite letters_succ. cbn [strlen]. by rewrite IH.
Qed.

Lemma includes_comma_letters n : includes "," (letters n) = false.
Proof.
  induction n as [|n IH] using N.peano_ind; [done|].
  rewrite letters_succ. cbn [includes starts_with]. by rewrite IH.
Qed.

Section Loop.
Context (JSON_parse : string → result value).
Context (responses_create : call → upstream).

Local Abbreviation analyze_photo := (analyze_photo JSON_parse responses_create).
Local Abbreviation analyze_loop := (analyze_loop JSON_parse responses_create).
Local Abbreviation handler := (handler JSON_parse responses_create).

Lemma analyze_photo_too_large modelName p :
  too_large p = true →
  analyze_photo modelName p = (createFallbackAnalysis (filename p), []).
Proof. intros H. unfold Vision.analyze_photo. by rewrite H. Qed.

Lemma analyze_photo_calls modelName p :
  (analyze_photo modelName p).2
  = if too_large p then [] else [request_of modelName p].
Proof. unfold Vision.analyze_photo. by destruct (too_large p). Qed.

Lemma analyze_loop_map modelName photos analysisResults calls :
  analyze_loop modelName photos analysisResults calls
  = (analysisResults ++ ((λ p, (analyze_photo modelName p).1) <$> photos),
     calls ++ mjoin ((λ p, (analyze_photo modelName p).2) <$> photos)).
Proof.
  revert analysisResults calls.
  induction photos as [|p photos IH]; intros analysisResults calls; simpl.
  - by rewrite !app_nil_r.
  - destruct (analyze_photo modelName p) as [entry made] eqn:Hp.
    rewrite IH. simpl. by rewrite <-!app_assoc.
Qed.

Lemma calls_filter modelName photos :
  mjoin ((λ p, (analyze_photo modelName p).2) <$> photos)
  = request_of modelName <$> filter (λ p, too_large p = false) photos.
Proof.
  induction photos as [|p photos IH]; [done|].
  rewrite fmap_cons, filter_cons. simpl. rewrite IH, analyze_photo_calls.
  destruct (too_large p); [by rewrite decide_False|by rewrite decide_True].
Qed.

Lemma filter_too_large_delete (photos : list photo) (idx : nat) p :
  photos !! idx = Some p → too_large p = true →
  filter (λ p, too_large p = false) (delete idx photos)
  = filter (λ p, too_large p = false) photos.
Proof.
  revert idx. induction photos as [|q photos IH]; intros idx Hidx Hp; [done|].
  destruct idx as [|idx]; simpl in *.
  - injection Hidx as ->. rewrite filter_cons, decide_False; [done|congruence].
  - rewrite !filter_cons. by rewrite (IH idx).
Qed.

(** Taking a photo that is too large out of the batch changes neither the
    entries of the others nor the calls made. *)
Lemma analyze_loop_delete modelName photos idx p :
  photos !! idx = Some p → too_large p = true →
  analyze_loop modelName (delete idx photos) [] []
  = (delete idx (analyze_loop modelName photos [] []).1,
     (analyze_loop modelName photos [] []).2).
Proof.
  intros Hidx Hp. rewrite !analyze_loop_map. simpl.
  rewrite !calls_filter, list_fmap_delete.
  by rewrite (filter_too_large_delete _ _ p).
Qed.

Lemma vision_handler_accepted req api_key modelName now rateLimitMap photos :
  accepted req api_key now rateLimitMap photos →
  (handler req api_key modelName now rateLimitMap).1
  = (Response 200
       [json_header;
        ("X-RateLimit-Remaining",
         pretty (RateLimit.remaining (rate_decision req now rateLimitMap)))]
       (ResultsBody ((λ p, (analyze_photo modelName p).1) <$> photos)
          (length photos)),
     request_of modelName <$> filter (λ p, too_large p = false) photos).
Proof.
  intros (Hm & Hallow & Hbody & [Hpos Hmax] & (key & -> & Hkey)).
  unfold Vision.handler, rate_decision in *. rewrite Hm. simpl.
  destruct (RateLimit.checkRateLimit _ _ _) as [rateLimit rateLimitMap'].
  simpl in *. rewrite Hallow. simpl.
  unfold handle_body. rewrite Hbody.
  destruct (length photos =? 0)%nat eqn:H0.
  { apply Nat.eqb_eq in H0. lia. }
  destruct (MAX_PHOTOS <? length photos)%nat eqn:H1.
  { apply Nat.ltb_lt in H1. lia. }
  simpl. destruct (String.eqb_spec key "") as [->|_]; [done|]. simpl.
  rewrite analyze_loop_map. simpl.
  rewrite length_fmap, Nat.eqb_refl. simpl.
  by rewrite calls_filter.
Qed.

(** C10: in an accepted batch the results hold one entry per photo, in
    request order, each a function of its own photo only.  A photo whose
    base64 payload is longer than 13,300,000 characters gets the canned
    fallback analysis of its filename as its entry and is never sent: the
    calls made are those of the photos that are not too large, in order,
    and the entries of the other photos and the calls are what they are
    without that photo in the batch. *)
Theorem handler_oversize_photo
    req api_key modelName now rateLimitMap photos :
  accepted req api_key now rateLimitMap photos →
  ∃ hdrs results calls,
    (handler req api_key modelName now rateLimitMap).1
    = (Response 200 hdrs (ResultsBody results (length photos)), calls)
    ∧ length results = length photos
    ∧ (∀ idx p, photos !! idx = Some p →
         results !! idx = Some (analyze_photo modelName p).1)
    ∧ calls
      = request_of modelName <$> filter (λ p, too_large p = false) photos
    ∧ (∀ idx p, photos !! idx = Some p →
         (MAX_BASE64_LENGTH < strlen (base64_of p))%N →
         results !! idx = Some (createFallbackAnalysis (filename p))
         ∧ (analyze_photo modelName p).2 = []
         ∧ (p ∉ filter (λ p, too_large p = false) photos)
         ∧ analyze_loop modelName (delete idx photos) [] []
           = (delete idx results, calls)).
Proof.
  intros Hacc. rewrite (vision_handler_accepted _ _ _ _ _ photos) by done.
  eexists _, _, _. split; [reflexivity|].
  split_and!; [by rewrite length_fmap| |done|].
  - intros idx p Hidx. by rewrite list_lookup_fmap, Hidx.
  - intros idx p Hidx Hlarge.
    assert (too_large p = true) as Ht by (by apply N.ltb_lt).
    rewrite list_lookup_fmap, Hidx. simpl.
    rewrite analyze_photo_too_large by done. split_and!; [done..| |].
    + intros [Hf _]%list_elem_of_filter. congruence.
    + rewrite (analyze_loop_delete _ _ _ p) by done.
      rewrite analyze_loop_map. simpl. by rewrite calls_filter.
Qed.

End Loop.

Lemma handler_oversize_photo_witness :
  ∃ hdrs results calls,
    (handler reads_empty_object answers_empty_object (post [small_photo; large_photo])
       (Some "sk") "gpt-4.1-mini" 0 ∅).1
    = (Response 200 hdrs (ResultsBody results 2), calls)
    ∧ results !! 1%nat = Some (createFallbackAnalysis "sky.jpg")
    ∧ results !! 0%nat
      = Some (analyze_photo reads_empty_object answers_empty_object "gpt-4.1-mini" small_photo).1
    ∧ calls = request_of "gpt-4.1-mini"
                <$> filter (λ p, too_large p = false) [small_photo; large_photo]
    ∧ large_photo ∉ filter (λ p, too_large p = false) [small_photo; large_photo].
Proof.
  assert (accepted (post [small_photo; large_photo]) (Some "sk") 0 ∅
            [small_photo; large_photo]) as Hacc.
  { split_and!; [reflexivity..| | |by exists "sk"].
    - cbn [length]. lia.
    - cbn [length]. unfold MAX_PHOTOS. lia. }
  destruct (handler_oversize_photo reads_empty_object answers_empty_object _ _ "gpt-4.1-mini"
              _ _ _ Hacc)
    as (hdrs & results & calls & Hresp & _ & Hown & Hcalls & Hlarge).
  exists hdrs, results, calls. split; [exact Hresp|].
  assert (MAX_BASE64_LENGTH < strlen (base64_of large_photo))%N as Hbig.
  { unfold base64_of, large_photo. cbn [data].
    rewrite includes_comma_letters, strlen_letters.
    unfold MAX_BASE64_LENGTH. lia. }
  destruct (Hlarge 1%nat large_photo eq_refl Hbig) as (Hentry & _ & Hnot & _).
  split_and!; [exact Hentry|by apply Hown|exact Hcalls|exact Hnot].
Defined.

End VisionProps.

(** ** White space and cleaning *)

Module CleaningProps.
Import Runs ParserProps.

Lemma trimStart_starts s : starts_space (trimStart s) = false.
Proof.
  induction s as [|c rest IH]; [done|]. cbn [trimStart].
  destruct (is_space c) eqn:Hc; [done|]. simpl. by rewrite Hc.
Qed.

Lemma trimStart_id s : starts_space s = false → trimStart s = s.
Proof. destruct s as [|c rest]; [done|]. simpl. by intros ->. Qed.

Lemma trimEnd_ends s : ends_space (trimEnd s) = false.
Proof.
  induction s as [|c rest IH]; [done|]. cbn [trimEnd].
  destruct (trimEnd rest) as [|k kept].
  - destruct (is_space c) eqn:Hc; [done|]. simpl. by rewrite Hc.
  - done.
Qed.

Lemma trimEnd_id s : ends_space s = false → trimEnd s = s.
Proof.
  induction s as [|c rest IH]; [done|]. intros He. cbn [trimEnd].
  destruct rest as [|k rest]; [simpl in *; by rewrite He|].
  rewrite IH by done. done.
Qed.

Lemma trimEnd_starts s : starts_space s = false → starts_space (trimEnd s) = false.
Proof.
  destruct s as [|c rest]; [done|]. simpl. intros Hc.
  destruct (trimEnd rest); simpl; by rewrite Hc.
Qed.

Lemma trim_starts s : starts_space (trim s) = false.
Proof. apply trimEnd_starts, trimStart_starts. Qed.

Lemma trim_trim s : trim (trim s) = trim s.
Proof.
  unfold trim. rewrite (trimStart_id (trimEnd _)).
  - apply trimEnd_id, trimEnd_ends.
  - apply trim_starts.
Qed.

Lemma trim_no_fence s : has_fence s = false → has_fence (trim s) = false.
Proof.
  intros H. apply not_true_is_false. intros Ht%includes_trim.
  unfold has_fence in *. congruence.
Qed.

(** X1: the text that [safeParseJSON] hands to [JSON.parse] is stable under
    the cleaning step: cleaning it a second time changes nothing, and it
    neither starts nor ends with white space. *)
Theorem clean_fixpoint text :
  clean (clean text) = clean text
  ∧ starts_space (clean text) = false
  ∧ ends_space (clean text) = false.
Proof.
  split_and!.
  - rewrite (clean_id (clean text)) by apply clean_no_fence.
    unfold clean. apply trim_trim.
  - apply trim_starts.
  - apply trimEnd_ends.
Qed.

(** X2: for a document without a triple backtick, [safeParseJSON] returns
    for the document wrapped in a fence tagged [json], wrapped in a plain
    fence, or trimmed, what it returns for the document itself. *)
Theorem safeParseJSON_wrapping (JSON_parse : string → result value)
    doc fallback :
  has_fence doc = false →
  safeParseJSON JSON_parse (fenced "json" doc) fallback
  = safeParseJSON JSON_parse doc fallback
  ∧ safeParseJSON JSON_parse (fenced "" doc) fallback
    = safeParseJSON JSON_parse doc fallback
  ∧ safeParseJSON JSON_parse (trim doc) fallback
    = safeParseJSON JSON_parse doc fallback.
Proof.
  intros Hdoc. unfold safeParseJSON.
  rewrite clean_fenced_json, clean_fenced_plain by done.
  rewrite (clean_id doc) by done.
  rewrite (clean_id (trim doc)) by by apply trim_no_fence.
  by rewrite trim_trim.
Qed.

Lemma safeParseJSON_wrapping_witness :
  safeParseJSON (reads "{}" (VObj [])) (fenced "json" "{}") VNull
  = safeParseJSON (reads "{}" (VObj [])) "{}" VNull
  ∧ safeParseJSON (reads "{}" (VObj [])) (fenced "" "{}") VNull
    = safeParseJSON (reads "{}" (VObj [])) "{}" VNull
  ∧ safeParseJSON (reads "{}" (VObj [])) (trim "{}") VNull
    = safeParseJSON (reads "{}" (VObj [])) "{}" VNull.
Proof.
  apply (safeParseJSON_wrapping (reads "{}" (VObj [])) "{}" VNull).
  reflexivity.
Defined.

End CleaningProps.

(** ** Segments of a text *)

Module SegmentProps.
Import ParserProps.

Lemma includes_char sep c s :
  includes (String sep "") (String c s)
  = Ascii.eqb sep c || includes (String sep "") s.
Proof. cbn [includes starts_with]. by rewrite andb_true_r. Qed.

Lemma includes_char_app sep stem s :
  includes (String sep "") s = true →
  includes (String sep "") (stem +:+ s) = true.
Proof.
  intros H. induction stem as [|c stem IH]; [by rewrite append_nil|].
  rewrite append_cons, includes_char, IH. apply orb_true_r.
Qed.

Lemma last_segment_id sep s :
  includes (String sep "") s = false → Vision.last_segment sep s = s.
Proof. destruct s; [done|]. cbn [Vision.last_segment]. by intros ->. Qed.

Lemma last_segment_ext sep stem ext :
  includes (String sep "") ext = false →
  Vision.last_segment sep (stem +:+ String sep ext) = ext.
Proof.
  intros Hext. induction stem as [|c stem IH].
  - rewrite append_nil. cbn [Vision.last_segment].
    rewrite includes_char, Ascii.eqb_refl. simpl. by apply last_segment_id.
  - rewrite append_cons. cbn [Vision.last_segment].
    rewrite includes_char, includes_char_app, orb_true_r; [done|].
    by rewrite includes_char, Ascii.eqb_refl.
Qed.

Lemma first_segment_no_comma s :
  includes "," (RateLimit.first_segment s) = false.
Proof.
  induction s as [|c s IH]; [done|]. cbn [RateLimit.first_segment].
  destruct (Ascii.eqb c ",") eqn:Hc; [done|].
  by rewrite includes_char, Ascii.eqb_sym, Hc, IH.
Qed.

Lemma first_segment_id s :
  includes "," s = false → RateLimit.first_segment s = s.
Proof.
  induction s as [|c s IH]; [done|]. rewrite includes_char.
  intros [Hc Hs]%orb_false_iff. cbn [RateLimit.first_segment].
  rewrite Ascii.eqb_sym, Hc. by rewrite IH.
Qed.

Lemma first_segment_app a rest :
  includes "," a = false →
  RateLimit.first_segment (a +:+ String "," rest) = a.
Proof.
  induction a as [|c a IH]; [done|]. rewrite includes_char.
  intros [Hc Hs]%orb_false_iff. rewrite append_cons.
  cbn [RateLimit.first_segment]. rewrite Ascii.eqb_sym, Hc. by rewrite IH.
Qed.

Lemma second_segment_no_comma s : includes "," (Vision.second_segment s) = false.
Proof.
  induction s as [|c s IH]; [done|]. cbn [Vision.second_segment].
  destruct (Ascii.eqb c ","); [apply first_segment_no_comma|done].
Qed.

Lemma second_segment_app a s :
  includes "," a = false →
  Vision.second_segment (a +:+ String "," s) = RateLimit.first_segment s.
Proof.
  induction a as [|c a IH]; [done|]. rewrite includes_char.
  intros [Hc Hs]%orb_false_iff. rewrite append_cons.
  cbn [Vision.second_segment]. rewrite Ascii.eqb_sym, Hc. by rewrite IH.
Qed.

End SegmentProps.

(** ** The rate limiter *)

Module RateLimitProps.
Import RateLimit Runs SegmentProps.

Local Open Scope Z_scope.

Lemma checkRateLimit_opens ip now (m : gmap string record) :
  no_window (getRateLimitKey ip) now m →
  checkRateLimit ip now m
  = (Decision_ true 29,
     <[getRateLimitKey ip := Record_ 1 (now + RATE_LIMIT_WINDOW_MS)]> m).
Proof.
  unfold no_window, checkRateLimit. intros Hno.
  destruct (m !! getRateLimitKey ip) as [r|]; [|done].
  apply Z.ltb_lt in Hno. by rewrite Hno.
Qed.

Lemma checkRateLimit_counts ip now (m : gmap string record) r :
  m !! getRateLimitKey ip = Some r → now ≤ resetAt r →
  checkRateLimit ip now m
  = if decide (count r < RATE_LIMIT_MAX_REQUESTS)
    then (Decision_ true (RATE_LIMIT_MAX_REQUESTS - (count r + 1)),
          <[getRateLimitKey ip := Record_ (count r + 1) (resetAt r)]> m)
    else (Decision_ false 0, m).
Proof.
  unfold checkRateLimit. intros -> Hlive.
  assert ((resetAt r <? now) = false) as -> by by apply Z.ltb_ge.
  case_decide as Hc.
  - assert ((RATE_LIMIT_MAX_REQUESTS <=? count r) = false) as ->; [|done].
    apply Z.leb_gt. lia.
  - assert ((RATE_LIMIT_MAX_REQUESTS <=? count r) = true) as ->; [|done].
    apply Z.leb_le. lia.
Qed.

(** Inside an open window: the decisions from a record that has already
    counted some requests. *)
Lemma serve_limiter_in_window ip times (m : gmap string record) r :
  m !! getRateLimitKey ip = Some r →
  1 ≤ count r ≤ RATE_LIMIT_MAX_REQUESTS →
  Forall (λ now, now ≤ resetAt r) times →
  (serve_limiter ip times m).1
  = imap (λ j _, window_decision (Z.to_nat (count r) + j)) times.
Proof.
  revert m r. induction times as [|now times IH]; intros m r Hr Hc Hlive;
    [done|].
  apply Forall_cons in Hlive as [Hnow Hlive]. cbn [serve_limiter].
  rewrite (checkRateLimit_counts _ _ _ r) by done.
  unfold RATE_LIMIT_MAX_REQUESTS in *.
  case_decide as Hlt.
  - specialize (IH (<[getRateLimitKey ip := Record_ (count r + 1) (resetAt r)]> m)
                  (Record_ (count r + 1) (resetAt r))).
    rewrite lookup_insert_eq in IH.
    specialize (IH eq_refl ltac:(simpl; lia) Hlive).
    destruct (serve_limiter _ _ _) as [ds m']. simpl in *. f_equal.
    + unfold window_decision. rewrite decide_True by lia.
      f_equal. lia.
    + rewrite IH. apply imap_ext. intros j t _. simpl. f_equal. lia.
  - specialize (IH m r Hr Hc Hlive).
    destruct (serve_limiter _ _ _) as [ds m']. simpl in *. f_equal.
    + unfold window_decision. by rewrite decide_False by lia.
    + rewrite IH. apply imap_ext. intros j t _. simpl.
      unfold window_decision. by rewrite !decide_False by lia.
Qed.

Lemma serve_limiter_fresh ip now times (m : gmap string record) :
  no_window (getRateLimitKey ip) now m →
  Forall (λ t, t ≤ now + RATE_LIMIT_WINDOW_MS) times →
  (serve_limiter ip (now :: times) m).1
  = imap (λ i _, window_decision i) (now :: times).
Proof.
  intros Hno Hlive. cbn [serve_limiter].
  rewrite checkRateLimit_opens by done.
  pose proof (serve_limiter_in_window ip times
    (<[getRateLimitKey ip := Record_ 1 (now + RATE_LIMIT_WINDOW_MS)]> m)
    (Record_ 1 (now + RATE_LIMIT_WINDOW_MS))) as Hin.
  rewrite lookup_insert_eq in Hin.
  specialize (Hin eq_refl ltac:(simpl; unfold RATE_LIMIT_MAX_REQUESTS; lia) Hlive).
  destruct (serve_limiter _ _ _) as [ds m']. simpl in *. f_equal.
  rewrite Hin. apply imap_ext. intros j t _. simpl. f_equal.
Qed.

(** X3: when a client has no open window (no record, or an expired one),
    its request opens one, and of the requests that arrive until the
    window closes, that one included, exactly the first 30 are allowed:
    request number [i] (from 0) is told [remaining = 29 - i] while allowed,
    and [remaining = 0] once refused. *)
Theorem serve_limiter_window ip now times (m : gmap string record) :
  no_window (getRateLimitKey ip) now m →
  Forall (λ t, t ≤ now + RATE_LIMIT_WINDOW_MS) times →
  let decisions := (serve_limiter ip (now :: times) m).1 in
  length decisions = S (length times)
  ∧ ∀ (i : nat) d, decisions !! i = Some d →
      (allowed d = true ↔ (i < 30)%nat)
      ∧ remaining d = Z.max 0 (29 - Z.of_nat i).
Proof.
  intros Hno Hlive decisions. unfold decisions.
  rewrite serve_limiter_fresh by done. split.
  - by rewrite length_imap.
  - intros i d. rewrite list_lookup_imap.
    destruct ((now :: times) !! i); [|done]. intros [= <-].
    unfold window_decision. case_decide; simpl; (split; [split|]); done || lia.
Qed.

Lemma serve_limiter_window_witness :
  length (serve_limiter None (0 :: replicate 30 5) ∅).1 = 31%nat
  ∧ (∃ d, (serve_limiter None (0 :: replicate 30 5) ∅).1 !! 29%nat = Some d
          ∧ allowed d = true ∧ remaining d = 0)
  ∧ (∃ d, (serve_limiter None (0 :: replicate 30 5) ∅).1 !! 30%nat = Some d
          ∧ ¬ allowed d = true ∧ remaining d = 0).
Proof.
  assert (no_window (getRateLimitKey None) 0 ∅) as Hno by done.
  assert (Forall (λ t, t ≤ 0 + RATE_LIMIT_WINDOW_MS) (replicate 30 5))
    as Hlive.
  { apply Forall_replicate. unfold RATE_LIMIT_WINDOW_MS. lia. }
  destruct (serve_limiter_window None 0 (replicate 30 5) ∅ Hno Hlive)
    as [Hlen Hd].
  split; [exact Hlen|]. split.
  - eexists. split; [vm_compute; reflexivity|].
    destruct (Hd 29%nat _ ltac:(vm_compute; reflexivity)) as [Ha Hr].
    split; [apply Ha; lia|exact Hr].
  - eexists. split; [vm_compute; reflexivity|].
    destruct (Hd 30%nat _ ltac:(vm_compute; reflexivity)) as [Ha Hr].
    split; [intros H%Ha; lia|exact Hr].
Defined.

(** X4: [checkRateLimit] touches no record but the caller's own: the
    record under any other key is what it was before the call. *)
Theorem checkRateLimit_frame ip now (m : gmap string record) key :
  key ≠ getRateLimitKey ip →
  (checkRateLimit ip now m).2 !! key = m !! key.
Proof.
  intros Hne. unfold checkRateLimit.
  destruct (m !! getRateLimitKey ip) as [r|]; simpl;
    repeat case_match; simpl; by rewrite ?lookup_insert_ne.
Qed.

Lemma checkRateLimit_frame_witness :
  (checkRateLimit (Some "203.0.113.7") 50
     {["198.51.100.4" := Record_ 30 100]}).2 !! "198.51.100.4"
  = Some (Record_ 30 100).
Proof.
  rewrite (checkRateLimit_frame (Some "203.0.113.7") 50
             {["198.51.100.4" := Record_ 30 100]} "198.51.100.4");
    [reflexivity|discriminate].
Defined.

(** X5: if every record counts between 1 and 30 requests, so does every
    record after a call of [checkRateLimit], and [remaining] lies between 0
    and 29.  An allowed caller has a record whose window is still open and
    is told [30 - count]; a refused caller leaves the map as it was, is
    told 0, and had a record with the full count of 30 in an open window. *)
Theorem checkRateLimit_bounded ip now (m : gmap string record) :
  counts_bounded m →
  let '(d, m') := checkRateLimit ip now m in
  counts_bounded m'
  ∧ 0 ≤ remaining d < RATE_LIMIT_MAX_REQUESTS
  ∧ (allowed d = true →
     ∃ r, m' !! getRateLimitKey ip = Some r
          ∧ remaining d = RATE_LIMIT_MAX_REQUESTS - count r
          ∧ now ≤ resetAt r)
  ∧ (allowed d = false →
     m' = m ∧ remaining d = 0
     ∧ ∃ r, m !! getRateLimitKey ip = Some r
            ∧ count r = RATE_LIMIT_MAX_REQUESTS ∧ now ≤ resetAt r).
Proof.
  intros Hb. unfold checkRateLimit, RATE_LIMIT_MAX_REQUESTS, RATE_LIMIT_WINDOW_MS in *.
  assert (∀ c reset, 1 ≤ c ≤ 30 →
            counts_bounded (<[getRateLimitKey ip := Record_ c reset]> m))
    as Hins.
  { intros c reset Hc key r. unfold RATE_LIMIT_MAX_REQUESTS.
    destruct (decide (key = getRateLimitKey ip)) as [->|Hne].
    - rewrite lookup_insert_eq. by intros [= <-].
    - rewrite lookup_insert_ne by done. apply Hb. }
  destruct (m !! getRateLimitKey ip) as [r|] eqn:Hr.
  - pose proof (Hb _ _ Hr) as Hc. unfold RATE_LIMIT_MAX_REQUESTS in Hc.
    destruct (resetAt r <? now) eqn:Hexp.
    + split_and!; [apply Hins; lia|simpl; lia..| |done].
      intros _. rewrite lookup_insert_eq. eexists. split_and!; [done|..]; simpl; lia.
    + apply Z.ltb_ge in Hexp.
      destruct (30 <=? count r) eqn:Hfull.
      * apply Z.leb_le in Hfull. split_and!; [done|simpl; lia..|done|].
        intros _. split_and!; [done..|]. exists r. split_and!; [done|lia|done].
      * apply Z.leb_gt in Hfull. split_and!; [apply Hins; lia|simpl; lia..| |done].
        intros _. rewrite lookup_insert_eq. eexists. split_and!; [done|..]; simpl; lia.
  - split_and!; [apply Hins; lia|simpl; lia..| |done].
    intros _. rewrite lookup_insert_eq. eexists. split_and!; [done|..]; simpl; lia.
Qed.

Lemma checkRateLimit_bounded_witness :
  let '(d, m') :=
    checkRateLimit (Some "198.51.100.4") 50
      {["198.51.100.4" := Record_ 30 100]} in
  counts_bounded m'
  ∧ 0 ≤ remaining d < RATE_LIMIT_MAX_REQUESTS
  ∧ (allowed d = true →
     ∃ r, m' !! getRateLimitKey (Some "198.51.100.4") = Some r
          ∧ remaining d = RATE_LIMIT_MAX_REQUESTS - count r
          ∧ 50 ≤ resetAt r)
  ∧ (allowed d = false →
     m' = {["198.51.100.4" := Record_ 30 100]} ∧ remaining d = 0
     ∧ ∃ r, ({["198.51.100.4" := Record_ 30 100]} : gmap string record)
              !! getRateLimitKey (Some "198.51.100.4") = Some r
            ∧ count r = RATE_LIMIT_MAX_REQUESTS ∧ 50 ≤ resetAt r).
Proof.
  apply (checkRateLimit_bounded (Some "198.51.100.4") 50
           {["198.51.100.4" := Record_ 30 100]}).
  intros key r [<- <-]%lookup_singleton_Some. simpl.
  unfold RATE_LIMIT_MAX_REQUESTS. lia.
Defined.

(** X6: the key under which a request is counted is never empty.  It is
    the trimmed first address of [x-forwarded-for] when that is not blank,
    whatever follows the first comma and whatever [x-real-ip] says; when
    the header is absent or its first address blank, it is [x-real-ip] if
    that is not empty, and ["unknown"] otherwise. *)
Theorem rate_key x_forwarded_for x_real_ip :
  let key := getRateLimitKey (clientIp x_forwarded_for x_real_ip) in
  key ≠ ""
  ∧ (∀ a rest, includes "," a = false → trim a ≠ "" →
       x_forwarded_for = Some a
       ∨ x_forwarded_for = Some (a +:+ "," +:+ rest) →
       key = trim a)
  ∧ ((∀ s, x_forwarded_for = Some s → trim (first_segment s) = "") →
     key = match x_real_ip with
           | Some b => if String.eqb b "" then "unknown" else b
           | None => "unknown"
           end).
Proof.
  intros key. unfold key, clientIp, getRateLimitKey, nonempty. split_and!.
  - destruct x_forwarded_for as [s|]; simpl.
    + destruct (String.eqb_spec (trim (first_segment s)) "") as [He|He].
      * destruct x_real_ip as [b|]; [|done].
        destruct (String.eqb_spec b "") as [|Hb]; [done|].
        by destruct (String.eqb_spec b "").
      * by destruct (String.eqb_spec (trim (first_segment s)) "").
    + destruct x_real_ip as [b|]; [|done].
      destruct (String.eqb_spec b "") as [|Hb]; [done|].
      by destruct (String.eqb_spec b "").
  - intros a rest Ha Htrim Hx.
    assert (∃ s, x_forwarded_for = Some s ∧ first_segment s = a)
      as (s & -> & Hs).
    { destruct Hx as [-> | ->]; eexists; (split; [done|]).
      - by apply first_segment_id.
      - by apply (first_segment_app a rest). }
    simpl. rewrite Hs.
    destruct (String.eqb_spec (trim a) "") as [|_]; [done|].
    by destruct (String.eqb_spec (trim a) "").
  - intros Hblank. destruct x_forwarded_for as [s|]; simpl.
    + rewrite (Hblank s eq_refl). simpl.
      destruct x_real_ip as [b|]; [|done].
      destruct (String.eqb_spec b "") as [|Hb]; [done|].
      by destruct (String.eqb_spec b "").
    + destruct x_real_ip as [b|]; [|done].
      destruct (String.eqb_spec b "") as [|Hb]; [done|].
      by destruct (String.eqb_spec b "").
Qed.

End RateLimitProps.

(** ** The sequence endpoint: gates and routes *)

Module SequenceGates.
Import Sequence Runs JSProps SequenceProps.

Section Gates.
Context (JSON_parse : string → result value).

Lemma handler_not_post req api_key now rateLimitMap up :
  req_method req ≠ "POST" →
  handler JSON_parse req api_key now rateLimitMap up
  = (Response 405 [json_header] (ErrorBody "Method not allowed" None),
     rateLimitMap).
Proof.
  intros Hm. unfold handler.
  destruct (String.eqb_spec (req_method req) "POST"); done.
Qed.

Lemma handler_post req api_key now rateLimitMap up :
  req_method req = "POST" →
  handler JSON_parse req api_key now rateLimitMap up
  = (if RateLimit.allowed (rate_decision req now rateLimitMap)
     then match handle_body JSON_parse req api_key up
                  (RateLimit.remaining (rate_decision req now rateLimitMap))
          with
          | Ok r => r
          | Throw error => sequence_failure error
          end
     else Response 429
            [json_header; ("X-RateLimit-Remaining", "0");
             ("Retry-After", "600")]
            (ErrorBody "Rate limit exceeded"
               (Some "Too many requests. Please try again later.")),
     (RateLimit.checkRateLimit
        (RateLimit.clientIp (x_forwarded_for req) (x_real_ip req))
        now rateLimitMap).2).
Proof.
  intros Hm. unfold handler, rate_decision. rewrite Hm. simpl.
  destruct (RateLimit.checkRateLimit _ _ _) as [d m']. simpl.
  by destruct (RateLimit.allowed d).
Qed.

Lemma handle_body_reaches req api_key now rateLimitMap entries up remaining :
  reaches_normalization req api_key now rateLimitMap entries →
  handle_body JSON_parse req api_key up remaining
  = images ← normalize entries;
    plan_response JSON_parse images (length images) up remaining.
Proof.
  intros (_ & _ & (body & Hbody & Har) & [Hpos Hmax] & (key & -> & Hkey)).
  unfold handle_body. rewrite Hbody. simpl. rewrite Har. simpl.
  destruct (length entries =? 0)%nat eqn:H0.
  { apply Nat.eqb_eq in H0. lia. }
  destruct (MAX_IMAGES <? length entries)%nat eqn:H1.
  { apply Nat.ltb_lt in H1. lia. }
  assert (nullish body = false) as Hb by (by destruct body).
  rewrite (get_prop body) by done. simpl.
  by destruct (String.eqb_spec key "") as [->|_].
Qed.

Lemma handle_body_200 req api_key now rateLimitMap up remaining r :
  req_method req = "POST" →
  RateLimit.allowed (rate_decision req now rateLimitMap) = true →
  handle_body JSON_parse req api_key up remaining = Ok r →
  status r = 200%nat →
  ∃ entries, accepted req api_key now rateLimitMap entries.
Proof.
  intros Hm Hallow Hbody Hstatus. unfold handle_body in Hbody.
  destruct (req_json req) as [body|] eqn:Hjson; [|done]. simpl in Hbody.
  destruct (get body "analysisResults") as [ar|] eqn:Har; [|done].
  simpl in Hbody.
  destruct (negb (truthy ar) || negb (isArray ar)) eqn:Hgate.
  { injection Hbody as <-. done. }
  apply orb_false_iff in Hgate as [_ Harr%negb_false_iff].
  destruct ar as [| | | | | |entries|]; try done. simpl in Hbody.
  destruct (length entries =? 0)%nat eqn:H0.
  { injection Hbody as <-. done. }
  destruct (MAX_IMAGES <? length entries)%nat eqn:H1.
  { injection Hbody as <-. done. }
  destruct (get body "promptText"); [|done]. simpl in Hbody.
  destruct (negb (truthy (from_option VStr VUndefined api_key))) eqn:Hkey.
  { injection Hbody as <-. done. }
  destruct (normalize entries) as [images|] eqn:Hn; [|done].
  exists entries. split_and!; try done.
  - by exists body.
  - apply Nat.eqb_neq in H0. lia.
  - apply Nat.ltb_ge in H1. lia.
  - destruct api_key as [key|]; [|done]. exists key. split; [done|].
    intros ->. done.
  - by eapply normalize_ok_usable.
Qed.

Lemma handle_body_statuses req api_key up remaining r :
  handle_body JSON_parse req api_key up remaining = Ok r →
  status r = 200%nat ∨ status r = 400%nat ∨ status r = 500%nat.
Proof.
  intros Hbody. unfold handle_body in Hbody.
  destruct (req_json req) as [body|]; [|done]. simpl in Hbody.
  destruct (get body "analysisResults") as [ar|]; [|done]. simpl in Hbody.
  destruct (negb (truthy ar) || negb (isArray ar)).
  { injection Hbody as <-. auto. }
  destruct (length (elements ar) =? 0)%nat.
  { injection Hbody as <-. auto. }
  destruct (MAX_IMAGES <? length (elements ar))%nat.
  { injection Hbody as <-. auto. }
  destruct (get body "promptText"); [|done]. simpl in Hbody.
  destruct (negb (truthy (from_option VStr VUndefined api_key))).
  { injection Hbody as <-. auto. }
  destruct (normalize (elements ar)) as [images|] eqn:Hn; [|done].
  simpl in Hbody. apply normalize_inv in Hn as ->.
  destruct (plan_response_shape JSON_parse _ up remaining
              (items_of_normalized (elements ar)))
    as (hdrs & p & Hresp & _).
  rewrite Hresp in Hbody. injection Hbody as <-. auto.
Qed.

(** What the validation of the body decides, for a body that can be read. *)
Lemma handle_body_readable req api_key up remaining body :
  req_json req = Ok body → nullish body = false →
  handle_body JSON_parse req api_key up remaining
  = let analysisResults := prop body "analysisResults" in
    if negb (truthy analysisResults) || negb (isArray analysisResults) then
      Ok (Response 400 [json_header]
            (ErrorBody "analysisResults array required" None))
    else if (length (elements analysisResults) =? 0)%nat then
      Ok (Response 400 [json_header]
            (ErrorBody "analysisResults array cannot be empty" None))
    else if (MAX_IMAGES <? length (elements analysisResults))%nat then
      Ok (Response 400 [json_header]
            (ErrorBody ("Too many images (max " +:+ pretty MAX_IMAGES +:+ ")")
               None))
    else if negb (truthy (from_option VStr VUndefined api_key)) then
      Ok (Response 500 [json_header]
            (ErrorBody "Server configuration error" None))
    else
      images ← normalize (elements analysisResults);
      plan_response JSON_parse images (length images) up remaining.
Proof.
  intros Hbody Hb. unfold handle_body. rewrite Hbody. simpl.
  rewrite !(get_prop body) by done. simpl. reflexivity.
Qed.

Lemma handle_body_unreadable req api_key up remaining :
  (∀ body, req_json req = Ok body → nullish body = true) →
  ∃ e, handle_body JSON_parse req api_key up remaining = Throw e.
Proof.
  intros Hbody. unfold handle_body.
  destruct (req_json req) as [body|e]; [|by exists e]. simpl.
  specialize (Hbody body eq_refl).
  pose proof (get_nullish body "analysisResults" Hbody) as Hget.
  destruct (get body "analysisResults") as [|e]; [done|]. by exists e.
Qed.

(** The outcome of the body does not depend on the provider unless the
    request is accepted. *)
Lemma handle_body_upstream req api_key now rateLimitMap up up' remaining :
  req_method req = "POST" →
  RateLimit.allowed (rate_decision req now rateLimitMap) = true →
  handle_body JSON_parse req api_key up remaining
  = handle_body JSON_parse req api_key up' remaining
  ∨ ∃ entries, accepted req api_key now rateLimitMap entries.
Proof.
  intros Hm Hallow.
  destruct (handle_body JSON_parse req api_key up remaining) as [r|e] eqn:Hb.
  2:{ left. unfold handle_body in *.
      destruct (req_json req) as [body|]; [|done]. simpl in *.
      destruct (get body "analysisResults") as [ar|]; [|done]. simpl in *.
      destruct (negb (truthy ar) || negb (isArray ar)); [done|].
      destruct (length (elements ar) =? 0)%nat; [done|].
      destruct (MAX_IMAGES <? length (elements ar))%nat; [done|].
      destruct (get body "promptText"); [|done]. simpl in *.
      destruct (negb (truthy (from_option VStr VUndefined api_key))); [done|].
      destruct (normalize (elements ar)) as [images|] eqn:Hn; [|done].
      simpl in *. apply normalize_inv in Hn as ->.
      destruct (plan_response_shape JSON_parse _ up remaining
                  (items_of_normalized (elements ar)))
        as (hdrs & p & Hresp & _). congruence. }
  destruct (decide (status r = 200%nat)) as [H200|H200].
  { right. by eapply handle_body_200. }
  left. unfold handle_body in *.
  destruct (req_json req) as [body|]; [|done]. simpl in *.
  destruct (get body "analysisResults") as [ar|]; [|done]. simpl in *.
  destruct (negb (truthy ar) || negb (isArray ar)); [done|].
  destruct (length (elements ar) =? 0)%nat; [done|].
  destruct (MAX_IMAGES <? length (elements ar))%nat; [done|].
  destruct (get body "promptText"); [|done]. simpl in *.
  destruct (negb (truthy (from_option VStr VUndefined api_key))); [done|].
  destruct (normalize (elements ar)) as [images|] eqn:Hn; [|done].
  simpl in *. apply normalize_inv in Hn as ->.
  destruct (plan_response_shape JSON_parse _ up remaining
              (items_of_normalized (elements ar)))
    as (hdrs & p & Hresp & _).
  rewrite Hresp in Hb. injection Hb as <-. done.
Qed.

Lemma handle_body_unusable req body :
  req_json req = Ok body → nullish body = false →
  unusable (prop body "analysisResults") →
  ∃ msg, ∀ api_key up remaining,
    handle_body JSON_parse req api_key up remaining
    = Ok (Response 400 [json_header] (ErrorBody msg None)).
Proof.
  intros Hjson Hb Hun.
  destruct (negb (truthy (prop body "analysisResults"))
            || negb (isArray (prop body "analysisResults"))) eqn:Hgate.
  { eexists. intros. rewrite (handle_body_readable _ _ _ _ body) by done.
    cbv zeta. by rewrite Hgate. }
  destruct (length (elements (prop body "analysisResults")) =? 0)%nat eqn:H0.
  { eexists. intros. rewrite (handle_body_readable _ _ _ _ body) by done.
    cbv zeta. by rewrite Hgate, H0. }
  destruct (MAX_IMAGES <? length (elements (prop body "analysisResults")))%nat
    eqn:H1.
  { eexists. intros. rewrite (handle_body_readable _ _ _ _ body) by done.
    cbv zeta. by rewrite Hgate, H0, H1. }
  exfalso. apply orb_false_iff in Hgate as [_ Harr%negb_false_iff].
  destruct (prop body "analysisResults") as [| | | | | |entries|]; try done.
  simpl in *. apply Nat.eqb_neq in H0. apply Nat.ltb_ge in H1.
  destruct (Hun entries eq_refl); lia.
Qed.

Lemma handle_body_400 req api_key up remaining r :
  handle_body JSON_parse req api_key up remaining = Ok r →
  status r = 400%nat →
  ∃ body, req_json req = Ok body ∧ nullish body = false
          ∧ unusable (prop body "analysisResults").
Proof.
  intros Hbody Hs.
  destruct (req_json req) as [body|e] eqn:Hjson.
  2:{ unfold handle_body in Hbody. by rewrite Hjson in Hbody. }
  destruct (nullish body) eqn:Hb.
  { destruct (handle_body_unreadable req api_key up remaining) as [e He];
      [rewrite Hjson; by intros ? [= <-]|congruence]. }
  exists body. split_and!; [done..|].
  rewrite (handle_body_readable _ _ _ _ body) in Hbody by done.
  cbv zeta in Hbody. intros entries Har. rewrite Har in Hbody.
  simpl in Hbody.
  destruct (length entries =? 0)%nat eqn:H0.
  { apply Nat.eqb_eq in H0. by left. }
  destruct (MAX_IMAGES <? length entries)%nat eqn:H1.
  { apply Nat.ltb_lt in H1. by right. }
  exfalso.
  destruct (negb (truthy (from_option VStr VUndefined api_key))).
  { injection Hbody as <-. done. }
  destruct (normalize entries) as [images|] eqn:Hn; [|done].
  simpl in Hbody. apply normalize_inv in Hn as ->.
  destruct (plan_response_shape JSON_parse _ up remaining
              (items_of_normalized entries))
    as (hdrs & p & Hresp & _).
  rewrite Hresp in Hbody. injection Hbody as <-. done.
Qed.

(** X7: the status of the answer of the sequence endpoint is 405 exactly
    for a method other than POST, 429 exactly for a POST over the rate
    limit, 200 exactly for an accepted request (a POST within the limit
    whose body holds 1 to 200 analysis results, all of them [usable]:
    none is [null] or [undefined], and String and Number do not throw on
    the id and the visual energy of any, with the API key configured),
    and 400 or 500 in every other case. *)
Theorem sequence_status req api_key now rateLimitMap up :
  let r := (handler JSON_parse req api_key now rateLimitMap up).1 in
  (status r = 405%nat ↔ req_method req ≠ "POST")
  ∧ (status r = 429%nat ↔
     req_method req = "POST"
     ∧ RateLimit.allowed (rate_decision req now rateLimitMap) = false)
  ∧ (status r = 200%nat ↔ ∃ entries, accepted req api_key now rateLimitMap entries)
  ∧ status r ∈ [200; 400; 405; 429; 500]%nat.
Proof.
  intros r. unfold r.
  destruct (decide (req_method req = "POST")) as [Hm|Hm].
  2:{ rewrite handler_not_post by done. simpl. split_and!.
      - done.
      - split; [done|]. by intros [? _].
      - split; [done|]. by intros (entries & ? & _).
      - set_solver. }
  rewrite handler_post by done. simpl.
  destruct (RateLimit.allowed (rate_decision req now rateLimitMap)) eqn:Hallow.
  2:{ simpl. split_and!.
      - split; [done|]. by intros [].
      - done.
      - split; [done|]. intros (entries & _ & Ha & _). congruence.
      - set_solver. }
  destruct (handle_body _ _ _ _ _) as [resp|e] eqn:Hbody.
  2:{ simpl. split_and!.
      - split; [done|]. by intros [].
      - split; [done|]. by intros [_ ?].
      - split; [done|]. intros (entries & Hacc).
        pose proof (sequence_handler_accepted JSON_parse _ _ _ _ _ up Hacc) as H.
        rewrite handler_post, Hallow, Hbody in H by done. simpl in H.
        destruct (plan_response_shape JSON_parse (items_of entries) up
          (RateLimit.remaining (rate_decision req now rateLimitMap))
          (items_of_normalized entries))
          as (hdrs & p & Hresp & _).
        rewrite items_of_length in Hresp. rewrite Hresp in H.
        unfold sequence_failure in H. by injection H.
      - set_solver. }
  split_and!.
  - split; [|done]. intros H.
    destruct (handle_body_statuses _ _ _ _ _ Hbody) as [?|[?|?]]; congruence.
  - split; [|by intros [_ ?]]. intros H.
    destruct (handle_body_statuses _ _ _ _ _ Hbody) as [?|[?|?]]; congruence.
  - split.
    + intros Hs. by eapply handle_body_200.
    + intros (entries & Hacc).
      pose proof (handler_plan_shape JSON_parse _ _ _ _ _ up Hacc)
        as (hdrs & p & H & _).
      rewrite handler_post, Hallow, Hbody in H by done. simpl in H.
      by rewrite H.
  - destruct (handle_body_statuses _ _ _ _ _ Hbody) as [H|[H|H]];
      rewrite H; set_solver.
Qed.

(** X8: the sequence endpoint answers 400 exactly to a POST within the
    rate limit whose body can be read but whose [analysisResults] is not
    an array of 1 to 200 elements; that answer is the same whatever the
    API key and whatever the provider would do. *)
Theorem sequence_bad_request req api_key now rateLimitMap up :
  let r := (handler JSON_parse req api_key now rateLimitMap up).1 in
  (status r = 400%nat ↔
   req_method req = "POST"
   ∧ RateLimit.allowed (rate_decision req now rateLimitMap) = true
   ∧ ∃ body, req_json req = Ok body ∧ nullish body = false
             ∧ unusable (prop body "analysisResults"))
  ∧ (status r = 400%nat →
     ∀ api_key' up',
       (handler JSON_parse req api_key' now rateLimitMap up').1 = r).
Proof.
  intros r.
  assert (status r = 400%nat →
          req_method req = "POST"
          ∧ RateLimit.allowed (rate_decision req now rateLimitMap) = true
          ∧ ∃ body, req_json req = Ok body ∧ nullish body = false
                    ∧ unusable (prop body "analysisResults")) as Hbad.
  { unfold r.
    destruct (decide (req_method req = "POST")) as [Hm|Hm].
    2:{ by rewrite handler_not_post. }
    rewrite handler_post by done. simpl.
    destruct (RateLimit.allowed (rate_decision req now rateLimitMap)); [|done].
    destruct (handle_body _ _ _ _ _) as [resp|e] eqn:Hbody; [|done].
    intros Hs. split_and!; [done..|]. by eapply handle_body_400. }
  assert (req_method req = "POST"
          ∧ RateLimit.allowed (rate_decision req now rateLimitMap) = true
          ∧ (∃ body, req_json req = Ok body ∧ nullish body = false
                     ∧ unusable (prop body "analysisResults")) →
          ∃ msg, ∀ api_key' up',
            (handler JSON_parse req api_key' now rateLimitMap up').1
            = Response 400 [json_header] (ErrorBody msg None)) as Hall.
  { intros (Hm & Hallow & body & Hjson & Hb & Hun).
    destruct (handle_body_unusable req body Hjson Hb Hun) as [msg Hmsg].
    exists msg. intros api_key' up'.
    rewrite handler_post, Hallow by done. simpl. by rewrite Hmsg. }
  split_and!.
  - split; [done|]. intros [msg Hmsg]%Hall. unfold r. by rewrite Hmsg.
  - intros [msg Hmsg]%Hbad%Hall api_key' up'. unfold r. by rewrite !Hmsg.
Qed.

(** X9: unless the request is accepted, neither the answer of the
    sequence endpoint nor the rate-limit map afterwards depends on what
    the provider would do. *)
Theorem handler_upstream_unused req api_key now rateLimitMap up up' :
  (¬ ∃ entries, accepted req api_key now rateLimitMap entries) →
  handler JSON_parse req api_key now rateLimitMap up
  = handler JSON_parse req api_key now rateLimitMap up'.
Proof.
  intros Hnot.
  destruct (decide (req_method req = "POST")) as [Hm|Hm].
  2:{ by rewrite !handler_not_post. }
  rewrite !handler_post by done.
  destruct (RateLimit.allowed (rate_decision req now rateLimitMap)) eqn:Hallow;
    [|done].
  destruct (handle_body_upstream req api_key now rateLimitMap up up'
              (RateLimit.remaining (rate_decision req now rateLimitMap))
              Hm Hallow) as [-> | Hacc]; done.
Qed.

End Gates.

Lemma handler_upstream_unused_witness :
  handler (reads "{}" (VObj [])) (post []) (Some "sk") 0 ∅ (Completion [])
  = handler (reads "{}" (VObj [])) (post []) (Some "sk") 0 ∅
      (Rejected (JsError "Error" "Connection error.")).
Proof.
  apply (handler_upstream_unused (reads "{}" (VObj [])) (post []) (Some "sk")
           0 ∅).
  intros (entries & _ & _ & (body & Hbody & Har) & [Hpos _] & _).
  injection Hbody as <-. injection Har as <-. simpl in Hpos. lia.
Defined.

End SequenceGates.

(** ** The sequence endpoint: what the routes return *)
Module SequenceRoutes.
Import Sequence Runs JSProps SequenceProps SequenceGates.

Section Routes.
Context (JSON_parse : string → result value).

Lemma handler_try_throws req api_key now rateLimitMap entries up e :
  accepted req api_key now rateLimitMap entries →
  plan_from_model JSON_parse (items_of entries) (length entries) up = Throw e →
  (handler JSON_parse req api_key now rateLimitMap up).1
  = Response 200 [json_header]
      (PlanBody
         (degraded_plan (imap entry_id entries)
            (if String.eqb (err_name e) "AbortError" then None
             else Some (err_message e)))).
Proof.
  intros Hacc He. rewrite (sequence_handler_accepted _ _ _ _ _ entries) by done.
  destruct (plan_response_cases JSON_parse (items_of entries) (length entries)
              up (RateLimit.remaining (rate_decision req now rateLimitMap))
              (items_of_normalized entries))
    as [(p & Hp & _)|(e' & He' & ->)]; [congruence|].
  rewrite He in He'. injection He' as <-.
  by rewrite <-(items_of_length entries), firstn_all, items_of_texts.
Qed.

Lemma handler_try_returns req api_key now rateLimitMap entries up p :
  accepted req api_key now rateLimitMap entries →
  plan_from_model JSON_parse (items_of entries) (length entries) up = Ok p →
  (handler JSON_parse req api_key now rateLimitMap up).1
  = Response 200
      [json_header;
       ("X-RateLimit-Remaining",
        pretty (RateLimit.remaining (rate_decision req now rateLimitMap)))]
      (PlanBody p).
Proof.
  intros Hacc Hp. rewrite (sequence_handler_accepted _ _ _ _ _ entries) by done.
  by rewrite (plan_response_ok _ _ _ _ _ p).
Qed.

Lemma assemble_entries_inv entries raw p :
  assemble (items_of entries) (length entries) raw = Ok p →
  nullish raw = false
  ∧ (∃ shots,
       buildShots (final_ids (items_of entries) (length entries) raw)
         (beats_of raw) = Ok shots
       ∧ map_from (λ (_ : nat) (id : value), toString id) 0%nat
           (final_ids (items_of entries) (length entries) raw)
         = Ok (ordered_ids p)
       ∧ map_from (λ (_ : nat) (id : string),
                     selected_index (items_of entries) id) 0%nat
           (ordered_ids p) = Ok (selected p)
       ∧ p = assembled_plan raw (ordered_ids p) shots (selected p))
  ∧ length (ordered_ids p) = length entries
  ∧ Forall (λ id, id ∈ imap entry_id entries) (ordered_ids p)
  ∧ usedPlanner p = "ai" ∧ plan_error p = None.
Proof.
  intros Hp. pose proof (items_of_normalized entries) as Hn.
  pose proof (assemble_ok _ _ _ _ Hn Hp) as [Hraw Hshots].
  rewrite <-(items_of_length entries) in Hp.
  apply assemble_inv in Hp as (Hlen & Hmem & _ & _ & _ & Htag & Herr);
    [|done].
  rewrite items_of_length in Hlen. rewrite items_of_texts in Hmem.
  by split_and!.
Qed.

(** X10: a request that passes the gates of the sequence endpoint but
    holds a [null] or [undefined] among its analysis results is answered
    500 with [{ ok: false, error }] and a non-empty message, the same
    whatever the provider would do. *)
Theorem handler_null_entry req api_key now rateLimitMap entries :
  reaches_normalization req api_key now rateLimitMap entries →
  Exists (λ a, nullish a = true) entries →
  ∃ msg, msg ≠ ""
    ∧ ∀ up, (handler JSON_parse req api_key now rateLimitMap up).1
            = Response 500 [json_header] (FailureBody msg).
Proof.
  intros Hreach Hnull.
  destruct (normalize entries) as [images|e] eqn:Hn.
  { apply normalize_ok_usable, usable_readable in Hn.
    apply Exists_exists in Hnull as (a & Ha & Hnull).
    rewrite Forall_forall in Hn. specialize (Hn a Ha). congruence. }
  exists (if String.eqb (err_message e) "" then "Unknown error"
          else err_message e). split.
  - by destruct (String.eqb_spec (err_message e) "").
  - intros up. pose proof Hreach as (Hm & Hallow & _).
    rewrite handler_post, Hallow by done. simpl.
    rewrite (handle_body_reaches _ _ _ now rateLimitMap entries) by done.
    by rewrite Hn.
Qed.

(** X27: a request that passes the gates of the sequence endpoint but
    holds an analysis result on which input normalization throws (it is
    [null] or [undefined], or String or Number throws on its id, filename
    or visual energy, as on the parsed object [{"toString":0}]) is
    answered 500 with [{ ok: false, error }] and a non-empty message, the
    same whatever the provider would do. *)
Theorem handler_unusable_entry req api_key now rateLimitMap entries :
  reaches_normalization req api_key now rateLimitMap entries →
  ¬ Forall usable entries →
  ∃ msg, msg ≠ ""
    ∧ ∀ up, (handler JSON_parse req api_key now rateLimitMap up).1
            = Response 500 [json_header] (FailureBody msg).
Proof.
  intros Hreach Hnot.
  destruct (normalize entries) as [images|e] eqn:Hn.
  { by apply normalize_ok_usable in Hn. }
  exists (if String.eqb (err_message e) "" then "Unknown error"
          else err_message e). split.
  - by destruct (String.eqb_spec (err_message e) "").
  - intros up. pose proof Hreach as (Hm & Hallow & _).
    rewrite handler_post, Hallow by done. simpl.
    rewrite (handle_body_reaches _ _ _ now rateLimitMap entries) by done.
    by rewrite Hn.
Qed.

(** X11: when the text of the model cannot be parsed, an accepted
    request is answered 200 with the [X-RateLimit-Remaining] header and a
    plan in the original order of the items, with the roles of the
    position quantiles and empty reasons, empty theme and emotion arc,
    tagged ["ai"] and without an [error]. *)
Theorem handler_unparseable_output
    req api_key now rateLimitMap entries choices content :
  accepted req api_key now rateLimitMap entries →
  first_content choices = Ok content →
  is_ok (JSON_parse (clean content)) = false →
  ∃ p,
    (handler JSON_parse req api_key now rateLimitMap (Completion choices)).1
    = Response 200
        [json_header;
         ("X-RateLimit-Remaining",
          pretty (RateLimit.remaining (rate_decision req now rateLimitMap)))]
        (PlanBody p)
    ∧ ordered_ids p = imap entry_id entries
    ∧ shots p = quantile_shots (ordered_ids p)
    ∧ theme p = VStr "" ∧ emotion_arc p = []
    ∧ usedPlanner p = "ai" ∧ plan_error p = None.
Proof.
  intros Hacc Hc Hparse. pose proof (items_of_normalized entries) as Hn.
  destruct (assemble_fallbackPlan (items_of entries) Hn)
    as (fallback & p & Hfb & Hp & Hids & Hshots & Hth & Harc & Htag & Herr).
  rewrite items_of_length in Hfb, Hp.
  exists p. split.
  - apply (handler_try_returns _ _ _ _ entries); [done|].
    destruct (plan_from_model_unparsed JSON_parse (items_of entries)
                (length entries) choices content Hn Hc Hparse)
      as (fallback' & Hfb' & ->).
    rewrite Hfb in Hfb'. by injection Hfb' as <-.
  - rewrite items_of_texts in Hids, Hshots. rewrite Hids.
    split_and!; try done. rewrite Hshots.
    apply positional_shots_quantile. rewrite length_imap.
    destruct Hacc as (_ & _ & _ & [_ Hmax] & _).
    unfold MAX_IMAGES in Hmax. lia.
Qed.

(** X12: the plan of an accepted request is tagged ["ai"] or
    ["fallback"].  Tagged ["ai"], it has no [error], the answer carries
    the [X-RateLimit-Remaining] header and the provider did answer.
    Tagged ["fallback"], it is the degraded plan in the original order,
    the answer carries the [Content-Type] header only, and the plan lacks
    an [error] exactly when the provider call was rejected with an error
    named AbortError. *)
Theorem handler_planner_tag req api_key now rateLimitMap entries up :
  accepted req api_key now rateLimitMap entries →
  ∃ hdrs p,
    (handler JSON_parse req api_key now rateLimitMap up).1
    = Response 200 hdrs (PlanBody p)
    ∧ ((usedPlanner p = "ai" ∧ plan_error p = None
        ∧ hdrs = [json_header;
                  ("X-RateLimit-Remaining",
                   pretty (RateLimit.remaining
                             (rate_decision req now rateLimitMap)))]
        ∧ ∃ choices, up = Completion choices)
       ∨ (usedPlanner p = "fallback" ∧ hdrs = [json_header]
          ∧ p = degraded_plan (imap entry_id entries) (plan_error p)
          ∧ (plan_error p = None ↔
             ∃ e, up = Rejected e ∧ err_name e = "AbortError"))).
Proof.
  intros Hacc.
  destruct (plan_from_model JSON_parse (items_of entries) (length entries) up)
    as [p|e] eqn:Hp.
  - eexists _, p. split; [by apply (handler_try_returns _ _ _ _ entries)|].
    left. pose proof Hp as [raw Hraw]%plan_from_model_inv.
    apply assemble_entries_inv in Hraw as (_ & _ & _ & _ & Htag & Herr).
    split_and!; try done.
    destruct up as [choices|e]; [by exists choices|done].
  - eexists _, _. split; [by apply (handler_try_throws _ _ _ _ entries)|].
    right. split_and!; try done. simpl.
    destruct up as [choices|e'].
    + apply plan_from_model_throws in Hp. rewrite Hp. simpl.
      split; [done|]. by intros (? & ? & _).
    + injection Hp as ->.
      destruct (String.eqb_spec (err_name e) "AbortError") as [He|He].
      * split; [|done]. intros _. by exists e.
      * split; [done|]. intros (e' & [= <-] & ?). done.
Qed.

(** X13: a completion without choices, or one whose text parses to
    [null], makes the [try] body throw: an accepted request is answered
    200 with the degraded plan in the original order, tagged ["fallback"]
    and carrying the message of the error. *)
Theorem handler_unreadable_output
    req api_key now rateLimitMap entries choices :
  accepted req api_key now rateLimitMap entries →
  choices = []
  ∨ (∃ content raw, first_content choices = Ok content
       ∧ JSON_parse (clean content) = Ok raw ∧ nullish raw = true) →
  ∃ msg,
    (handler JSON_parse req api_key now rateLimitMap (Completion choices)).1
    = Response 200 [json_header]
        (PlanBody (degraded_plan (imap entry_id entries) (Some msg))).
Proof.
  intros Hacc Hcase.
  assert (∃ e, plan_from_model JSON_parse (items_of entries) (length entries)
                 (Completion choices) = Throw e) as [e He].
  { destruct Hcase as [->|(content & raw & Hc & Hparse & Hraw)].
    - by eexists.
    - rewrite (plan_from_model_parsed _ _ _ _ content raw)
        by (done || apply items_of_normalized).
      by apply assemble_nullish. }
  exists (err_message e).
  rewrite (handler_try_throws _ _ _ _ entries _ e) by done.
  apply plan_from_model_throws in He. by rewrite He.
Qed.

(** X14: a [null] or [undefined] among the beats of the model, with an id
    of the final ordering that no beat before it matches, makes the
    search for that id's beat throw, unless the [try] body has thrown
    before: an accepted request is answered 200 with the degraded plan in
    the original order, tagged ["fallback"] and carrying the message of
    the error. *)
Theorem handler_null_beat
    req api_key now rateLimitMap entries choices content raw pre b post id :
  accepted req api_key now rateLimitMap entries →
  first_content choices = Ok content →
  JSON_parse (clean content) = Ok raw →
  nullish raw = false →
  beats_of raw = pre ++ b :: post →
  readable pre → nullish b = true →
  id ∈ final_ids (items_of entries) (length entries) raw →
  matching_beat id pre = None →
  ∃ msg,
    (handler JSON_parse req api_key now rateLimitMap (Completion choices)).1
    = Response 200 [json_header]
        (PlanBody (degraded_plan (imap entry_id entries) (Some msg))).
Proof.
  intros Hacc Hc Hparse Hraw Hbeats Hpre Hb Hid Hm.
  assert (∃ e, plan_from_model JSON_parse (items_of entries) (length entries)
                 (Completion choices) = Throw e) as [e He].
  { rewrite (plan_from_model_parsed _ _ _ _ content raw)
      by (done || apply items_of_normalized).
    rewrite assemble_unfold by done. unfold final_ids in Hid.
    destruct (isValidSelection _ _ _) as [valid|e]; [|by exists e].
    simpl.
    assert ((if valid
             then Ok (elements (selected_ordering raw))
             else fallbackIds ← deterministicFallback (items_of entries)
                                  (length entries);
                  Ok (VStr <$> fallbackIds))
            = Ok (if valid then elements (selected_ordering raw)
                  else VStr <$> id_texts (take (length entries)
                                            (items_of entries))))
      as ->.
    { destruct valid; [done|].
      rewrite items_of_fallback. simpl.
      by rewrite <-(items_of_length entries), firstn_all, items_of_texts. }
    simpl. rewrite Hbeats.
    apply list_elem_of_lookup in Hid as [k Hk].
    pose proof (buildShots_blocked _ k id pre b post Hk Hpre Hm Hb) as Hs.
    destruct (buildShots _ _) as [|e]; [done|]. by exists e. }
  exists (err_message e).
  rewrite (handler_try_throws _ _ _ _ entries _ e) by done.
  apply plan_from_model_throws in He. by rewrite He.
Qed.

(** X15: when the parsed answer of the model is an object whose ordering
    has one id per item, each of them with a string form that is the id
    of an item, and whose beats can all be searched (none is [null] or
    [undefined], and the id of each has a string form), the plan of an
    accepted request keeps that ordering (its ids as strings), takes role
    and reason of each shot from the first beat with that id, else the
    role of the position and no reason, keeps the theme and emotion arc
    of the answer, is tagged ["ai"] and has no [error]. *)
Theorem handler_valid_ordering
    req api_key now rateLimitMap entries choices content raw ids :
  accepted req api_key now rateLimitMap entries →
  first_content choices = Ok content →
  JSON_parse (clean content) = Ok raw →
  nullish raw = false →
  selected_ordering raw = VArr ids →
  length ids = length entries →
  Forall (λ id, ∃ s, toString id = Ok s ∧ s ∈ imap entry_id entries) ids →
  legible (beats_of raw) →
  ∃ p,
    (handler JSON_parse req api_key now rateLimitMap (Completion choices)).1
    = Response 200
        [json_header;
         ("X-RateLimit-Remaining",
          pretty (RateLimit.remaining (rate_decision req now rateLimitMap)))]
        (PlanBody p)
    ∧ Forall2 (λ id s, toString id = Ok s) ids (ordered_ids p)
    ∧ shots p = imap (shot_at (beats_of raw) (length entries)) ids
    ∧ theme p = or_else (prop raw "theme") (VStr "")
    ∧ emotion_arc p = emotion_arc_of raw
    ∧ usedPlanner p = "ai" ∧ plan_error p = None.
Proof.
  intros Hacc Hc Hparse Hraw Hsel Hlen Hall Hbeats.
  pose proof (items_of_normalized entries) as Hn.
  assert (isValidSelection (selected_ordering raw) (items_of entries)
            (length entries) = Ok true) as Hvalid.
  { apply isValidSelection_iff. exists ids, (imap entry_id entries).
    by rewrite items_of_ids. }
  assert (Forall (λ id, toString id = Ok (string_form id)) ids) as Htexts.
  { eapply Forall_impl; [exact Hall|]. intros id (s & Hs & _).
    by rewrite (string_form_ok _ _ Hs). }
  assert (Forall (λ id, printable id = true) ids) as Hprint.
  { eapply Forall_impl; [exact Hall|]. intros id (s & Hs & _).
    by eapply toString_printable. }
  assert (Forall (λ id, id ∈ id_texts (items_of entries))
            (string_form <$> ids)) as Hmem.
  { rewrite items_of_texts. apply Forall_fmap.
    eapply Forall_impl; [exact Hall|]. intros id (s & Hs & Hin). simpl.
    by rewrite (string_form_ok _ _ Hs). }
  destruct (selected_indices (items_of entries) (string_form <$> ids) Hn Hmem)
    as (indices & Hind & _).
  exists (assembled_plan raw (string_form <$> ids)
            (imap (shot_at (beats_of raw) (length entries)) ids) indices).
  split.
  - apply (handler_try_returns _ _ _ _ entries); [done|].
    rewrite (plan_from_model_parsed _ _ _ _ content raw) by done.
    rewrite assemble_unfold by done. rewrite Hvalid. simpl.
    rewrite Hsel. simpl.
    rewrite buildShots_legible by done. simpl.
    rewrite (map_from_fmap _ string_form) by done. simpl.
    by rewrite Hind, Hlen.
  - simpl. split_and!; try done.
    apply Forall2_fmap_r, Forall_Forall2_diag. exact Htexts.
Qed.

(** X16: on every route the plan of an accepted request has one
    [selected] index per item, each the index of an analysis result whose
    id is the id at that place of [ordered_ids]; [order] counts from 0 to
    the number of items less one, every duration is 3.8 and there is one
    crossfade transition fewer than items. *)
Theorem handler_plan_indices req api_key now rateLimitMap entries up :
  accepted req api_key now rateLimitMap entries →
  ∃ hdrs p,
    (handler JSON_parse req api_key now rateLimitMap up).1
    = Response 200 hdrs (PlanBody p)
    ∧ length (selected p) = length entries
    ∧ (∀ k id, ordered_ids p !! k = Some id →
         ∃ i, selected p !! k = Some i
              ∧ imap entry_id entries !! i = Some id)
    ∧ order p = seq 0 (length entries)
    ∧ durations p = replicate (length entries) SHOT_DURATION
    ∧ transitions p = replicate (length entries - 1) "crossfade".
Proof.
  intros Hacc. pose proof (items_of_normalized entries) as Hn.
  assert (transitions_count (length entries) = (length entries - 1)%nat)
    as Htr by (unfold transitions_count; lia).
  destruct (plan_from_model JSON_parse (items_of entries) (length entries) up)
    as [p|e] eqn:Hp.
  - eexists _, p. split; [by apply (handler_try_returns _ _ _ _ entries)|].
    apply plan_from_model_inv in Hp as [raw Hraw].
    apply assemble_entries_inv in Hraw
      as (_ & (shots & _ & _ & Hsel & Hp) & Hlen & Hmem & _).
    rewrite <-items_of_texts in Hmem.
    destruct (selected_indices _ _ Hn Hmem) as (indices & Hind & Hat).
    rewrite Hsel in Hind. injection Hind as <-.
    rewrite items_of_texts in Hat.
    pose proof (Forall2_length _ _ _ Hat) as Hlen'.
    split_and!.
    + lia.
    + intros k id Hk.
      destruct (Forall2_lookup_l _ _ _ _ _ Hat Hk) as (i & Hi & Hid).
      by exists i.
    + rewrite Hp. simpl. by rewrite Hlen.
    + rewrite Hp. simpl. by rewrite Hlen.
    + rewrite Hp. simpl. by rewrite Hlen, Htr.
  - eexists _, _. split; [by apply (handler_try_throws _ _ _ _ entries)|].
    simpl. rewrite !length_seq, !length_imap, Htr. split_and!; try done.
    intros k id Hk. exists k. split; [|done].
    apply lookup_lt_Some in Hk. rewrite length_imap in Hk.
    by rewrite lookup_seq_lt.
Qed.

(** X17: on every route the shots of the plan of an accepted request
    follow [ordered_ids]: the id of the shot at each place has, as its
    string form, the id at that place; every shot has a non-empty role,
    and a reason that is non-empty or the empty string. *)
Theorem handler_plan_shots req api_key now rateLimitMap entries up :
  accepted req api_key now rateLimitMap entries →
  ∃ hdrs p,
    (handler JSON_parse req api_key now rateLimitMap up).1
    = Response 200 hdrs (PlanBody p)
    ∧ Forall2 (λ s id, toString (shot_id s) = Ok id) (shots p) (ordered_ids p)
    ∧ Forall (λ s, truthy (shot_role s) = true
                   ∧ (truthy (shot_reason s) = true
                      ∨ shot_reason s = VStr ""))
        (shots p).
Proof.
  intros Hacc.
  destruct (plan_from_model JSON_parse (items_of entries) (length entries) up)
    as [p|e] eqn:Hp.
  - eexists _, p. split; [by apply (handler_try_returns _ _ _ _ entries)|].
    apply plan_from_model_inv in Hp as [raw Hraw].
    apply assemble_entries_inv in Hraw
      as (_ & (shots & Hshots & Hids & _ & Hp) & _).
    apply (f_equal Sequence.shots) in Hp. simpl in Hp. rewrite Hp.
    split.
    + apply map_from_Forall2 in Hids.
      rewrite <-(buildShots_ids _ _ _ Hshots) in Hids.
      by apply Forall2_fmap_l in Hids.
    + by eapply shot_roles.
  - eexists _, _. split; [by apply (handler_try_throws _ _ _ _ entries)|].
    simpl. split.
    + unfold positional_shots. apply Forall2_same_length_lookup_2.
      { by rewrite length_imap. }
      intros i s id. rewrite list_lookup_imap.
      destruct (_ !! i) as [id'|]; [|done]. simpl.
      by intros [= <-] [= <-].
    + apply Forall_lookup. intros i s. unfold positional_shots.
      rewrite list_lookup_imap. destruct (_ !! i); [|done].
      intros [= <-]. simpl. split; [|by right].
      pose proof (position_role_nonempty i
                    (length (imap entry_id entries))) as Hne.
      by destruct (position_role _ _).
Qed.

End Routes.

Lemma accepted_two :
  accepted (post [entry "a"; entry "b"]) (Some "sk") 0 ∅
    [entry "a"; entry "b"].
Proof.
  apply accepted_post; [simpl; unfold MAX_IMAGES; lia|done|].
  repeat constructor; apply usable_entry.
Qed.

Lemma handler_null_entry_witness :
  ∃ msg, msg ≠ ""
    ∧ ∀ up, (handler (reads "{}" (VObj [])) (post [entry "a"; VNull])
               (Some "sk") 0 ∅ up).1
            = Response 500 [json_header] (FailureBody msg).
Proof.
  apply (handler_null_entry (reads "{}" (VObj [])) (post [entry "a"; VNull])
           (Some "sk") 0 ∅ [entry "a"; VNull]).
  - split_and!;
      [reflexivity|reflexivity|eexists; split; reflexivity|simpl; lia
      |simpl; unfold MAX_IMAGES; lia|by exists "sk"].
  - apply Exists_cons_tl, Exists_cons_hd. reflexivity.
Defined.

Lemma handler_unusable_entry_witness :
  ∃ msg, msg ≠ ""
    ∧ ∀ up, (handler (reads "{}" (VObj []))
               (post [entry "a"; VObj [("visual_energy", unprintable)]])
               (Some "sk") 0 ∅ up).1
            = Response 500 [json_header] (FailureBody msg).
Proof.
  apply (handler_unusable_entry (reads "{}" (VObj []))
           (post [entry "a"; VObj [("visual_energy", unprintable)]])
           (Some "sk") 0 ∅ [entry "a"; VObj [("visual_energy", unprintable)]]).
  - split_and!;
      [reflexivity|reflexivity|eexists; split; reflexivity|simpl; lia
      |simpl; unfold MAX_IMAGES; lia|by exists "sk"].
  - intros Hall. apply Forall_cons in Hall as [_ Hall].
    apply Forall_cons in Hall as [(_ & _ & Hprint) _]. discriminate.
Defined.

Lemma handler_unparseable_output_witness :
  ∃ p,
    (handler (reads "{}" (VObj [])) (post [entry "a"; entry "b"]) (Some "sk")
       0 ∅ (Completion [Some "Sorry, I cannot do that."])).1
    = Response 200
        [json_header;
         ("X-RateLimit-Remaining",
          pretty (RateLimit.remaining
                    (rate_decision (post [entry "a"; entry "b"]) 0 ∅)))]
        (PlanBody p)
    ∧ ordered_ids p = imap entry_id [entry "a"; entry "b"]
    ∧ shots p = quantile_shots (ordered_ids p)
    ∧ theme p = VStr "" ∧ emotion_arc p = []
    ∧ usedPlanner p = "ai" ∧ plan_error p = None.
Proof.
  apply (handler_unparseable_output (reads "{}" (VObj [])) (post [entry "a"; entry "b"])
           (Some "sk") 0%Z ∅ [entry "a"; entry "b"]
           [Some "Sorry, I cannot do that."] "Sorry, I cannot do that.");
    [apply accepted_two|reflexivity..].
Defined.

Lemma handler_planner_tag_witness :
  ∃ hdrs p,
    (handler (reads "{}" (VObj [])) (post [entry "a"; entry "b"]) (Some "sk")
       0 ∅ (Completion [])).1
    = Response 200 hdrs (PlanBody p)
    ∧ ((usedPlanner p = "ai" ∧ plan_error p = None
        ∧ hdrs = [json_header;
                  ("X-RateLimit-Remaining",
                   pretty (RateLimit.remaining
                             (rate_decision (post [entry "a"; entry "b"])
                                0 ∅)))]
        ∧ ∃ choices, Completion [] = Completion choices)
       ∨ (usedPlanner p = "fallback" ∧ hdrs = [json_header]
          ∧ p = degraded_plan (imap entry_id [entry "a"; entry "b"])
                  (plan_error p)
          ∧ (plan_error p = None ↔
             ∃ e, Completion [] = Rejected e ∧ err_name e = "AbortError"))).
Proof.
  apply (handler_planner_tag (reads "{}" (VObj [])) (post [entry "a"; entry "b"])
           (Some "sk") 0%Z ∅ [entry "a"; entry "b"] (Completion [])).
  apply accepted_two.
Defined.

Lemma handler_unreadable_output_witness :
  ∃ msg,
    (handler (reads "null" VNull) (post [entry "a"; entry "b"]) (Some "sk")
       0 ∅ (Completion [Some "null"])).1
    = Response 200 [json_header]
        (PlanBody
           (degraded_plan (imap entry_id [entry "a"; entry "b"]) (Some msg))).
Proof.
  apply (handler_unreadable_output (reads "null" VNull) (post [entry "a"; entry "b"])
           (Some "sk") 0%Z ∅ [entry "a"; entry "b"]
           [Some "null"]); [apply accepted_two|].
  right. exists "null", VNull. by split_and!.
Defined.

Lemma handler_null_beat_witness :
  ∃ msg,
    (handler (reads null_beat_text null_beat_raw) (post [entry "a"; entry "b"])
       (Some "sk") 0 ∅ (Completion [Some null_beat_text])).1
    = Response 200 [json_header]
        (PlanBody
           (degraded_plan (imap entry_id [entry "a"; entry "b"]) (Some msg))).
Proof.
  apply (handler_null_beat (reads null_beat_text null_beat_raw) (post [entry "a"; entry "b"])
           (Some "sk") 0%Z ∅ [entry "a"; entry "b"]
           [Some null_beat_text] null_beat_text null_beat_raw [] VNull []
           (VStr "a"));
    [apply accepted_two|reflexivity..|constructor|reflexivity| |reflexivity].
  apply list_elem_of_here.
Defined.

Lemma handler_valid_ordering_witness :
  ∃ p,
    (handler (reads reversed_text reversed_raw) (post [entry "a"; entry "b"])
       (Some "sk") 0 ∅ (Completion [Some reversed_text])).1
    = Response 200
        [json_header;
         ("X-RateLimit-Remaining",
          pretty (RateLimit.remaining
                    (rate_decision (post [entry "a"; entry "b"]) 0 ∅)))]
        (PlanBody p)
    ∧ Forall2 (λ id s, toString id = Ok s) [VStr "b"; VStr "a"]
        (ordered_ids p)
    ∧ shots p
      = imap (shot_at (beats_of reversed_raw) (length [entry "a"; entry "b"]))
          [VStr "b"; VStr "a"]
    ∧ theme p = or_else (prop reversed_raw "theme") (VStr "")
    ∧ emotion_arc p = emotion_arc_of reversed_raw
    ∧ usedPlanner p = "ai" ∧ plan_error p = None.
Proof.
  apply (handler_valid_ordering (reads reversed_text reversed_raw) (post [entry "a"; entry "b"])
           (Some "sk") 0%Z ∅ [entry "a"; entry "b"]
           [Some reversed_text] reversed_text reversed_raw
           [VStr "b"; VStr "a"]);
    [apply accepted_two|reflexivity..| |constructor].
  repeat constructor; eexists; (split; [reflexivity|]);
    apply list_elem_of_In; simpl; tauto.
Defined.

Lemma handler_plan_indices_witness :
  ∃ hdrs p,
    (handler (reads reversed_text reversed_raw) (post [entry "a"; entry "b"])
       (Some "sk") 0 ∅ (Completion [Some reversed_text])).1
    = Response 200 hdrs (PlanBody p)
    ∧ length (selected p) = length [entry "a"; entry "b"]
    ∧ (∀ k id, ordered_ids p !! k = Some id →
         ∃ i, selected p !! k = Some i
              ∧ imap entry_id [entry "a"; entry "b"] !! i = Some id)
    ∧ order p = seq 0 (length [entry "a"; entry "b"])
    ∧ durations p = replicate (length [entry "a"; entry "b"]) SHOT_DURATION
    ∧ transitions p
      = replicate (length [entry "a"; entry "b"] - 1) "crossfade".
Proof.
  apply (handler_plan_indices (reads reversed_text reversed_raw) (post [entry "a"; entry "b"])
           (Some "sk") 0%Z ∅ [entry "a"; entry "b"]
           (Completion [Some reversed_text])).
  apply accepted_two.
Defined.

Lemma handler_plan_shots_witness :
  ∃ hdrs p,
    (handler (reads reversed_text reversed_raw) (post [entry "a"; entry "b"])
       (Some "sk") 0 ∅ (Completion [Some reversed_text])).1
    = Response 200 hdrs (PlanBody p)
    ∧ Forall2 (λ s id, toString (shot_id s) = Ok id) (shots p) (ordered_ids p)
    ∧ Forall (λ s, truthy (shot_role s) = true
                   ∧ (truthy (shot_reason s) = true
                      ∨ shot_reason s = VStr ""))
        (shots p).
Proof.
  apply (handler_plan_shots (reads reversed_text reversed_raw) (post [entry "a"; entry "b"])
           (Some "sk") 0%Z ∅ [entry "a"; entry "b"]
           (Completion [Some reversed_text])).
  apply accepted_two.
Defined.

End SequenceRoutes.

(** ** The sequence endpoint under the rate limiter *)

Module SequenceQuota.
Import Sequence Runs SequenceGates RateLimitProps.

Section Quota.
Context (JSON_parse : string → result value).

Lemma handler_status_429 req api_key now rateLimitMap up :
  req_method req = "POST" →
  status (handler JSON_parse req api_key now rateLimitMap up).1 = 429%nat
  ↔ RateLimit.allowed (rate_decision req now rateLimitMap) = false.
Proof.
  intros Hm. rewrite handler_post by done. simpl.
  destruct (RateLimit.allowed _); [|done].
  destruct (handle_body _ _ _ _ _) as [r|e] eqn:Hbody; [|done].
  destruct (handle_body_statuses _ _ _ _ _ _ Hbody) as [H|[H|H]];
    by rewrite H.
Qed.

Lemma serve_sequence_limiter api_key ip
    (arrivals : list (request * Z * upstream)) rateLimitMap :
  Forall (λ a, req_method a.1.1 = "POST"
               ∧ RateLimit.clientIp (x_forwarded_for a.1.1) (x_real_ip a.1.1)
                 = ip) arrivals →
  Forall2 (λ r d, status r = 429%nat ↔ RateLimit.allowed d = false)
    (serve_sequence JSON_parse api_key arrivals rateLimitMap).1
    (serve_limiter ip ((λ a, a.1.2) <$> arrivals) rateLimitMap).1.
Proof.
  revert rateLimitMap.
  induction arrivals as [|[[req now] up] arrivals IH]; intros m Hall.
  { constructor. }
  apply Forall_cons in Hall as [[Hm Hip] Hall]. simpl in Hm, Hip.
  cbn [serve_sequence serve_limiter fmap list_fmap]. simpl.
  pose proof (handler_status_429 req api_key now m up Hm) as H429.
  pose proof (handler_post JSON_parse req api_key now m up Hm) as Hpost.
  unfold rate_decision in H429. rewrite Hip in H429, Hpost.
  destruct (handler JSON_parse req api_key now m up) as [r m'].
  destruct (RateLimit.checkRateLimit ip now m) as [d m''].
  simpl in *. injection Hpost as _ ->.
  specialize (IH m'' Hall).
  destruct (serve_sequence _ _ _ _) as [rs m1].
  destruct (serve_limiter _ _ _) as [ds m2]. simpl in *.
  by constructor.
Qed.

(** X18: over successive POST requests of one client to the sequence
    endpoint, from a request that finds no open window to the end of that
    window, request number [i] (from 0) is answered 429 exactly when
    [i >= 30]: every request counts, whatever its body and however it is
    answered. *)
Theorem serve_sequence_quota api_key ip now req up
    (rest : list (request * Z * upstream)) rateLimitMap :
  no_window (RateLimit.getRateLimitKey ip) now rateLimitMap →
  Forall (λ a, req_method a.1.1 = "POST"
               ∧ RateLimit.clientIp (x_forwarded_for a.1.1) (x_real_ip a.1.1)
                 = ip
               ∧ (a.1.2 ≤ now + RateLimit.RATE_LIMIT_WINDOW_MS)%Z)
    ((req, now, up) :: rest) →
  ∀ (i : nat) r,
    (serve_sequence JSON_parse api_key ((req, now, up) :: rest)
       rateLimitMap).1 !! i = Some r →
    status r = 429%nat ↔ (30 ≤ i)%nat.
Proof.
  intros Hno Hall i r Hi.
  pose proof (serve_sequence_limiter api_key ip ((req, now, up) :: rest)
                rateLimitMap) as H2.
  lapply H2; [clear H2; intros H2|].
  2:{ eapply Forall_impl; [exact Hall|]. by intros a (? & ? & _). }
  destruct (Forall2_lookup_l _ _ _ _ _ H2 Hi) as (d & Hd & Hrel).
  rewrite fmap_cons in Hd. change ((req, now, up).1.2) with now in Hd.
  rewrite serve_limiter_fresh in Hd; [|done|].
  2:{ apply Forall_cons in Hall as [_ Hall]. apply Forall_fmap.
      eapply Forall_impl; [exact Hall|]. by intros a (_ & _ & ?). }
  rewrite list_lookup_imap in Hd.
  destruct ((now :: _) !! i); [|done]. injection Hd as <-.
  rewrite Hrel. unfold window_decision. case_decide; simpl; split; try done; lia.
Qed.

End Quota.

Lemma serve_sequence_quota_witness :
  (∃ r, (serve_sequence (reads "{}" (VObj [])) (Some "sk") burst ∅).1
          !! 29%nat = Some r ∧ status r = 400%nat)
  ∧ (∃ r, (serve_sequence (reads "{}" (VObj [])) (Some "sk") burst ∅).1
            !! 30%nat = Some r ∧ status r = 429%nat).
Proof.
  assert (Forall (λ a : request * Z * upstream,
            req_method a.1.1 = "POST"
            ∧ RateLimit.clientIp (x_forwarded_for a.1.1) (x_real_ip a.1.1)
              = None
            ∧ (a.1.2 ≤ 0 + RateLimit.RATE_LIMIT_WINDOW_MS)%Z) burst) as Hall.
  { unfold burst. apply Forall_cons. split.
    - split_and!; [reflexivity..|]. simpl.
      unfold RateLimit.RATE_LIMIT_WINDOW_MS. lia.
    - apply Forall_replicate. split_and!; [reflexivity..|]. simpl.
      unfold RateLimit.RATE_LIMIT_WINDOW_MS. lia. }
  pose proof (serve_sequence_quota (reads "{}" (VObj [])) (Some "sk") None 0
                (post []) (Completion [])
                (replicate 30 (post [], 5%Z, Completion [])) ∅ I Hall)
    as Hquota.
  split.
  - eexists. split; [vm_compute; reflexivity|reflexivity].
  - eexists. split; [vm_compute; reflexivity|].
    apply (Hquota 30%nat); [vm_compute; reflexivity|lia].
Defined.

End SequenceQuota.

(** ** The vision endpoint: payloads, entries and gates *)

Module VisionRoutes.
Import Vision Runs JSProps ParserProps SegmentProps VisionProps.

(** *** File extensions and payloads *)

(** X19: the media type sent for a photo is its [mimeType] when it has a
    non-empty one; otherwise it follows the text after the last dot of the
    file name (the whole name when it has no dot), compared without regard
    to case: [image/png] for [png], [image/webp] for [webp] and
    [image/jpeg] for everything else. *)
Theorem mime_of_extension p stem ext :
  includes "." ext = false →
  filename p = stem +:+ "." +:+ ext ∨ filename p = ext →
  mime_of p
  = match mimeType p with
    | Some m => if String.eqb m "" then extension_type ext else m
    | None => extension_type ext
    end.
Proof.
  intros Hext Hname.
  assert (last_segment "." (filename p) = ext) as Hlast.
  { destruct Hname as [-> | ->].
    - by apply last_segment_ext.
    - by apply last_segment_id. }
  unfold mime_of, extension_type, nonempty_or. rewrite Hlast.
  assert (toLowerCase ext = "" → ext = "") as Hempty by (by destruct ext).
  destruct (String.eqb_spec (toLowerCase ext) "") as [He|He].
  - rewrite He. simpl. destruct (mimeType p) as [m|]; [|done].
    by destruct (String.eqb m "").
  - destruct (mimeType p) as [m|]; [|done]. by destruct (String.eqb m "").
Qed.

Lemma mime_of_extension_witness :
  mime_of (Photo "holiday.2024.PNG" "AAAA" None)
  = match mimeType (Photo "holiday.2024.PNG" "AAAA" None) with
    | Some m => if String.eqb m "" then extension_type "PNG" else m
    | None => extension_type "PNG"
    end.
Proof.
  apply (mime_of_extension (Photo "holiday.2024.PNG" "AAAA" None)
           "holiday.2024" "PNG"); [reflexivity|by left].
Defined.

(** X20: the base64 payload of a photo never holds a comma: data without
    a comma are sent as they are, and of a data URL the text between the
    first comma and the next one, or the end, is sent. *)
Theorem base64_of_payload p :
  includes "," (base64_of p) = false
  ∧ (includes "," (data p) = false → base64_of p = data p)
  ∧ (∀ prefix payload rest,
       includes "," prefix = false → includes "," payload = false →
       data p = prefix +:+ "," +:+ payload
       ∨ data p = prefix +:+ "," +:+ payload +:+ "," +:+ rest →
       base64_of p = payload).
Proof.
  unfold base64_of. split_and!.
  - destruct (includes "," (data p)) eqn:Hd; [|done].
    apply second_segment_no_comma.
  - by intros ->.
  - intros prefix payload rest Hprefix Hpayload Hdata.
    assert (data p = prefix +:+ String "," payload
            ∨ data p = prefix +:+ String "," (payload +:+ String "," rest))
      as Hdata' by done.
    clear Hdata.
    assert (includes "," (data p) = true) as ->.
    { destruct Hdata' as [-> | ->]; by apply includes_char_app. }
    destruct Hdata' as [-> | ->]; rewrite second_segment_app by done.
    + by apply first_segment_id.
    + by apply first_segment_app.
Qed.

(** *** Object spread *)

Lemma set_field_lookup k k' v fields :
  lookup_field k (set_field k' v fields)
  = if String.eqb k k' then Some v else lookup_field k fields.
Proof.
  induction fields as [|[k0 v0] fields IH]; simpl.
  - by destruct (String.eqb k k').
  - destruct (String.eqb_spec k' k0) as [->|Hne]; simpl.
    + by destruct (String.eqb k k0).
    + rewrite IH. destruct (String.eqb_spec k k0) as [->|Hk]; [|done].
      destruct (String.eqb_spec k0 k'); congruence.
Qed.

Lemma spread_into_lookup k target source :
  lookup_field k (spread_into target source)
  = match lookup_field k (own_entries source) with
    | Some v => Some v
    | None => lookup_field k target
    end.
Proof.
  unfold spread_into.
  induction (own_entries source) as [|[k0 v0] entries IH]; [done|].
  simpl. rewrite set_field_lookup. by destruct (String.eqb k k0).
Qed.

Section Entries.
Context (JSON_parse : string → result value).
Context (responses_create : call → upstream).

Local Abbreviation analyzeImage := (analyzeImage JSON_parse responses_create).
Local Abbreviation analyze_photo := (analyze_photo JSON_parse responses_create).
Local Abbreviation handle_body := (handle_body JSON_parse responses_create).
Local Abbreviation handler := (handler JSON_parse responses_create).

Lemma analyze_photo_sent modelName p :
  too_large p = false →
  (analyze_photo modelName p).1
  = match (analyzeImage (base64_of p) (filename p) (mime_of p) modelName).1 with
    | Ok a => a
    | Throw _ => createFallbackAnalysis (filename p)
    end.
Proof. intros H. unfold Vision.analyze_photo. by rewrite H. Qed.

Lemma analyzeImage_rejected imageBase64 filename mimeType modelName e :
  responses_create
    (Call modelName ("data:" +:+ mimeType +:+ ";base64," +:+ imageBase64))
  = Rejected e →
  (analyzeImage imageBase64 filename mimeType modelName).1
  = Ok (createFallbackAnalysis filename).
Proof.
  intros H. unfold Vision.analyzeImage. simpl. rewrite H. simpl.
  by destruct (String.eqb _ _).
Qed.

Lemma analyzeImage_not_text imageBase64 filename mimeType modelName
    output_text output :
  responses_create
    (Call modelName ("data:" +:+ mimeType +:+ ";base64," +:+ imageBase64))
  = Responded output_text output →
  (∀ s, output_of output_text output ≠ VStr s) →
  (analyzeImage imageBase64 filename mimeType modelName).1
  = Ok (createFallbackAnalysis filename).
Proof.
  intros H Hs. unfold Vision.analyzeImage. simpl. rewrite H. simpl.
  fold (output_of output_text output).
  destruct (output_of output_text output); try done.
  by specialize (Hs s).
Qed.

Lemma analyzeImage_text imageBase64 filename mimeType modelName
    output_text output s :
  responses_create
    (Call modelName ("data:" +:+ mimeType +:+ ";base64," +:+ imageBase64))
  = Responded output_text output →
  output_of output_text output = VStr s →
  (analyzeImage imageBase64 filename mimeType modelName).1
  = Ok (VObj (spread_into [("filename", VStr filename)]
                (match JSON_parse (clean (trim s)) with
                 | Ok analysis => analysis
                 | Throw _ => createFallbackAnalysis filename
                 end))).
Proof.
  intros H Hs. unfold Vision.analyzeImage. simpl. rewrite H. simpl.
  fold (output_of output_text output). rewrite Hs. simpl.
  unfold safeParseJSON. by destruct (JSON_parse _).
Qed.

(** X21: [analyzeImage] makes exactly one call to the provider, with
    the data URL of the image, and never throws: it resolves to an
    object, which is the canned fallback analysis of the file name when
    the call is rejected, by the timeout or otherwise, and when what
    the response gives for its text is not a string (as when
    [output_text] is missing and [output] is an array). *)
Theorem analyzeImage_settles imageBase64 filename mimeType modelName :
  let request :=
    Call modelName ("data:" +:+ mimeType +:+ ";base64," +:+ imageBase64) in
  (analyzeImage imageBase64 filename mimeType modelName).2 = [request]
  ∧ (∃ entry,
       (analyzeImage imageBase64 filename mimeType modelName).1 = Ok entry
       ∧ ∃ fields, entry = VObj fields)
  ∧ (∀ e, responses_create request = Rejected e →
       (analyzeImage imageBase64 filename mimeType modelName).1
       = Ok (createFallbackAnalysis filename))
  ∧ (∀ output_text output,
       responses_create request = Responded output_text output →
       (∀ s, output_of output_text output ≠ VStr s) →
       (analyzeImage imageBase64 filename mimeType modelName).1
       = Ok (createFallbackAnalysis filename)).
Proof.
  intros request. split_and!.
  - done.
  - destruct (responses_create request) as [output_text output|e] eqn:Hr.
    + destruct (output_of output_text output) eqn:Ho;
        try (rewrite (analyzeImage_not_text _ _ _ _ _ _ Hr);
             [by eexists; split; [|eexists]|by rewrite Ho]).
      rewrite (analyzeImage_text _ _ _ _ _ _ _ Hr Ho).
      eexists. split; [done|]. by eexists.
    + rewrite (analyzeImage_rejected _ _ _ _ _ Hr).
      eexists. split; [done|]. by eexists.
  - intros e. apply analyzeImage_rejected.
  - intros output_text output. apply analyzeImage_not_text.
Qed.

Lemma handler_results req api_key modelName now rateLimitMap photos idx p :
  accepted req api_key now rateLimitMap photos →
  photos !! idx = Some p →
  ∃ hdrs results calls,
    (handler req api_key modelName now rateLimitMap).1
    = (Response 200 hdrs (ResultsBody results (length photos)), calls)
    ∧ results !! idx = Some (analyze_photo modelName p).1.
Proof.
  intros Hacc Hidx.
  rewrite (vision_handler_accepted _ _ _ _ _ _ _ photos) by done.
  eexists _, _, _. split; [done|]. by rewrite list_lookup_fmap, Hidx.
Qed.

(** X22: in an accepted batch, the entry of a photo that was sent and
    whose response text parses holds every own property of the parsed
    value, and besides them only [filename], the photo's file name: a
    [filename] in the parsed value overrides the photo's. *)
Theorem handler_entry_parsed
    req api_key modelName now rateLimitMap photos idx p
    output_text output s analysis :
  accepted req api_key now rateLimitMap photos →
  photos !! idx = Some p →
  too_large p = false →
  responses_create (request_of modelName p) = Responded output_text output →
  output_of output_text output = VStr s →
  JSON_parse (clean (trim s)) = Ok analysis →
  ∃ hdrs results calls entry,
    (handler req api_key modelName now rateLimitMap).1
    = (Response 200 hdrs (ResultsBody results (length photos)), calls)
    ∧ results !! idx = Some entry
    ∧ ∀ k, prop entry k
           = match lookup_field k (own_entries analysis) with
             | Some v => v
             | None =>
                 if String.eqb k "filename" then VStr (filename p)
                 else VUndefined
             end.
Proof.
  intros Hacc Hidx Hsize Hr Ho Hparse.
  destruct (handler_results _ _ modelName _ _ _ _ _ Hacc Hidx)
    as (hdrs & results & calls & Hresp & Hentry).
  eexists hdrs, results, calls, _. split_and!; [done..|].
  intros k. rewrite analyze_photo_sent by done.
  rewrite (analyzeImage_text _ _ _ _ _ _ _ Hr Ho), Hparse. simpl.
  rewrite spread_into_lookup.
  destruct (lookup_field k (own_entries analysis)); [done|]. simpl.
  by destruct (String.eqb k "filename").
Qed.

(** X23: in an accepted batch, the entry of a photo that was sent and
    whose response text cannot be parsed has the properties of the canned
    fallback analysis of its file name, and no others. *)
Theorem handler_entry_unparsed
    req api_key modelName now rateLimitMap photos idx p
    output_text output s :
  accepted req api_key now rateLimitMap photos →
  photos !! idx = Some p →
  too_large p = false →
  responses_create (request_of modelName p) = Responded output_text output →
  output_of output_text output = VStr s →
  is_ok (JSON_parse (clean (trim s))) = false →
  ∃ hdrs results calls entry,
    (handler req api_key modelName now rateLimitMap).1
    = (Response 200 hdrs (ResultsBody results (length photos)), calls)
    ∧ results !! idx = Some entry
    ∧ ∀ k, prop entry k = prop (createFallbackAnalysis (filename p)) k.
Proof.
  intros Hacc Hidx Hsize Hr Ho Hparse.
  destruct (handler_results _ _ modelName _ _ _ _ _ Hacc Hidx)
    as (hdrs & results & calls & Hresp & Hentry).
  eexists hdrs, results, calls, _. split_and!; [done..|].
  intros k. rewrite analyze_photo_sent by done.
  rewrite (analyzeImage_text _ _ _ _ _ _ _ Hr Ho).
  destruct (JSON_parse _); [done|].
  unfold createFallbackAnalysis. cbn [prop].
  rewrite spread_into_lookup. cbn [own_entries].
  match goal with
  | |- context [lookup_field k (?kv :: ?l)] =>
      destruct (lookup_field k (kv :: l)) eqn:Hk
  end; [done|].
  simpl in Hk. simpl. by destruct (String.eqb k "filename").
Qed.

(** X24: in an accepted batch, a photo that is not too large is sent to
    the provider, and when the call is rejected or what the response
    gives for its text is not a string, its entry is the canned fallback
    analysis of its file name. *)
Theorem handler_entry_fallback
    req api_key modelName now rateLimitMap photos idx p :
  accepted req api_key now rateLimitMap photos →
  photos !! idx = Some p →
  too_large p = false →
  (∃ e, responses_create (request_of modelName p) = Rejected e)
  ∨ (∃ output_text output,
       responses_create (request_of modelName p)
       = Responded output_text output
       ∧ ∀ s, output_of output_text output ≠ VStr s) →
  ∃ hdrs results calls,
    (handler req api_key modelName now rateLimitMap).1
    = (Response 200 hdrs (ResultsBody results (length photos)), calls)
    ∧ results !! idx = Some (createFallbackAnalysis (filename p))
    ∧ request_of modelName p ∈ calls.
Proof.
  intros Hacc Hidx Hsize Hcase.
  rewrite (vision_handler_accepted _ _ _ _ _ _ _ photos) by done.
  eexists _, _, _. split; [done|]. split.
  - rewrite list_lookup_fmap, Hidx. simpl. f_equal.
    rewrite analyze_photo_sent by done.
    destruct Hcase as [[e Hr]|(output_text & output & Hr & Ho)].
    + by rewrite (analyzeImage_rejected _ _ _ _ _ Hr).
    + by rewrite (analyzeImage_not_text _ _ _ _ _ _ Hr Ho).
  - apply list_elem_of_fmap. exists p. split; [done|].
    apply list_elem_of_filter. split; [done|].
    by eapply list_elem_of_lookup_2.
Qed.

(** *** Gates *)

Lemma vision_handler_not_post req api_key modelName now rateLimitMap :
  req_method req ≠ "POST" →
  handler req api_key modelName now rateLimitMap
  = (Response 405 [json_header] (ErrorBody "Method not allowed" None), [],
     rateLimitMap).
Proof.
  intros Hm. unfold Vision.handler.
  destruct (String.eqb_spec (req_method req) "POST"); done.
Qed.

Lemma vision_handler_post req api_key modelName now rateLimitMap :
  req_method req = "POST" →
  handler req api_key modelName now rateLimitMap
  = (if RateLimit.allowed (rate_decision req now rateLimitMap)
     then
       let outcome :=
         handle_body req api_key modelName
           (RateLimit.remaining (rate_decision req now rateLimitMap)) in
       (match outcome.1 with
        | Ok r => r
        | Throw error => vision_failure error
        end, outcome.2)
     else
       (Response 429
          [json_header; ("X-RateLimit-Remaining", "0");
           ("Retry-After", "600")]
          (ErrorBody "Rate limit exceeded"
             (Some "Too many requests. Please try again later.")), []),
     (RateLimit.checkRateLimit
        (RateLimit.clientIp (x_forwarded_for req) (x_real_ip req))
        now rateLimitMap).2).
Proof.
  intros Hm. unfold Vision.handler, rate_decision. rewrite Hm. simpl.
  destruct (RateLimit.checkRateLimit _ _ _) as [d m']. simpl.
  destruct (RateLimit.allowed d); [|done]. simpl.
  by destruct (Vision.handle_body _ _ _ _ _ _).
Qed.

Lemma handle_body_cases req api_key modelName remaining :
  (∃ photos,
     req_photos req = Ok (PhotoArray photos)
     ∧ (0 < length photos ≤ MAX_PHOTOS)%nat
     ∧ (∃ key, api_key = Some key ∧ key ≠ "")
     ∧ ∃ hdrs results calls,
         handle_body req api_key modelName remaining
         = (Ok (Response 200 hdrs (ResultsBody results (length photos))),
            calls)
         ∧ (length calls ≤ length photos)%nat)
  ∨ (∃ code msg,
       handle_body req api_key modelName remaining
       = (Ok (Response code [json_header] (ErrorBody msg None)), [])
       ∧ (code = 400%nat ∨ code = 500%nat)
       ∧ msg ∈ vision_errors)
  ∨ (∃ e, req_photos req = Throw e
          ∧ handle_body req api_key modelName remaining = (Throw e, [])).
Proof.
  unfold Vision.handle_body, vision_errors.
  destruct (req_photos req) as [[|photos]|e] eqn:Hp.
  - right. left. eexists _, _. split; [done|]. split; [by left|set_solver].
  - destruct (length photos =? 0)%nat eqn:H0.
    { right. left. eexists _, _. split; [done|].
      split; [by left|set_solver]. }
    destruct (MAX_PHOTOS <? length photos)%nat eqn:H1.
    { right. left. eexists _, _. split; [done|].
      split; [by left|]. vm_compute. set_solver. }
    destruct (negb (truthy (from_option VStr VUndefined api_key))) eqn:Hkey.
    { right. left. eexists _, _. split; [done|].
      split; [by right|set_solver]. }
    left. exists photos. split; [done|].
    apply Nat.eqb_neq in H0. apply Nat.ltb_ge in H1.
    split; [lia|]. split.
    { destruct api_key as [key|]; [|done]. exists key. split; [done|].
      by intros ->. }
    rewrite analyze_loop_map. simpl.
    rewrite length_fmap, Nat.eqb_refl. simpl.
    eexists _, _, _. split; [done|].
    rewrite calls_filter, length_fmap. apply length_filter.
  - right. right. by exists e.
Qed.

(** X25: for photo entries of the documented shape, the status of the
    answer of the vision endpoint is 405 exactly for a method other than
    POST, 429 exactly for a POST over the rate limit, 200 exactly for an
    accepted request (a POST within the limit whose body holds 1 to 36
    photos, with the API key configured), and 400 or 500 in every other
    case. *)
Theorem vision_status req api_key modelName now rateLimitMap :
  let r := (handler req api_key modelName now rateLimitMap).1.1 in
  (status r = 405%nat ↔ req_method req ≠ "POST")
  ∧ (status r = 429%nat ↔
     req_method req = "POST"
     ∧ RateLimit.allowed (rate_decision req now rateLimitMap) = false)
  ∧ (status r = 200%nat ↔
     ∃ photos, accepted req api_key now rateLimitMap photos)
  ∧ status r ∈ [200; 400; 405; 429; 500]%nat.
Proof.
  intros r. unfold r. clear r.
  destruct (decide (req_method req = "POST")) as [Hm|Hm].
  2:{ rewrite vision_handler_not_post by done. simpl. split_and!.
      - done.
      - split; [done|]. by intros [? _].
      - split; [done|]. by intros (photos & ? & _).
      - set_solver. }
  rewrite vision_handler_post by done.
  destruct (RateLimit.allowed (rate_decision req now rateLimitMap)) eqn:Hallow.
  2:{ simpl. split_and!.
      - split; [done|]. by intros [].
      - done.
      - split; [done|]. intros (photos & _ & Ha & _). congruence.
      - set_solver. }
  simpl.
  destruct (handle_body_cases req api_key modelName
              (RateLimit.remaining (rate_decision req now rateLimitMap)))
    as [(photos & Hp & Hlen & Hkey & hdrs & results & calls & Hb & _)
       |[(code & msg & Hb & Hcode & _)|(e & He & Hb)]].
  - rewrite Hb. simpl.
    split_and!; [split; [done|by intros []]|split; [done|by intros [_ ?]]
                |split; [|done]|apply list_elem_of_here].
    intros _. by exists photos.
  - assert (¬ ∃ photos, accepted req api_key now rateLimitMap photos)
      as Hnot.
    { intros (photos & Hacc).
      pose proof (vision_handler_accepted JSON_parse responses_create
                    _ _ modelName _ _ _ Hacc) as H.
      rewrite vision_handler_post, Hallow in H by done. simpl in H.
      rewrite Hb in H. simpl in H. injection H as H _.
      destruct Hcode as [-> | ->]; done. }
    rewrite Hb. simpl. split_and!.
    + split; [|done]. destruct Hcode as [-> | ->]; done.
    + split; [|by intros [_ ?]]. destruct Hcode as [-> | ->]; done.
    + split; [destruct Hcode as [-> | ->]; done|done].
    + destruct Hcode as [-> | ->]; set_solver.
  - rewrite Hb. simpl.
    split_and!; [split; [done|by intros []]|split; [done|by intros [_ ?]]
                | |set_solver].
    split; [done|]. intros (photos & _ & _ & Hp & _).
    congruence.
Qed.

(** X26: the vision endpoint calls the provider only for an accepted
    request and at most 36 times; the [error] of an answer
    [{ error, message? }] is one of six texts, so the answer
    [Analysis incomplete] is never given; and a request with a method
    other than POST leaves the rate-limit map as it was. *)
Theorem vision_never req api_key modelName now rateLimitMap :
  let '(r, calls, rateLimitMap') :=
    handler req api_key modelName now rateLimitMap in
  (calls ≠ [] → ∃ photos, accepted req api_key now rateLimitMap photos)
  ∧ (length calls ≤ MAX_PHOTOS)%nat
  ∧ (∀ msg detail, resp_body r = ErrorBody msg detail → msg ∈ vision_errors)
  ∧ (req_method req ≠ "POST" → rateLimitMap' = rateLimitMap).
Proof.
  destruct (decide (req_method req = "POST")) as [Hm|Hm].
  2:{ rewrite vision_handler_not_post by done.
      split_and!; [done|simpl; lia| |done].
      intros msg detail [= <- _]. unfold vision_errors. set_solver. }
  rewrite vision_handler_post by done.
  destruct (RateLimit.allowed (rate_decision req now rateLimitMap))
    eqn:Hallow.
  2:{ split_and!; [done|simpl; lia| |done].
      intros msg detail [= <- _]. unfold vision_errors. set_solver. }
  simpl.
  destruct (handle_body_cases req api_key modelName
              (RateLimit.remaining (rate_decision req now rateLimitMap)))
    as [(photos & Hp & Hlen & Hkey & hdrs & results & calls & Hb & Hcalls)
       |[(code & msg & Hb & Hcode & Hmsg)|(e & He & Hb)]];
    rewrite Hb; simpl.
  - split_and!; [|lia|done|done]. intros _. exists photos. split_and!; try done; lia.
  - split_and!; [done|lia| |done]. by intros ? ? [= <- _].
  - split_and!; [done|lia|done|done].
Qed.

End Entries.

Lemma accepted_small :
  accepted (post [small_photo]) (Some "sk") 0 ∅ [small_photo].
Proof.
  split_and!; [reflexivity..| | |by exists "sk"].
  - simpl. lia.
  - simpl. unfold MAX_PHOTOS. lia.
Qed.

Lemma handler_entry_parsed_witness :
  ∃ hdrs results calls entry,
    (handler reads_empty_object answers_empty_object (post [small_photo])
       (Some "sk") "gpt-4.1-mini" 0 ∅).1
    = (Response 200 hdrs (ResultsBody results (length [small_photo])), calls)
    ∧ results !! 0%nat = Some entry
    ∧ ∀ k, prop entry k
           = match lookup_field k (own_entries (VObj [])) with
             | Some v => v
             | None =>
                 if String.eqb k "filename" then VStr (filename small_photo)
                 else VUndefined
             end.
Proof.
  apply (handler_entry_parsed reads_empty_object answers_empty_object
           (post [small_photo]) (Some "sk") "gpt-4.1-mini" 0 ∅ [small_photo]
           0%nat small_photo (VStr "{}") VUndefined "{}" (VObj []));
    [apply accepted_small|reflexivity..].
Defined.

Lemma handler_entry_unparsed_witness :
  ∃ hdrs results calls entry,
    (handler reads_empty_object (answers "Sorry, I cannot do that.")
       (post [small_photo]) (Some "sk") "gpt-4.1-mini" 0 ∅).1
    = (Response 200 hdrs (ResultsBody results (length [small_photo])), calls)
    ∧ results !! 0%nat = Some entry
    ∧ ∀ k, prop entry k
           = prop (createFallbackAnalysis (filename small_photo)) k.
Proof.
  apply (handler_entry_unparsed reads_empty_object
           (answers "Sorry, I cannot do that.")
           (post [small_photo]) (Some "sk") "gpt-4.1-mini" 0 ∅ [small_photo]
           0%nat small_photo (VStr "Sorry, I cannot do that.") VUndefined
           "Sorry, I cannot do that.");
    [apply accepted_small|reflexivity..].
Defined.

Lemma handler_entry_fallback_witness :
  ∃ hdrs results calls,
    (handler reads_empty_object
       (rejects (JsError "AbortError" "Request was aborted."))
       (post [small_photo]) (Some "sk") "gpt-4.1-mini" 0 ∅).1
    = (Response 200 hdrs (ResultsBody results (length [small_photo])), calls)
    ∧ results !! 0%nat
      = Some (createFallbackAnalysis (filename small_photo))
    ∧ request_of "gpt-4.1-mini" small_photo ∈ calls.
Proof.
  apply (handler_entry_fallback reads_empty_object
           (rejects (JsError "AbortError" "Request was aborted."))
           (post [small_photo]) (Some "sk") "gpt-4.1-mini" 0 ∅ [small_photo]
           0%nat small_photo); [apply accepted_small|reflexivity..|].
  left. by eexists.
Defined.

End VisionRoutes.

